(** * Early-exit training script and same-model speculative decoding

    Shallow embedding of [train_early_exit.py]: the helpers
    ([decode_token], [decode_tokens], [benchmark]), the dataset sampler
    [TextSamplerDataset], and the body of the training loop, together
    with the two decoders the script imports from the repository's
    [speculative_decoding] package. *)

From Stdlib Require Import QArith Qminmax Lqa ZArith List Bool Arith Lia.
From Stdlib Require Import Morphisms Setoid.
From Stdlib Require Strings.Byte.
From ExtLib Require Import Structures.Monad.
Import ListNotations.
Import MonadNotation.
Local Open Scope monad_scope.

(* ===================================================================== *)
(** ** Constants of the script (lines 22-32) *)
(* ===================================================================== *)

Definition NUM_BATCHES : N := 100000.
Definition BATCH_SIZE : nat := 4.
Definition GRAD_ACCUM_EVERY : nat := 4.
Definition LEARNING_RATE : Q := 1 # 10000.
Definition VALIDATE_EVERY : nat := 100.
Definition PRIME_LENGTH : nat := 128.
Definition GENERATE_EVERY : nat := 500.
Definition GENERATE_LENGTH : nat := 512.
Definition SEQ_LEN : nat := 512.
Definition GAMMA : nat := 5.
Definition EARLY_EXIT_LOSS_WEIGHT : Q := 1.

(** Clipping ceiling passed to [clip_grad_norm_] (line 128). *)
Definition MAX_GRAD_NORM : Q := 1 # 2.

(** [num_tokens] of the [Decoder] built at line 75. *)
Definition NUM_TOKENS : nat := 256.

(* ===================================================================== *)
(** ** Tokens and next-token distributions *)
(* ===================================================================== *)

(** A token is an index into the vocabulary; a token sequence is a list. *)
Definition token := nat.

(** A next-token distribution assigns a rational weight to every token. *)
Definition probs := token -> Q.

(** Sum of [f] over the vocabulary [0 .. V-1]. *)
Definition sum_tokens (V : nat) (f : token -> Q) : Q :=
  fold_right (fun t acc => f t + acc) 0 (seq 0 V).

(* ===================================================================== *)
(** ** Finite distributions *)
(* ===================================================================== *)

(** The randomness of a decoder is described by the finite list of its
    weighted outcomes. *)
Definition dist (A : Type) : Type := list (A * Q).

Definition dret {A} (a : A) : dist A := [(a, 1)].

Definition dscale {B} (w : Q) (d : dist B) : dist B :=
  map (fun bv => (fst bv, w * snd bv)) d.

Definition dbind {A B} (d : dist A) (k : A -> dist B) : dist B :=
  flat_map (fun aw => dscale (snd aw) (k (fst aw))) d.

#[global] Instance Monad_dist : Monad dist :=
  {| ret := @dret; bind := @dbind |}.

(** Expectation of [f] under [d]. *)
Definition expect {A} (d : dist A) (f : A -> Q) : Q :=
  fold_right (fun aw acc => snd aw * f (fst aw) + acc) 0 d.

(** Probability of the event [ev]. *)
Definition Pr {A} (d : dist A) (ev : A -> bool) : Q :=
  expect d (fun a => if ev a then 1 else 0).

(** Categorical draw over the vocabulary. *)
Definition categorical (V : nat) (p : probs) : dist token :=
  map (fun t => (t, p t)) (seq 0 V).

(** The event [r <= a] for a uniform draw [r] in the unit interval. *)
Definition bernoulli (a : Q) : dist bool := [(true, a); (false, 1 - a)].

(** [p] is a probability distribution over [0 .. V-1]. *)
Definition is_dist (V : nat) (p : probs) : Prop :=
  (forall t, 0 <= p t) /\ sum_tokens V p == 1.

(** [a] is one of the listed outcomes of [d]. *)
Definition outcome {A} (d : dist A) (a : A) : Prop := exists w, In (a, w) d.

(** Every outcome of [d] satisfies [P]. *)
Definition dist_post {A} (d : dist A) (P : A -> Prop) : Prop :=
  forall a, outcome d a -> P a.



(** The sequence [out] carries token [x] at position [i]. *)
Definition emits (i : nat) (x : token) (out : list token) : bool :=
  match nth_error out i with
  | Some y => Nat.eqb y x
  | None => false
  end.

(* ===================================================================== *)
(** ** Errors *)
(* ===================================================================== *)

Inductive error : Type :=
| ConfigError        (* invalid configuration, e.g. non-positive gamma *)
| RuntimeError       (* torch: no CUDA, empty randint range, no graph *)
| ValueError         (* chr() outside the Unicode range *)
| OverflowError      (* chr() of an integer that does not fit a C int *)
| IndexError         (* random.choice on an empty sequence *)
| ZeroDivisionError  (* integer division by zero *)
| Hang.              (* cycle() over a loader that yields nothing *)

Inductive result (A : Type) : Type :=
| Ok (a : A)
| Err (e : error).
Arguments Ok {A} a.
Arguments Err {A} e.

(* ===================================================================== *)
(** ** The decoders of the [speculative_decoding] package *)
(* ===================================================================== *)

(** The package [speculative_decoding] is not among the sources; its two
    decoders are written here from the specification (sections 4.3, 4.4,
    5 and 7), over an interface of the effects they need. *)

(** Modelled from the spec: what a decoder asks of its environment, the
    two heads of the model, the random source, and the gradient switch.
    [forward_full out drafts] is ONE full-depth pass over
    [out ++ drafts]; its result, indexed by [k], is the logit row that
    predicts the token following [out ++ firstn k drafts].
    [forward_early out] is the early-exit head at the last position of
    [out]. *)
Class DecodeEffects (Logits : Type) (m : Type -> Type) : Type := {
  forward_full : list token -> list token -> m (nat -> Logits);
  forward_early : list token -> m Logits;
  sample : probs -> m token;
  uniform_le : Q -> m bool;
  no_grad : forall {A : Type}, m A -> m A
}.

(** Modelled from the spec: the acceptance threshold [min(1, p/q)] of
    the package's rejection test; a zero draft probability is an
    automatic rejection and never divides. *)
Definition accept_ratio (p q : Q) : Q :=
  if Qeq_bool q 0 then 0 else Qmin 1 (p / q).

(** Modelled from the spec: the residual distribution of the package,
    [max(0, p - q)] renormalised over the vocabulary. *)
Definition residual (V : nat) (p q : probs) : probs :=
  fun x => Qmax 0 (p x - q x) / sum_tokens V (fun y => Qmax 0 (p y - q y)).

(** Probability that a token drafted from [q] fails the test against [p]. *)
Definition reject_mass (V : nat) (p q : probs) : Q :=
  sum_tokens V (fun t => q t * (1 - accept_ratio (p t) (q t))).

(** Modelled from the spec: the package's side channel, the average
    number of accepted draft tokens per block. *)
Definition average_accepted (total_accepted blocks : nat) : Q :=
  inject_Z (Z.of_nat total_accepted) / inject_Z (Z.of_nat blocks).

Section Decoders.

Context {m : Type -> Type} {Mm : Monad m}.
Context {Logits SamplingConfig : Type}.
Context {Em : DecodeEffects Logits m}.

(** The sampling policy (temperature, top-k, top-p) turns a logit row
    into the distribution that is sampled; both decoders use it. *)
Variable policy : SamplingConfig -> Logits -> probs.

(** Size of the vocabulary. *)
Variable V : nat.

Variable cfg : SamplingConfig.

(** Modelled from the spec: the base decoder (the package's
    [base_decoding] is not among the sources).  One iteration runs the
    full-depth head on the current sequence, samples the next token
    from the last position, and appends it. *)
Fixpoint base_loop (n : nat) (out : list token) : m (list token) :=
  match n with
  | O => ret out
  | S n' =>
      logits <- forward_full out [] ;;
      t <- sample (policy cfg (logits O)) ;;
      base_loop n' (out ++ [t])
  end.

(** Modelled from the spec: the draft phase of a speculative block.
    Extends [out] by [g] tokens with the early-exit head only, and
    records each sampled token with its early-exit distribution. *)
Fixpoint draft_loop (g : nat) (out : list token)
  : m (list (token * probs)) :=
  match g with
  | O => ret []
  | S g' =>
      logits <- forward_early out ;;
      let q := policy cfg logits in
      t <- sample q ;;
      rest <- draft_loop g' (out ++ [t]) ;;
      ret ((t, q) :: rest)
  end.

(** Modelled from the spec: left-to-right accept/reject.  [p O] is the
    full-depth distribution at the current draft position.  Returns
    the tokens the block emits and the number of accepted drafts: the
    first rejection stops the block with a token resampled from the
    residual; a block accepted in full earns the bonus token. *)
Fixpoint accept_loop (p : nat -> probs) (drafts : list (token * probs))
  : m (list token * nat) :=
  match drafts with
  | [] =>
      bonus <- sample (p O) ;;
      ret ([bonus], O)
  | (t, q) :: rest =>
      ok <- uniform_le (accept_ratio (p O t) (q t)) ;;
      if (ok : bool) then
        r <- accept_loop (fun k => p (S k)) rest ;;
        ret (t :: fst r, S (snd r))
      else
        x <- sample (residual V (p O) q) ;;
        ret ([x], O)
  end.

(** Modelled from the spec: one outer step, draft then verify. *)
Definition speculative_block (g : nat) (out : list token)
  : m (list token * nat) :=
  drafts <- draft_loop g out ;;
  logits <- forward_full out (map fst drafts) ;;
  accept_loop (fun k => policy cfg (logits k)) drafts.

(** Modelled from the spec: the outer loop.  The draft block is
    truncated to [length - |out| - 1] so that the drafts plus the
    resampled or bonus token never overshoot the target length. *)
Fixpoint speculative_loop (gamma length fuel : nat) (out : list token)
    (total_accepted blocks : nat) : m (list token * Q) :=
  match fuel with
  | O => ret (out, average_accepted total_accepted blocks)
  | S fuel' =>
      if length <=? List.length out
      then ret (out, average_accepted total_accepted blocks)
      else
        r <- speculative_block
               (Nat.min gamma (length - List.length out - 1)) out ;;
        speculative_loop gamma length fuel' (out ++ fst r)
          (total_accepted + snd r) (S blocks)
  end.

(** Modelled from the spec: entry point [base_decode(model, prompt,
    length, sampling_config)], imported as [base_decoding]; generation
    runs with gradients disabled. *)
Definition base_decoding (prompt : list token) (length : nat)
  : m (list token) :=
  no_grad (base_loop (length - List.length prompt) prompt).

(** Modelled from the spec: entry point [speculative_decode(model,
    prompt, length, gamma, sampling_config)], imported as
    [speculative_decoding_with_same_model].  A non-positive [gamma] is
    a configuration error, reported at call time. *)
Definition speculative_decoding_with_same_model
    (prompt : list token) (length gamma : nat)
  : result (m (list token * Q)) :=
  if gamma =? 0 then Err ConfigError
  else Ok (no_grad (speculative_loop gamma length
                      (length - List.length prompt) prompt 0 0)).

End Decoders.

(** A way to say what every result of a computation satisfies, for any
    implementation of the effects: the rules for sequencing, and the
    fact that the primitive effects do yield results. *)
Class DecodePost (Logits : Type) (m : Type -> Type)
    {Mm : Monad m} {Em : DecodeEffects Logits m} : Type := {
  post : forall {A : Type}, m A -> (A -> Prop) -> Prop;
  post_ret : forall (A : Type) (a : A) (P : A -> Prop),
    P a -> post (ret a) P;
  post_bind : forall (A C : Type) (c : m A) (k : A -> m C)
                     (P : A -> Prop) (Q : C -> Prop),
    post c P -> (forall a, P a -> post (k a) Q) -> post (bind c k) Q;
  post_conseq : forall (A : Type) (c : m A) (P Q : A -> Prop),
    post c P -> (forall a, P a -> Q a) -> post c Q;
  post_no_grad : forall (A : Type) (c : m A) (P : A -> Prop),
    post c P -> post (no_grad c) P;
  post_forward_full : forall out drafts,
    post (forward_full out drafts) (fun _ => True);
  post_forward_early : forall out,
    post (forward_early out) (fun _ => True);
  post_sample : forall p, post (sample p) (fun _ => True);
  post_uniform_le : forall a, post (uniform_le a) (fun _ => True)
}.

(** *** The decoders as distributions

    For a fixed set of parameters the model is a pair of functions from
    a prefix to a logit row; sampling enumerates the vocabulary. *)
Section DistEffects.

Context {Logits : Type}.
Variable V : nat.
Variable full_head early_head : list token -> Logits.

Definition DecodeEffects_dist : DecodeEffects Logits dist := {|
  forward_full := fun out drafts =>
    dret (fun k => full_head (out ++ firstn k drafts));
  forward_early := fun out => dret (early_head out);
  sample := categorical V;
  uniform_le := bernoulli;
  no_grad := fun _ d => d
|}.

End DistEffects.

(* ===================================================================== *)
(** ** Helpers: [decode_token], [decode_tokens] (lines 45-50) *)
(* ===================================================================== *)

(** A Python [str] is a sequence of Unicode code points. *)
Definition pystr := list Z.

Definition MAX_CODE_POINT : Z := 1114111.   (* 0x10FFFF *)

(** The bounds of a C [int]: [chr] converts its argument to one. *)
Definition INT_MIN : Z := -2147483648.
Definition INT_MAX : Z := 2147483647.

(** Python's [chr]: the argument is converted to a C [int],
    [OverflowError] when it does not fit; the result is defined on
    [range(0x110000)], [ValueError] outside. *)
Definition chr (i : Z) : result Z :=
  if ((i <? INT_MIN) || (INT_MAX <? i))%Z then Err OverflowError
  else if ((0 <=? i) && (i <=? MAX_CODE_POINT))%Z then Ok i
       else Err ValueError.

(** [decode_token(token) = str(chr(max(32, token)))]. *)
Definition decode_token (tok : Z) : result Z := chr (Z.max 32 tok).

(** [decode_tokens(tokens) = "".join(list(map(decode_token, tokens)))]:
    the first failing [decode_token] aborts the whole call. *)
Fixpoint decode_tokens (tokens : list Z) : result pystr :=
  match tokens with
  | [] => Ok []
  | tok :: rest =>
      match decode_token tok with
      | Err e => Err e
      | Ok c =>
          match decode_tokens rest with
          | Err e => Err e
          | Ok s => Ok (c :: s)
          end
      end
  end.

(** The exception [chr] raises for a token above the last code point. *)
Definition chr_error (tok : Z) : error :=
  if (tok <=? INT_MAX)%Z then ValueError else OverflowError.

(** The vocabulary of the [Decoder] built by the script. *)
Definition is_token (tok : Z) : Prop := (0 <= tok < Z.of_nat NUM_TOKENS)%Z.

(* ===================================================================== *)
(** ** The torch state the script runs against *)
(* ===================================================================== *)

Inductive head : Type := FullDepth | EarlyExit.

(** The machine and the parts of torch and of the [Decoder] network the
    script treats as opaque: whether CUDA is there, tensor types, the
    network's two heads and its two losses with their gradients, the
    sampling policy, and the arithmetic of gradients and of the
    optimiser. *)
Class Backend : Type := {
  cuda_is_available : bool;       (* torch.cuda.is_available() *)
  Params : Type;
  Grad : Type;
  OptState : Type;
  Logits : Type;
  SamplingConfig : Type;
  decoder_logits : Params -> head -> list token -> Logits;
  decoder_loss : Params -> list (list token) -> (Q * Grad) * (Q * Grad);
  forward_ms : head -> Q;
  sampling_policy : SamplingConfig -> Logits -> probs;
  default_sampling : SamplingConfig;
  grad_add : Grad -> Grad -> Grad;
  grad_scale : Q -> Grad -> Grad;
  clip_grad_norm : Q -> Grad -> Grad;
  adam_step : OptState -> Params -> Grad -> OptState * Params
}.

(** What the script prints. *)
Inductive output : Type :=
| TrainingLoss (v : Q)
| TrainingSmallLoss (v : Q)
| ValidationLoss (v : Q)
| ValidationSmallLoss (v : Q)
| Prime (prime : pystr)
| BaseDecodingOutput (s : pystr)
| SpecDecodingOutput (s : pystr)
| BaseDecodingElapsed (ms : Q)
| SpecDecodingElapsed (ms : Q)
| AverageNumAccepted (avg : Q) (gamma : nat).

(** Calls into torch that change or read training state, and prints. *)
Inductive event : Type :=
| CallForward (h : head) (grad : bool)
| CallLoss (grad : bool) (loss small_loss : Q)
| CallBackward (value : Q)
| CallClipGradNorm (max_norm : Q)
| CallOptimStep
| CallZeroGrad
| Printed (line : output).

(** [TextSamplerDataset] (lines 89-101). *)
Record TextSamplerDataset : Type := {
  ds_data : list token;
  ds_seq_len : nat
}.

(** [cycle(DataLoader(dataset, batch_size=BATCH_SIZE))]: the dataset and
    the index of the next item of the current pass. *)
Record Loader : Type := {
  ld_dataset : TextSamplerDataset;
  ld_pos : nat
}.

Section Script.

Context {B : Backend}.

Record World : Type := {
  clock : Q;                      (* device time line, in ms *)
  entropy : nat -> N;             (* the random words still to be drawn *)
  rng_pos : nat;
  train_loader : Loader;
  val_loader : Loader;
  params : Params;
  opt_state : OptState;
  grads : option Grad;            (* the .grad of the parameters *)
  grad_enabled : bool;            (* torch.is_grad_enabled() *)
  training : bool;                (* model.training *)
  trace : list event
}.

Definition set_clock (v : Q) (w : World) : World :=
  {| clock := v;
     entropy := entropy w; rng_pos := rng_pos w;
     train_loader := train_loader w; val_loader := val_loader w;
     params := params w; opt_state := opt_state w; grads := grads w;
     grad_enabled := grad_enabled w; training := training w;
     trace := trace w |}.

Definition set_rng_pos (v : nat) (w : World) : World :=
  {| clock := clock w;
     entropy := entropy w; rng_pos := v;
     train_loader := train_loader w; val_loader := val_loader w;
     params := params w; opt_state := opt_state w; grads := grads w;
     grad_enabled := grad_enabled w; training := training w;
     trace := trace w |}.

Definition set_train_loader (v : Loader) (w : World) : World :=
  {| clock := clock w;
     entropy := entropy w; rng_pos := rng_pos w;
     train_loader := v; val_loader := val_loader w;
     params := params w; opt_state := opt_state w; grads := grads w;
     grad_enabled := grad_enabled w; training := training w;
     trace := trace w |}.

Definition set_val_loader (v : Loader) (w : World) : World :=
  {| clock := clock w;
     entropy := entropy w; rng_pos := rng_pos w;
     train_loader := train_loader w; val_loader := v;
     params := params w; opt_state := opt_state w; grads := grads w;
     grad_enabled := grad_enabled w; training := training w;
     trace := trace w |}.

Definition set_optimised (o : OptState) (p : Params) (w : World) : World :=
  {| clock := clock w;
     entropy := entropy w; rng_pos := rng_pos w;
     train_loader := train_loader w; val_loader := val_loader w;
     params := p; opt_state := o; grads := grads w;
     grad_enabled := grad_enabled w; training := training w;
     trace := trace w |}.

Definition set_grads (v : option Grad) (w : World) : World :=
  {| clock := clock w;
     entropy := entropy w; rng_pos := rng_pos w;
     train_loader := train_loader w; val_loader := val_loader w;
     params := params w; opt_state := opt_state w; grads := v;
     grad_enabled := grad_enabled w; training := training w;
     trace := trace w |}.

Definition set_grad_enabled (v : bool) (w : World) : World :=
  {| clock := clock w;
     entropy := entropy w; rng_pos := rng_pos w;
     train_loader := train_loader w; val_loader := val_loader w;
     params := params w; opt_state := opt_state w; grads := grads w;
     grad_enabled := v; training := training w;
     trace := trace w |}.

Definition set_training (v : bool) (w : World) : World :=
  {| clock := clock w;
     entropy := entropy w; rng_pos := rng_pos w;
     train_loader := train_loader w; val_loader := val_loader w;
     params := params w; opt_state := opt_state w; grads := grads w;
     grad_enabled := grad_enabled w; training := v;
     trace := trace w |}.

Definition log (e : event) (w : World) : World :=
  {| clock := clock w;
     entropy := entropy w; rng_pos := rng_pos w;
     train_loader := train_loader w; val_loader := val_loader w;
     params := params w; opt_state := opt_state w; grads := grads w;
     grad_enabled := grad_enabled w; training := training w;
     trace := trace w ++ [e] |}.

(** *** The script monad: state and exceptions *)

Definition T (A : Type) : Type := World -> result A * World.

Definition T_ret {A} (a : A) : T A := fun w => (Ok a, w).

Definition T_bind {A C} (c : T A) (k : A -> T C) : T C :=
  fun w =>
    match c w with
    | (Ok a, w') => k a w'
    | (Err e, w') => (Err e, w')
    end.

#[global] Instance Monad_T : Monad T :=
  {| ret := @T_ret; bind := @T_bind |}.

Definition raise {A} (e : error) : T A := fun w => (Err e, w).

Definition get_world : T World := fun w => (Ok w, w).

Definition modify (f : World -> World) : T unit := fun w => (Ok tt, f w).

Definition lift {A} (r : result A) : T A :=
  match r with Ok a => ret a | Err e => raise e end.

Definition print (line : output) : T unit := modify (log (Printed line)).

(** *** Reading without writing *)

(** Events that leave no gradient state behind: a forward pass or a loss
    evaluation with gradients disabled, and prints. *)
Definition no_grad_event (e : event) : Prop :=
  match e with
  | CallForward _ g => g = false
  | CallLoss g _ _ => g = false
  | Printed _ => True
  | CallBackward _ | CallClipGradNorm _ | CallOptimStep | CallZeroGrad =>
      False
  end.

(** Between [w] and [w'] the parameters, the optimiser state, the
    accumulated gradients, the gradient mode and the loaders are the
    same, and every call made in between satisfies [ok]. *)
Definition untouched (ok : event -> Prop) (w w' : World) : Prop :=
  params w' = params w /\ opt_state w' = opt_state w /\
  grads w' = grads w /\ grad_enabled w' = grad_enabled w /\
  train_loader w' = train_loader w /\ val_loader w' = val_loader w /\
  exists new, trace w' = trace w ++ new /\ Forall ok new.

(** Between [w] and [w'] the two datasets are the same, and every call
    and print made in between satisfies [ok]. *)
Definition runs (ok : event -> Prop) (w w' : World) : Prop :=
  ld_dataset (train_loader w') = ld_dataset (train_loader w) /\
  ld_dataset (val_loader w') = ld_dataset (val_loader w) /\
  exists new, trace w' = trace w ++ new /\ Forall ok new.

(** What only a validation prints, and what only a generation prints or
    calls. *)
Definition validation_output (e : event) : Prop :=
  match e with
  | Printed (ValidationLoss _) | Printed (ValidationSmallLoss _) => True
  | _ => False
  end.

Definition generation_output (e : event) : Prop :=
  match e with
  | CallForward _ _ => True
  | Printed (Prime _) | Printed (BaseDecodingOutput _)
  | Printed (SpecDecodingOutput _) | Printed (BaseDecodingElapsed _)
  | Printed (SpecDecodingElapsed _) | Printed (AverageNumAccepted _ _) => True
  | _ => False
  end.

(** Read-only, no-gradient execution. *)
Definition read_only (w w' : World) : Prop := untouched no_grad_event w w'.

(** What a decoder calls: the heads of the network, in the gradient
    mode it was started in. *)
Definition decoder_event (w : World) (e : event) : Prop :=
  exists h g, e = CallForward h g /\ (grad_enabled w = false -> g = false).

(** The same, as far as it can be said of code that does not set the
    gradient mode itself: nothing but forward passes, and no gradient
    state when the mode is off. *)
Definition read_only_when_disabled (w w' : World) : Prop :=
  untouched (decoder_event w) w w'.

(** What the generation block calls and prints: forward passes with
    gradients disabled, and its own prints. *)
Definition generation_event (e : event) : Prop :=
  match e with
  | CallForward _ g => g = false
  | Printed (Prime _) | Printed (BaseDecodingOutput _)
  | Printed (SpecDecodingOutput _) | Printed (BaseDecodingElapsed _)
  | Printed (SpecDecodingElapsed _) | Printed (AverageNumAccepted _ _) => True
  | _ => False
  end.

(** Whatever [c] does and however it ends, [R] relates the state before
    to the state after. *)
Definition preserves {A} (R : World -> World -> Prop) (c : T A) : Prop :=
  forall w, R w (snd (c w)).

(** From every state, [c] returns normally with a result in [P], having
    only read. *)
Definition T_post {A} (c : T A) (P : A -> Prop) : Prop :=
  forall w, exists a w',
    c w = (Ok a, w') /\ P a /\ read_only_when_disabled w w'.

(** *** Random numbers *)

(** The next word of the generator. *)
Definition next_word : T N :=
  fun w => (Ok (entropy w (rng_pos w)), set_rng_pos (S (rng_pos w)) w).

(** [torch.randint(low, high, (1,))]: uniform over [low, high), an
    error when the range is empty. *)
Definition randint (low high : Z) : T Z :=
  if (low <? high)%Z then
    r <- next_word ;;
    ret (low + (Z.of_N r) mod (high - low))%Z
  else raise RuntimeError.

(** A uniform draw in the unit interval, on 24 bits. *)
Definition uniform : T Q :=
  r <- next_word ;;
  ret (Z.of_N (r mod 16777216) # 16777216).

(** Inverse-CDF draw from [p] along [ts]; [last] is returned when the
    weights are exhausted. *)
Fixpoint inverse_cdf (p : probs) (u : Q) (ts : list token) (last : token)
  : token :=
  match ts with
  | [] => last
  | t :: rest =>
      if Qle_bool (p t) u
      then inverse_cdf p (Qred (u - p t)) rest t
      else t
  end.

(** *** Gradient mode and the network *)

(** [with torch.no_grad(): body]; also the [@torch.no_grad()]
    decorator.  The previous mode is restored on every exit. *)
Definition with_no_grad {A} (body : T A) : T A :=
  fun w =>
    let saved := grad_enabled w in
    let (r, w') := body (set_grad_enabled false w) in
    (r, set_grad_enabled saved w').

Definition model_train : T unit := modify (set_training true).
Definition model_eval : T unit := modify (set_training false).

(** A scalar tensor: its value and, when it was computed with
    gradients enabled, the gradient its [backward()] accumulates. *)
Record Scalar : Type := {
  value : Q;
  grad_fn : option Grad
}.

Definition scalar_add (a b : Scalar) : Scalar :=
  {| value := value a + value b;
     grad_fn := match grad_fn a, grad_fn b with
                | Some ga, Some gb => Some (grad_add ga gb)
                | Some ga, None => Some ga
                | None, Some gb => Some gb
                | None, None => None
                end |}.

Definition scalar_mul (a : Scalar) (c : Q) : Scalar :=
  {| value := value a * c;
     grad_fn := option_map (grad_scale c) (grad_fn a) |}.

Definition scalar_div (a : Scalar) (c : Q) : Scalar :=
  {| value := value a / c;
     grad_fn := option_map (grad_scale (/ c)) (grad_fn a) |}.

(** [model(data, return_loss=True)]: the full-depth and the early-exit
    cross-entropy. *)
Definition model_loss (data : list (list token)) : T (Scalar * Scalar) :=
  w <- get_world ;;
  let '((l, gl), (s, gs)) := decoder_loss (params w) data in
  modify (log (CallLoss (grad_enabled w) l s)) ;;
  let attach g := if grad_enabled w then Some g else None in
  ret ({| value := l; grad_fn := attach gl |},
       {| value := s; grad_fn := attach gs |}).

(** [t.backward()]: accumulates into the [.grad] of the parameters. *)
Definition backward (t : Scalar) : T unit :=
  match grad_fn t with
  | None => raise RuntimeError
  | Some g =>
      modify (fun w =>
        log (CallBackward (value t))
          (set_grads (Some match grads w with
                           | None => g
                           | Some acc => grad_add acc g
                           end) w))
  end.

(** [torch.nn.utils.clip_grad_norm_(model.parameters(), max_norm)]. *)
Definition clip_grad_norm_ (max_norm : Q) : T unit :=
  modify (fun w =>
    log (CallClipGradNorm max_norm)
      (set_grads (option_map (clip_grad_norm max_norm) (grads w)) w)).

(** [optim.step()]; parameters without a gradient are left alone. *)
Definition optim_step : T unit :=
  modify (fun w =>
    log CallOptimStep
      match grads w with
      | None => w
      | Some g =>
          let (o, p) := adam_step (opt_state w) (params w) g in
          set_optimised o p w
      end).

(** [optim.zero_grad()]. *)
Definition optim_zero_grad : T unit :=
  modify (fun w => log CallZeroGrad (set_grads None w)).

(** One head of the network, as a decoder calls it. *)
Definition run_head (h : head) : T Params :=
  w <- get_world ;;
  modify (fun w => log (CallForward h (grad_enabled w))
                     (set_clock (Qred (clock w + forward_ms h)) w)) ;;
  ret (params w).

(** The decoders, run by the script against the torch state. *)
#[global] Instance DecodeEffects_T : DecodeEffects Logits T := {|
  forward_full := fun out drafts =>
    p <- run_head FullDepth ;;
    ret (fun k => decoder_logits p FullDepth (out ++ firstn k drafts));
  forward_early := fun out =>
    p <- run_head EarlyExit ;;
    ret (decoder_logits p EarlyExit out);
  sample := fun p =>
    u <- uniform ;;
    ret (inverse_cdf p u (seq 0 NUM_TOKENS) O);
  uniform_le := fun a =>
    u <- uniform ;;
    ret (Qle_bool u a);
  no_grad := @with_no_grad
|}.

(** *** [benchmark] (lines 53-67) *)

(** A [torch.cuda.Event(enable_timing=True)]: the time it recorded. *)
Definition cuda_event := option Q.

(** [timer()]. *)
Definition timer : T cuda_event := ret None.

(** [event.record()]: needs a CUDA stream. *)
Definition event_record (_ : cuda_event) : T cuda_event :=
  w <- get_world ;;
  if cuda_is_available then ret (Some (clock w)) else raise RuntimeError.

(** [torch.cuda.synchronize()]. *)
Definition cuda_synchronize : T unit :=
  if cuda_is_available then ret tt else raise RuntimeError.

(** [start.elapsed_time(end)], in milliseconds. *)
Definition elapsed_time (start_event end_event : cuda_event) : T Q :=
  match start_event, end_event with
  | Some t0, Some t1 => ret (t1 - t0)
  | _, _ => raise RuntimeError
  end.

Definition benchmark {Args A} (fn : Args -> T A) : Args -> T (A * Q) :=
  fun args =>
    start_event <- timer ;;
    end_event <- timer ;;
    start_event <- event_record start_event ;;
    out <- fn args ;;
    end_event <- event_record end_event ;;
    cuda_synchronize ;;
    elapsed_time_ms <- elapsed_time start_event end_event ;;
    ret (out, elapsed_time_ms).

(** [DEVICE_STR] (line 34); [true] stands for ["cuda"]. *)
Definition DEVICE_STR_is_cuda : bool := cuda_is_available.

(** *** [TextSamplerDataset] and the loaders (lines 89-107) *)

(** [data[start : stop]] for non-negative bounds. *)
Definition slice {A} (l : list A) (start stop : nat) : list A :=
  firstn (stop - start)%nat (skipn start l).

(** [__getitem__]: the index is ignored, the start is random. *)
Definition getitem (ds : TextSamplerDataset) (index : nat)
  : T (list token) :=
  rand_start <- randint 0 (Z.of_nat (length (ds_data ds))
                           - Z.of_nat (ds_seq_len ds)) ;;
  let rand_start := Z.to_nat rand_start in
  ret (slice (ds_data ds) rand_start (rand_start + ds_seq_len ds + 1)%nat).

(** [__len__]. *)
Definition dataset_len (ds : TextSamplerDataset) : T nat :=
  if (ds_seq_len ds =? 0)%nat then raise ZeroDivisionError
  else ret (length (ds_data ds) / ds_seq_len ds)%nat.

(** Items [pos, pos+1, ..] of one batch, in order. *)
Fixpoint getitems (ds : TextSamplerDataset) (pos count : nat)
  : T (list (list token)) :=
  match count with
  | O => ret []
  | S count' =>
      item <- getitem ds pos ;;
      rest <- getitems ds (S pos) count' ;;
      ret (item :: rest)
  end.

(** A pass over the loader is under way when some but not all of the
    items have been handed out. *)
Definition in_pass (ld : Loader) : bool :=
  ((0 <? ld_pos ld)
   && (ld_pos ld <? length (ds_data (ld_dataset ld))
                    / ds_seq_len (ld_dataset ld)))%nat.

(** [iter(loader)], which [cycle] calls at the start of every pass: the
    new iterator draws its base seed from the global generator. *)
Definition new_iterator : T unit :=
  base_seed <- next_word ;;
  ret tt.

(** [next(loader)]: the next batch of at most [BATCH_SIZE] items; the
    pass restarts, with a new iterator, when the dataset is exhausted.
    Over a loader that yields nothing [cycle] never yields: [Hang]. *)
Definition next_batch (ld : Loader) : T (list (list token) * Loader) :=
  (if in_pass ld then ret tt else new_iterator) ;;
  n <- dataset_len (ld_dataset ld) ;;
  if (n =? 0)%nat then raise Hang
  else
    let pos := if (ld_pos ld <? n)%nat then ld_pos ld else O in
    let count := Nat.min BATCH_SIZE (n - pos)%nat in
    batch <- getitems (ld_dataset ld) pos count ;;
    ret (batch,
         {| ld_dataset := ld_dataset ld; ld_pos := (pos + count)%nat |}).

Definition next_train_loader : T (list (list token)) :=
  w <- get_world ;;
  r <- next_batch (train_loader w) ;;
  modify (set_train_loader (snd r)) ;;
  ret (fst r).

Definition next_val_loader : T (list (list token)) :=
  w <- get_world ;;
  r <- next_batch (val_loader w) ;;
  modify (set_val_loader (snd r)) ;;
  ret (fst r).

(** [random.choice(val_dataset)]. *)
Definition random_choice (ds : TextSamplerDataset) : T (list token) :=
  n <- dataset_len ds ;;
  if (n =? 0)%nat then raise IndexError
  else
    r <- next_word ;;
    getitem ds (N.to_nat r mod n)%nat.

(** *** The training loop (lines 115-167) *)

(** The scalar whose [backward()] is called at line 123. *)
Definition backpropagated (loss small_loss : Scalar) : Scalar :=
  scalar_div (scalar_add loss (scalar_mul small_loss EARLY_EXIT_LOSS_WEIGHT))
             (inject_Z (Z.of_nat GRAD_ACCUM_EVERY)).

(** Lines 119-123: one micro-batch. *)
Definition micro_batch : T (Scalar * Scalar) :=
  data <- next_train_loader ;;
  losses <- model_loss data ;;
  backward (backpropagated (fst losses) (snd losses)) ;;
  ret losses.

(** [for _ in range(count)]: the accumulation loop; [last] carries the
    values of [loss] and [small_loss] out of the loop. *)
Fixpoint accumulate (count : nat) (last : Scalar * Scalar)
  : T (Scalar * Scalar) :=
  match count with
  | O => ret last
  | S count' =>
      losses <- micro_batch ;;
      accumulate count' losses
  end.

(** Lines 116-131. *)
Definition training_step : T unit :=
  model_train ;;
  losses <- accumulate GRAD_ACCUM_EVERY
              ({| value := 0; grad_fn := None |},
               {| value := 0; grad_fn := None |}) ;;
  print (TrainingLoss (value (fst losses))) ;;
  print (TrainingSmallLoss (value (snd losses))) ;;
  clip_grad_norm_ MAX_GRAD_NORM ;;
  optim_step ;;
  optim_zero_grad.

(** Lines 134-140. *)
Definition validation_block : T unit :=
  model_eval ;;
  with_no_grad (
    valid_data <- next_val_loader ;;
    losses <- model_loss valid_data ;;
    print (ValidationLoss (value (fst losses))) ;;
    print (ValidationSmallLoss (value (snd losses)))).

(** The two calls of lines 151-157, on a batch of one prompt. *)
Definition call_base_decoding (args : list token * nat) : T (list token) :=
  base_decoding sampling_policy default_sampling (fst args) (snd args).

Definition call_speculative_decoding (args : list token * nat * nat)
  : T (list token * Q) :=
  let '(prompt, length, gamma) := args in
  lift (speculative_decoding_with_same_model sampling_policy NUM_TOKENS
          default_sampling prompt length gamma) >>= (fun run => run).

(** Lines 143-167. *)
Definition generation_block : T unit :=
  model_eval ;;
  w <- get_world ;;
  item <- random_choice (ld_dataset (val_loader w)) ;;
  let inp := firstn PRIME_LENGTH item in
  prime <- lift (decode_tokens (map Z.of_nat inp)) ;;
  print (Prime prime) ;;
  let prompt := inp in
  r1 <- benchmark call_base_decoding (prompt, GENERATE_LENGTH) ;;
  let '(sampled, base_decode_elapsed) := r1 in
  r2 <- benchmark call_speculative_decoding
          (prompt, GENERATE_LENGTH, GAMMA) ;;
  let '((spec_decode_sampled, num_accepted), spec_decode_elapsed) := r2 in
  base_decode_output <- lift (decode_tokens (map Z.of_nat sampled)) ;;
  spec_decode_output <-
    lift (decode_tokens (map Z.of_nat spec_decode_sampled)) ;;
  print (BaseDecodingOutput base_decode_output) ;;
  print (SpecDecodingOutput spec_decode_output) ;;
  print (BaseDecodingElapsed base_decode_elapsed) ;;
  print (SpecDecodingElapsed spec_decode_elapsed) ;;
  print (AverageNumAccepted num_accepted GAMMA).

Definition when (b : bool) (c : T unit) : T unit :=
  if b then c else ret tt.

(** The body of the loop at iteration [i]. *)
Definition iteration (i : nat) : T unit :=
  training_step ;;
  when (i mod VALIDATE_EVERY =? 0)%nat validation_block ;;
  when (i mod GENERATE_EVERY =? 0)%nat generation_block.

(** [for i in range(NUM_BATCHES)], from iteration [i] on. *)
Fixpoint loop_from (i count : nat) : T unit :=
  match count with
  | O => ret tt
  | S count' => iteration i ;; loop_from (S i) count'
  end.

Definition training_loop : T unit := loop_from 0 (N.to_nat NUM_BATCHES).

(** *** Vocabulary for the statements about the loop *)

(** The combined training loss in the words of the specification:
    [total = full_loss + exit_weight * early_exit_loss]. *)
Definition combined_loss (full_loss early_exit_loss : Q) : Q :=
  full_loss + EARLY_EXIT_LOSS_WEIGHT * early_exit_loss.

Definition Qsum (l : list Q) : Q := fold_right Qplus 0 l.

(** A dataset whose window is positive and shorter than its data. *)
Definition dataset_ok (ds : TextSamplerDataset) : Prop :=
  (0 < ds_seq_len ds < length (ds_data ds))%nat.

(** [g] added to the gradient accumulated so far. *)
Definition accumulate_grad (acc : option Grad) (g : Grad) : option Grad :=
  Some match acc with None => g | Some a => grad_add a g end.

(** Gradient of the scalar back-propagated for the batch [data]. *)
Definition micro_batch_grad (p : Params) (data : list (list token)) : Grad :=
  let '((_, gl), (_, gs)) := decoder_loss p data in
  grad_scale (/ inject_Z (Z.of_nat GRAD_ACCUM_EVERY))
    (grad_add gl (grad_scale EARLY_EXIT_LOSS_WEIGHT gs)).

(** Calls made for the batch [data]. *)
Definition micro_batch_events (p : Params) (data : list (list token))
  : list event :=
  let '((l, _), (s, _)) := decoder_loss p data in
  [CallLoss true l s;
   CallBackward ((l + s * EARLY_EXIT_LOSS_WEIGHT)
                 / inject_Z (Z.of_nat GRAD_ACCUM_EVERY))].

(** Gradient accumulated over [batches], starting from [acc]. *)
Definition accumulated_grad (p : Params) (batches : list (list (list token)))
    (acc : option Grad) : option Grad :=
  fold_left (fun a data => accumulate_grad a (micro_batch_grad p data))
            batches acc.

(** Values of [loss] and [small_loss] after the loop over [batches]. *)
Definition last_losses (p : Params) (batches : list (list (list token)))
    (init : Q * Q) : Q * Q :=
  fold_left (fun _ data =>
               let '((l, _), (s, _)) := decoder_loss p data in (l, s))
            batches init.

(** The two losses printed after the accumulation loop. *)
Definition printed_losses (p : Params) (batches : list (list (list token)))
  : list event :=
  [Printed (TrainingLoss (fst (last_losses p batches (0, 0))));
   Printed (TrainingSmallLoss (snd (last_losses p batches (0, 0))))].

(** Everything one training step calls and prints. *)
Definition training_step_events (p : Params)
    (batches : list (list (list token))) : list event :=
  flat_map (micro_batch_events p) batches
  ++ printed_losses p batches
  ++ [CallClipGradNorm MAX_GRAD_NORM; CallOptimStep; CallZeroGrad].

End Script.

(* ===================================================================== *)
(** ** A toy model: four tokens *)
(* ===================================================================== *)

Definition toy_probs (l : list Q) : probs := fun t => nth t l 0.

(** The full-depth head alternates between two rows, one with zeros. *)
Definition toy_full (out : list token) : probs :=
  if Nat.even (length out)
  then toy_probs [1 # 2; 1 # 4; 1 # 8; 1 # 8]
  else toy_probs [0; 0; 1 # 2; 1 # 2].

(** The early-exit head is uniform. *)
Definition toy_early (_ : list token) : probs :=
  toy_probs [1 # 4; 1 # 4; 1 # 4; 1 # 4].

Definition toy_policy (_ : unit) (l : probs) : probs := l.

#[global] Instance toy_effects : DecodeEffects probs dist :=
  DecodeEffects_dist 4 toy_full toy_early.

(** *** A toy backend and a machine to run the script on

    One scalar parameter; the losses are linear in it, gradients are
    clipped component-wise, and the optimiser takes a plain gradient
    step.  The two heads are those of the four-token model. *)
Definition toy_backend (cuda : bool) : Backend := {|
  cuda_is_available := cuda;
  Params := Q;
  Grad := Q;
  OptState := unit;
  Logits := probs;
  SamplingConfig := unit;
  decoder_logits := fun _ h out =>
    match h with FullDepth => toy_full out | EarlyExit => toy_early out end;
  decoder_loss := fun p data =>
    ((Qred (3 * p), 3), (Qred (5 * p), 5));
  forward_ms := fun h => match h with FullDepth => 10 | EarlyExit => 2 end;
  sampling_policy := toy_policy;
  default_sampling := tt;
  grad_add := fun a b => Qred (a + b);
  grad_scale := fun c g => Qred (c * g);
  clip_grad_norm := fun c g => Qmin c (Qmax (- c) g);
  adam_step := fun o p g => (o, Qred (p - (1 # 10) * g))
|}.

(** 600 bytes of text. *)
Definition toy_data : list token :=
  map (fun i => (i * 7) mod 256)%nat (seq 0 600).

Definition toy_dataset : TextSamplerDataset :=
  {| ds_data := toy_data; ds_seq_len := SEQ_LEN |}.

(** A function to wrap: it returns the successor of its argument. *)
Definition toy_fn {B : Backend} (n : nat) : T nat := ret (S n).

Definition toy_world (cuda : bool) : @World (toy_backend cuda) := {|
  clock := 0;
  entropy := fun n => ((N.of_nat n * 2654435761 + 40503) mod 4294967296)%N;
  rng_pos := 0;
  train_loader := {| ld_dataset := toy_dataset; ld_pos := 0 |};
  val_loader := {| ld_dataset := toy_dataset; ld_pos := 0 |};
  params := (1 : @Params (toy_backend cuda));
  opt_state := (tt : @OptState (toy_backend cuda));
  grads := None;
  grad_enabled := true;
  training := true;
  trace := []
|}.

(* ===================================================================== *)
(** ** The data and the start of the script (lines 72-111) *)
(* ===================================================================== *)

(** [int(95e6)] and [int(90e6)]. *)
Definition READ_BYTES : nat := Z.to_nat 95000000.
Definition TRAIN_BYTES : nat := Z.to_nat 90000000.

(** [np.frombuffer(file.read(int(95e6)), dtype=np.uint8)]: at most
    [READ_BYTES] bytes of the decompressed file, each a number below
    256. *)
Definition read_data (file : list Byte.byte) : list token :=
  map Byte.to_nat (firstn READ_BYTES file).

(** [np.split(data, [int(90e6)])]. *)
Definition np_split (data : list token) : list token * list token :=
  (firstn TRAIN_BYTES data, skipn TRAIN_BYTES data).

Definition data_train (file : list Byte.byte) : list token :=
  fst (np_split (read_data file)).

Definition data_val (file : list Byte.byte) : list token :=
  snd (np_split (read_data file)).

(** Lines 104-105. *)
Definition train_dataset (file : list Byte.byte) : TextSamplerDataset :=
  {| ds_data := data_train file; ds_seq_len := SEQ_LEN |}.

Definition val_dataset (file : list Byte.byte) : TextSamplerDataset :=
  {| ds_data := data_val file; ds_seq_len := SEQ_LEN |}.

Section ScriptStart.

Context {B : Backend}.

(** The state in which the loop is entered: fresh loaders over the two
    datasets, the parameters and optimiser state as constructed, no
    gradient yet, gradients enabled, nothing printed. *)
Definition initial_world (file : list Byte.byte) (random : nat -> N)
    (p0 : Params) (o0 : OptState) : World :=
  {| clock := 0;
     entropy := random; rng_pos := 0;
     train_loader := {| ld_dataset := train_dataset file; ld_pos := 0 |};
     val_loader := {| ld_dataset := val_dataset file; ld_pos := 0 |};
     params := p0; opt_state := o0; grads := None;
     grad_enabled := true; training := true;
     trace := [] |}.

(** [k] successive [next(loader)]: the batches and the loader left. *)
Fixpoint next_batches (k : nat) (ld : Loader)
  : T (list (list (list token)) * Loader) :=
  match k with
  | O => ret ([], ld)
  | S k' =>
      r <- next_batch ld ;;
      rs <- next_batches k' (snd r) ;;
      ret (fst r :: fst rs, snd rs)
  end.

(** The uniform draw made from the [k]-th word of the generator. *)
Definition uniform_at (words : nat -> N) (k : nat) : Q :=
  Z.of_N (words k mod 16777216) # 16777216.

(** The token [sample] returns for the distribution [p] on the draw [u]. *)
Definition sample_at (p : probs) (u : Q) : token :=
  inverse_cdf p u (seq 0 NUM_TOKENS) O.

(** The distribution the full-depth head gives after [out], under the
    script's sampling policy. *)
Definition full_probs (p : Params) (out : list token) : probs :=
  sampling_policy default_sampling (decoder_logits p FullDepth out).

(** Number of forward passes of the head [h] recorded in a trace. *)
Definition is_forward (h : head) (e : event) : bool :=
  match e, h with
  | CallForward FullDepth _, FullDepth => true
  | CallForward EarlyExit _, EarlyExit => true
  | _, _ => false
  end.

Definition forward_calls (h : head) (tr : list event) : nat :=
  length (filter (is_forward h) tr).

(** Between [w] and [w'] the calls [new] were recorded and nothing else
    a decoder depends on has changed. *)
Definition decoder_steps (w w' : World) (new : list event) : Prop :=
  trace w' = trace w ++ new /\ params w' = params w /\
  grad_enabled w' = grad_enabled w /\ entropy w' = entropy w.

(** Number of optimiser steps recorded in a trace. *)
Definition is_optim_step (e : event) : bool :=
  match e with CallOptimStep => true | _ => false end.

Definition optimiser_steps (tr : list event) : nat :=
  length (filter is_optim_step tr).

(** A state the loop body can run from: gradients enabled, both
    datasets longer than their window, validation data made of
    vocabulary tokens. *)
Definition script_ready (w : World) : Prop :=
  grad_enabled w = true /\
  dataset_ok (ld_dataset (train_loader w)) /\
  dataset_ok (ld_dataset (val_loader w)) /\
  Forall (fun t => (t < NUM_TOKENS)%nat)
         (ds_data (ld_dataset (val_loader w))).

(** Number of [backward()] calls recorded in a trace. *)
Definition is_backward (e : event) : bool :=
  match e with CallBackward _ => true | _ => false end.

Definition backward_calls (tr : list event) : nat :=
  length (filter is_backward tr).

(** What a training step leaves alone: the gradient mode and the
    validation loader. *)
Definition training_frame (w w' : World) : Prop :=
  grad_enabled w' = grad_enabled w /\ val_loader w' = val_loader w.

End ScriptStart.

(* ##################################################################### *)
(** * Properties *)
(* ##################################################################### *)

(* ===================================================================== *)
(** ** Sums over the vocabulary *)
(* ===================================================================== *)

Lemma sum_tokens_from_ext (l : list token) (f g : token -> Q) :
  (forall t, In t l -> f t == g t) ->
  fold_right (fun t acc => f t + acc) 0 l ==
  fold_right (fun t acc => g t + acc) 0 l.
Proof.
  induction l as [|a l IH]; intros H; simpl.
  - reflexivity.
  - rewrite (H a (or_introl eq_refl)), IH; [reflexivity|].
    intros t Ht. apply H. now right.
Qed.

Lemma sum_tokens_ext V f g :
  (forall t, f t == g t) -> sum_tokens V f == sum_tokens V g.
Proof. intros H. apply sum_tokens_from_ext. intros t _. apply H. Qed.

Lemma sum_tokens_plus V f g :
  sum_tokens V (fun t => f t + g t) == sum_tokens V f + sum_tokens V g.
Proof.
  unfold sum_tokens. induction (seq 0 V) as [|a l IH]; simpl.
  - lra.
  - rewrite IH. lra.
Qed.

Lemma sum_tokens_scale V c f :
  sum_tokens V (fun t => c * f t) == c * sum_tokens V f.
Proof.
  unfold sum_tokens. induction (seq 0 V) as [|a l IH]; simpl.
  - lra.
  - rewrite IH. lra.
Qed.

Lemma sum_tokens_nonneg V f :
  (forall t, 0 <= f t) -> 0 <= sum_tokens V f.
Proof.
  intros H. unfold sum_tokens. induction (seq 0 V) as [|a l IH]; simpl.
  - lra.
  - specialize (H a). lra.
Qed.

(** A sum of non-negative terms that vanishes has only zero terms. *)
Lemma sum_tokens_zero V f :
  (forall t, 0 <= f t) -> sum_tokens V f == 0 ->
  forall t, (t < V)%nat -> f t == 0.
Proof.
  intros Hf. unfold sum_tokens.
  assert (G : forall l, fold_right (fun t acc => f t + acc) 0 l == 0 ->
                        forall t, In t l -> f t == 0).
  { induction l as [|a l IH]; simpl; intros Hs t Ht; [contradiction|].
    assert (0 <= fold_right (fun t acc => f t + acc) 0 l).
    { clear - Hf. induction l as [|b l IHl]; simpl; [lra|].
      specialize (Hf b). lra. }
    pose proof (Hf a). destruct Ht as [->|Ht].
    - lra.
    - apply IH; [lra|assumption]. }
  intros Hs t Ht. apply (G _ Hs). apply in_seq. lia.
Qed.

(* ===================================================================== *)
(** ** Expectation *)
(* ===================================================================== *)

Lemma expect_app {A} (d1 d2 : dist A) f :
  expect (d1 ++ d2) f == expect d1 f + expect d2 f.
Proof.
  unfold expect. induction d1 as [|a d1 IH]; simpl.
  - lra.
  - rewrite IH. lra.
Qed.

Lemma expect_dscale {A} w (d : dist A) f :
  expect (dscale w d) f == w * expect d f.
Proof.
  unfold expect, dscale. induction d as [|a d IH]; simpl.
  - lra.
  - rewrite IH. lra.
Qed.

Lemma expect_ret {A} (a : A) f : expect (dret a) f == f a.
Proof. unfold expect. simpl. lra. Qed.

Lemma expect_bind {A B} (d : dist A) (k : A -> dist B) f :
  expect (dbind d k) f == expect d (fun a => expect (k a) f).
Proof.
  unfold dbind. induction d as [|a d IH]; simpl.
  - reflexivity.
  - rewrite expect_app, expect_dscale, IH. reflexivity.
Qed.

(** Expectations agree as soon as the integrands agree on the outcomes. *)
Lemma expect_ext_in {A} (d : dist A) f g :
  (forall a w, In (a, w) d -> f a == g a) -> expect d f == expect d g.
Proof.
  unfold expect. induction d as [|[a w] d IH]; intros H; simpl.
  - reflexivity.
  - rewrite (H a w (or_introl eq_refl)), IH; [reflexivity|].
    intros a' w' Hin. apply (H a' w'). now right.
Qed.

Lemma expect_ext {A} (d : dist A) f g :
  (forall a, f a == g a) -> expect d f == expect d g.
Proof. intros H. apply expect_ext_in. intros a _ _. apply H. Qed.

Lemma expect_plus {A} (d : dist A) f g :
  expect d (fun a => f a + g a) == expect d f + expect d g.
Proof.
  unfold expect. induction d as [|a d IH]; simpl.
  - lra.
  - rewrite IH. lra.
Qed.

Lemma expect_scale {A} (d : dist A) c f :
  expect d (fun a => c * f a) == c * expect d f.
Proof.
  unfold expect. induction d as [|a d IH]; simpl.
  - lra.
  - rewrite IH. lra.
Qed.

Lemma expect_const {A} (d : dist A) c :
  expect d (fun _ => c) == c * expect d (fun _ => 1).
Proof.
  rewrite <- expect_scale. apply expect_ext. intros. lra.
Qed.

Lemma expect_categorical V p f :
  expect (categorical V p) f == sum_tokens V (fun t => p t * f t).
Proof.
  unfold expect, categorical, sum_tokens.
  induction (seq 0 V) as [|a l IH]; simpl.
  - reflexivity.
  - rewrite IH. reflexivity.
Qed.

Lemma expect_bernoulli a f :
  expect (bernoulli a) f == a * f true + (1 - a) * f false.
Proof. unfold expect, bernoulli. simpl. lra. Qed.

(* ===================================================================== *)
(** ** Rejection sampling with residual correction: one position *)
(* ===================================================================== *)

Lemma Qmax0_minus_min p q : Qmax 0 (p - q) == p - Qmin p q.
Proof.
  destruct (Q.max_spec 0 (p - q)) as [[H1 ->]|[H1 ->]];
    destruct (Q.min_spec p q) as [[H2 ->]|[H2 ->]]; lra.
Qed.

(** Mass with which a drafted token is both proposed and accepted. *)
Lemma accept_mass p q :
  0 <= p -> 0 <= q -> q * accept_ratio p q == Qmin p q.
Proof.
  intros Hp Hq. unfold accept_ratio.
  destruct (Qeq_bool q 0) eqn:E.
  - apply Qeq_bool_eq in E.
    destruct (Q.min_spec p q) as [[H2 ->]|[H2 ->]]; lra.
  - apply Qeq_bool_neq in E.
    assert (Hr : q * (p / q) == p) by (apply Qmult_div_r; assumption).
    assert (Hq' : 0 < q) by (destruct (Qlt_le_dec 0 q); [assumption|lra]).
    set (r := p / q) in *. clearbody r.
    destruct (Q.min_spec 1 r) as [[H1 ->]|[H1 ->]];
      destruct (Q.min_spec p q) as [[H2 ->]|[H2 ->]]; try lra; nra.
Qed.

Section OnePosition.

Variable V : nat.
Variables p q : probs.
Hypothesis Hp : is_dist V p.
Hypothesis Hq : is_dist V q.

Lemma sum_min_le : sum_tokens V (fun t => Qmin (p t) (q t)) ==
                   1 - sum_tokens V (fun y => Qmax 0 (p y - q y)).
Proof.
  destruct Hp as [_ Hp1].
  rewrite (sum_tokens_ext V (fun y => Qmax 0 (p y - q y))
             (fun y => p y + (-1) * Qmin (p y) (q y))).
  - rewrite sum_tokens_plus, sum_tokens_scale, Hp1. lra.
  - intros t. rewrite Qmax0_minus_min. lra.
Qed.

Lemma reject_mass_residual :
  reject_mass V p q == sum_tokens V (fun y => Qmax 0 (p y - q y)).
Proof.
  unfold reject_mass. destruct Hp as [Hp0 _], Hq as [Hq0 Hq1].
  rewrite (sum_tokens_ext V _ (fun t => q t + (-1) * Qmin (p t) (q t))).
  - rewrite sum_tokens_plus, sum_tokens_scale, Hq1, sum_min_le. lra.
  - intros t. rewrite <- (accept_mass (p t) (q t)) by auto. lra.
Qed.

(** Accepting the draft or resampling from the renormalised residual
    emits token [x] with probability exactly [p x]. *)
Lemma accept_or_resample x :
  (x < V)%nat ->
  q x * accept_ratio (p x) (q x) + reject_mass V p q * residual V p q x
  == p x.
Proof.
  intros Hx. destruct Hp as [Hp0 _], Hq as [Hq0 _].
  rewrite accept_mass by auto. rewrite reject_mass_residual.
  unfold residual.
  set (Z := sum_tokens V (fun y => Qmax 0 (p y - q y))).
  destruct (Qeq_dec Z 0) as [HZ|HZ].
  - assert (Hx0 : Qmax 0 (p x - q x) == 0).
    { apply (sum_tokens_zero V (fun y => Qmax 0 (p y - q y))); auto.
      intros t. apply Q.le_max_l. }
    rewrite HZ. rewrite Qmax0_minus_min in Hx0. lra.
  - rewrite Qmult_div_r by assumption.
    rewrite Qmax0_minus_min. lra.
Qed.

End OnePosition.

(* ===================================================================== *)
(** ** What the decoders return, whatever runs them *)
(* ===================================================================== *)

Lemma average_accepted_bounds total blocks gamma :
  (total <= gamma * blocks)%nat ->
  0 <= average_accepted total blocks <= inject_Z (Z.of_nat gamma).
Proof.
  intros H. unfold average_accepted.
  destruct blocks as [|b].
  - replace total with O by lia. split; [vm_compute; discriminate|].
    change (inject_Z (Z.of_nat 0) / inject_Z (Z.of_nat 0))
      with (inject_Z 0).
    rewrite <- Zle_Qle. lia.
  - assert (Hb : 0 < inject_Z (Z.of_nat (S b))).
    { change 0 with (inject_Z 0). rewrite <- Zlt_Qlt. lia. }
    split.
    + apply Qle_shift_div_l; [exact Hb|]. rewrite Qmult_0_l.
      change 0 with (inject_Z 0). rewrite <- Zle_Qle. lia.
    + apply Qle_shift_div_r; [exact Hb|].
      rewrite <- inject_Z_mult, <- Zle_Qle. lia.
Qed.

Section DecoderResults.

Context {m : Type -> Type} {Mm : Monad m} {L C : Type}.
Context {Em : DecodeEffects L m} {Pm : DecodePost L m}.
Variable policy : C -> L -> probs.
Variable V : nat.
Variable cfg : C.

(** A block emits one token more than it accepted drafts. *)
Lemma accept_loop_post drafts : forall p,
  post (accept_loop V p drafts)
    (fun r => length (fst r) = S (snd r) /\ (snd r <= length drafts)%nat).
Proof.
  induction drafts as [|[t q] rest IH]; intros p; cbn [accept_loop].
  - eapply post_bind; [apply post_sample|]. intros bonus _.
    apply post_ret. simpl. lia.
  - eapply post_bind; [apply post_uniform_le|]. intros [|] _.
    + eapply post_bind; [apply IH|]. intros r [H1 H2].
      apply post_ret. simpl. lia.
    + eapply post_bind; [apply post_sample|]. intros x _.
      apply post_ret. simpl. lia.
Qed.

Lemma draft_loop_post g : forall out,
  post (draft_loop policy cfg g out) (fun drafts => length drafts = g).
Proof.
  induction g as [|g IH]; intros out; cbn [draft_loop].
  - now apply post_ret.
  - eapply post_bind; [apply post_forward_early|]. intros lg _.
    eapply post_bind; [apply post_sample|]. intros t _.
    eapply post_bind; [apply IH|]. intros rest Hr.
    apply post_ret. simpl. now f_equal.
Qed.

Lemma speculative_block_post g out :
  post (speculative_block policy V cfg g out)
    (fun r => length (fst r) = S (snd r) /\ (snd r <= g)%nat).
Proof.
  unfold speculative_block.
  eapply post_bind; [apply draft_loop_post|]. intros drafts Hd.
  eapply post_bind; [apply post_forward_full|]. intros lg _.
  rewrite <- Hd. apply accept_loop_post.
Qed.

Lemma base_loop_post n : forall out,
  post (base_loop policy cfg n out)
    (fun r => exists ext, r = out ++ ext /\ length ext = n).
Proof.
  induction n as [|n IH]; intros out; cbn [base_loop].
  - apply post_ret. exists []. now rewrite app_nil_r.
  - eapply post_bind; [apply post_forward_full|]. intros lg _.
    eapply post_bind; [apply post_sample|]. intros t _.
    eapply post_conseq; [apply IH|]. intros r [ext [-> Hn]].
    exists (t :: ext). rewrite <- app_assoc.
    split; [reflexivity|]. simpl. now f_equal.
Qed.

Lemma speculative_loop_post gamma N : forall fuel out acc blocks,
  (N - length out <= fuel)%nat ->
  post (speculative_loop policy V cfg gamma N fuel out acc blocks)
    (fun r => exists ext total blks,
       fst r = out ++ ext /\
       length (fst r) = Nat.max N (length out) /\
       snd r = average_accepted total blks /\
       (blocks <= blks)%nat /\
       (acc <= total <= acc + gamma * (blks - blocks))%nat).
Proof.
  induction fuel as [|fuel IH]; intros out acc blocks Hfuel;
    cbn [speculative_loop].
  - apply post_ret. exists [], acc, blocks. rewrite app_nil_r.
    cbn [fst snd]. repeat split; lia.
  - destruct (Nat.leb_spec N (length out)) as [Hle|Hlt].
    + apply post_ret. exists [], acc, blocks. rewrite app_nil_r.
      cbn [fst snd]. repeat split; lia.
    + eapply post_bind; [apply speculative_block_post|].
      intros r [H1 H2].
      eapply post_conseq.
      * apply (IH (out ++ fst r) (acc + snd r)%nat (S blocks)).
        rewrite length_app. lia.
      * intros r' (ext & total & blks & E & Hlen & Havg & Hb & Ht).
        exists (fst r ++ ext), total, blks.
        rewrite length_app in Hlen. rewrite app_assoc.
        repeat split; try assumption; try lia. nia.
Qed.


(** The speculative decoder returns a pair: the prompt extended to the
    target length, and an average between zero and [gamma]. *)
Lemma speculative_decoding_post prompt N gamma :
  (0 < gamma)%nat ->
  exists c,
    speculative_decoding_with_same_model policy V cfg prompt N gamma = Ok c /\
    post c (fun r => (exists ext, fst r = prompt ++ ext) /\
                     length (fst r) = Nat.max N (length prompt) /\
                     0 <= snd r <= inject_Z (Z.of_nat gamma)).
Proof.
  intros Hgamma. unfold speculative_decoding_with_same_model.
  destruct (Nat.eqb_spec gamma 0) as [->|_]; [lia|].
  eexists. split; [reflexivity|]. apply post_no_grad.
  eapply post_conseq; [apply (speculative_loop_post gamma N); lia|].
  intros r (ext & total & blks & E & Hlen & Havg & Hb & Ht).
  split; [now exists ext|]. split; [exact Hlen|].
  rewrite Havg. apply average_accepted_bounds. lia.
Qed.

End DecoderResults.

(** *** What the average counts *)

Section DecoderAccounting.

Context {m : Type -> Type} {Mm : Monad m} {L C : Type}.
Context {Em : DecodeEffects L m} {Pm : DecodePost L m}.
Variable policy : C -> L -> probs.
Variable V : nat.
Variable cfg : C.


End DecoderAccounting.

Lemma outcome_ret {A} (a b : A) : outcome (dret a) b -> b = a.
Proof. intros [w [H|[]]]. now inversion H. Qed.

Lemma outcome_bind {A B} (d : dist A) (k : A -> dist B) b :
  outcome (dbind d k) b -> exists a, outcome d a /\ outcome (k a) b.
Proof.
  intros [w H]. unfold dbind in H. apply in_flat_map in H.
  destruct H as [[a wa] [Ha Hb]]. unfold dscale in Hb.
  apply in_map_iff in Hb. destruct Hb as [[b' wb] [E Hb]].
  simpl in E. inversion E; subst. exists a. split; eexists; eauto.
Qed.

Lemma expect_ext_outcome {A} (d : dist A) f g :
  (forall a, outcome d a -> f a == g a) -> expect d f == expect d g.
Proof.
  intros H. apply expect_ext_in. intros a w Hin. apply H. now exists w.
Qed.

Lemma outcome_categorical V p t : outcome (categorical V p) t -> (t < V)%nat.
Proof.
  intros [w H]. unfold categorical in H. apply in_map_iff in H.
  destruct H as [t' [E H]]. inversion E; subst. apply in_seq in H. lia.
Qed.

(** The outcomes of a distribution obey the rules of [DecodePost]. *)
#[global] Instance DecodePost_dist {L : Type} (V : nat)
    (full_head early_head : list token -> L)
  : @DecodePost L dist Monad_dist (DecodeEffects_dist V full_head early_head).
Proof.
  refine {| post := @dist_post |}; unfold dist_post;
    cbn [ret bind Monad_dist no_grad forward_full forward_early sample
         uniform_le DecodeEffects_dist]; try (intros; exact I).
  - intros A a P HP b Hb. apply outcome_ret in Hb. now subst.
  - intros A C c k P Q Hc Hk b Hb. apply outcome_bind in Hb.
    destruct Hb as [a [Ha Hb]]. exact (Hk a (Hc a Ha) b Hb).
  - intros A c P Q Hc HPQ a Ha. auto.
  - intros A c P Hc. exact Hc.
Defined.

(* ===================================================================== *)
(** ** Speculative decoding samples from the full-depth model *)
(* ===================================================================== *)

#[global] Instance expect_Proper {A} :
  Proper (eq ==> pointwise_relation A Qeq ==> Qeq) (@expect A).
Proof. intros d d' <- f g Hfg. apply expect_ext. exact Hfg. Qed.

#[global] Instance sum_tokens_Proper :
  Proper (eq ==> pointwise_relation token Qeq ==> Qeq) sum_tokens.
Proof. intros d d' <- f g Hfg. apply sum_tokens_ext. exact Hfg. Qed.

Ltac dist_unfold :=
  cbn [ret bind Monad_dist forward_full forward_early sample uniform_le
       no_grad DecodeEffects_dist].
Ltac dist_step :=
  dist_unfold;
  repeat first [ setoid_rewrite expect_bind | setoid_rewrite expect_ret
               | setoid_rewrite expect_categorical
               | setoid_rewrite expect_bernoulli ].

Section Exactness.

Context {L C : Type}.
Variable policy : C -> L -> probs.
Variable V : nat.
Variable cfg : C.
Variables full_head early_head : list token -> L.

#[local] Instance Ed : DecodeEffects L dist :=
  DecodeEffects_dist V full_head early_head.

(** Distributions of the two heads after a prefix. *)
Let P (out : list token) : probs := policy cfg (full_head out).
Let Qd (out : list token) : probs := policy cfg (early_head out).

Hypothesis HP : forall out, is_dist V (policy cfg (full_head out)).
Hypothesis HQ : forall out, is_dist V (policy cfg (early_head out)).

Lemma draft_loop_mass g out :
  expect (draft_loop policy cfg g out) (fun _ => 1) == 1.
Proof.
  revert out. induction g as [|g IH]; intros out; cbn [draft_loop].
  - dist_step. reflexivity.
  - dist_step. setoid_rewrite IH.
    transitivity (sum_tokens V (Qd out)); [|apply HQ].
    apply sum_tokens_ext. intros t. unfold Qd. lra.
Qed.

Lemma dbind_ext {A B} (d : dist A) (k k' : A -> dist B) :
  (forall a, k a = k' a) -> dbind d k = dbind d k'.
Proof.
  intros H. unfold dbind. apply flat_map_ext. intros [a w]. simpl.
  now rewrite H.
Qed.

Lemma accept_loop_ext drafts : forall p p',
  (forall k, p k = p' k) ->
  accept_loop V p drafts = accept_loop V p' drafts.
Proof.
  induction drafts as [|[t q] rest IH]; intros p p' H;
    cbn [accept_loop]; dist_unfold; rewrite (H O).
  - reflexivity.
  - apply dbind_ext. intros [|]; [|reflexivity].
    now rewrite (IH _ (fun k => p' (S k))) by (intros; apply H).
Qed.

Lemma sum_tokens_ext_lt f g :
  (forall t, (t < V)%nat -> f t == g t) -> sum_tokens V f == sum_tokens V g.
Proof.
  intros H. apply sum_tokens_from_ext. intros t Ht. apply H.
  apply in_seq in Ht. lia.
Qed.

Section Harmonic.

Variable N : nat.
Variable F : list token -> Q.
Hypothesis F_harmonic : forall out, (length out < N)%nat ->
  F out == sum_tokens V (fun t => P out t * F (out ++ [t])).

Lemma accept_block_harmonic g : forall out,
  (length out + g < N)%nat ->
  expect (draft_loop policy cfg g out)
    (fun drafts =>
       expect (accept_loop V
                 (fun k => P (out ++ firstn k (map fst drafts))) drafts)
         (fun r => F (out ++ fst r)))
  == F out.
Proof.
  induction g as [|g IH]; intros out Hlen; cbn [draft_loop].
  - dist_step. cbn [accept_loop map firstn]. dist_step.
    rewrite app_nil_r. symmetry. apply F_harmonic. lia.
  - dist_step.
    set (a := fun t => accept_ratio (P out t) (Qd out t)).
    set (R := sum_tokens V
                (fun x => residual V (P out) (Qd out) x * F (out ++ [x]))).
    transitivity (sum_tokens V (fun t =>
      Qd out t * (a t * F (out ++ [t]) + (1 - a t) * R))).
    + apply sum_tokens_ext. intros t. apply Qmult_comp; [reflexivity|].
      transitivity (expect (draft_loop policy cfg g (out ++ [t]))
        (fun rest => a t *
           expect (accept_loop V
              (fun k => P ((out ++ [t]) ++ firstn k (map fst rest))) rest)
             (fun r => F ((out ++ [t]) ++ fst r))
           + (1 - a t) * R)).
      * apply expect_ext. intros rest.
        cbn [accept_loop map fst firstn]. dist_step.
        cbn [fst snd]. rewrite app_nil_r.
        rewrite (accept_loop_ext rest _
          (fun k => P ((out ++ [t]) ++ firstn k (map fst rest)))).
        2:{ intros k. now rewrite <- app_assoc. }
        apply Qplus_comp; (apply Qmult_comp; [reflexivity|]).
        -- apply expect_ext. intros r. now rewrite <- app_assoc.
        -- reflexivity.
      * rewrite expect_plus, expect_scale, expect_const.
        rewrite IH by (rewrite length_app; simpl; lia).
        rewrite draft_loop_mass. lra.
    + rewrite (F_harmonic out) by lia.
      transitivity
        (sum_tokens V (fun t => (Qd out t * a t) * F (out ++ [t]))
         + reject_mass V (P out) (Qd out) * R).
      * unfold reject_mass, a.
        transitivity (sum_tokens V (fun t =>
          (Qd out t * accept_ratio (P out t) (Qd out t)) * F (out ++ [t])
          + R * (Qd out t
                 * (1 - accept_ratio (P out t) (Qd out t))))).
        -- apply sum_tokens_ext. intros t. ring.
        -- rewrite sum_tokens_plus, sum_tokens_scale. ring.
      * transitivity (sum_tokens V (fun t =>
          (Qd out t * a t) * F (out ++ [t])
          + reject_mass V (P out) (Qd out)
            * (residual V (P out) (Qd out) t * F (out ++ [t])))).
        -- rewrite sum_tokens_plus, sum_tokens_scale. reflexivity.
        -- apply sum_tokens_ext_lt. intros t Ht.
           rewrite <- (accept_or_resample V (P out) (Qd out)
                         (HP out) (HQ out) t Ht).
           unfold a. ring.
Qed.
End Harmonic.

Lemma speculative_block_outcome g out r :
  outcome (speculative_block policy V cfg g out) r ->
  length (fst r) = S (snd r) /\ (snd r <= g)%nat.
Proof.
  apply (speculative_block_post (Pm := DecodePost_dist V full_head early_head)
           policy V cfg g out).
Qed.

Lemma base_loop_step n out f :
  expect (base_loop policy cfg (S n) out) f ==
  sum_tokens V
    (fun t => P out t * expect (base_loop policy cfg n (out ++ [t])) f).
Proof.
  cbn [base_loop]. dist_step. cbn [firstn]. rewrite app_nil_r. reflexivity.
Qed.

Lemma speculative_loop_expect gamma N f : forall fuel out acc blocks,
  (N - length out <= fuel)%nat ->
  expect (speculative_loop policy V cfg gamma N fuel out acc blocks)
    (fun r => f (fst r))
  == expect (base_loop policy cfg (N - length out) out) f.
Proof.
  induction fuel as [|fuel IH]; intros out acc blocks Hfuel;
    cbn [speculative_loop].
  - replace (N - length out)%nat with O by lia.
    cbn [base_loop]. dist_step. reflexivity.
  - destruct (Nat.leb_spec N (length out)) as [Hle|Hlt].
    + replace (N - length out)%nat with O by lia.
      cbn [base_loop]. dist_step. reflexivity.
    + dist_unfold. rewrite expect_bind.
      set (F := fun o => expect (base_loop policy cfg (N - length o) o) f).
      set (g := Nat.min gamma (N - length out - 1)).
      transitivity (expect (speculative_block policy V cfg g out)
                      (fun r => F (out ++ fst r))).
      * apply expect_ext_outcome. intros r Hr.
        apply speculative_block_outcome in Hr.
        apply IH. rewrite length_app. lia.
      * unfold speculative_block. dist_step.
        apply (accept_block_harmonic N F); [|unfold g; lia].
        intros o Ho. unfold F.
        destruct (N - length o)%nat as [|n] eqn:En; [lia|].
        rewrite base_loop_step. apply sum_tokens_ext. intros t.
        replace (N - length (o ++ [t]))%nat with n
          by (rewrite length_app; simpl; lia).
        reflexivity.
Qed.





(** The output sequence of the speculative decoder has, as a whole, the
    distribution of the base decoder's: every expectation agrees. *)
Lemma speculative_decoding_joint prompt length gamma f :
  expect (no_grad (speculative_loop policy V cfg gamma length
                     (length - List.length prompt) prompt 0 0))
    (fun r => f (fst r))
  == expect (base_decoding policy cfg prompt length) f.
Proof.
  unfold base_decoding. dist_unfold. now apply speculative_loop_expect.
Qed.



(** C1. For every model whose two heads yield probability distributions,
    every prompt, target length and positive gamma, the speculative
    decoder returns a distribution in which each position carries each
    token with exactly the probability it has under the base decoder,
    which samples from the full-depth head alone. *)
Theorem speculative_decoding_exact prompt length gamma :
  (0 < gamma)%nat ->
  exists d,
    speculative_decoding_with_same_model policy V cfg prompt length gamma
    = Ok d /\
    forall i x,
      Pr d (fun r => emits i x (fst r)) ==
      Pr (base_decoding policy cfg prompt length) (emits i x).
Proof.
  intros Hgamma. unfold speculative_decoding_with_same_model.
  destruct gamma as [|gamma']; [lia|]. cbn [Nat.eqb].
  eexists. split; [reflexivity|]. intros i x. unfold Pr.
  apply (speculative_decoding_joint prompt length (S gamma')
           (fun out => if emits i x out then 1 else 0)).
Qed.

End Exactness.

Lemma toy_full_dist out : is_dist 4 (toy_policy tt (toy_full out)).
Proof.
  unfold toy_policy, toy_full.
  destruct (Nat.even (length out)); split;
    try (intros [|[|[|[|[|t]]]]]; vm_compute; discriminate);
    vm_compute; reflexivity.
Qed.

Lemma toy_early_dist out : is_dist 4 (toy_policy tt (toy_early out)).
Proof.
  unfold toy_policy, toy_early. split.
  - intros [|[|[|[|[|t]]]]]; vm_compute; discriminate.
  - vm_compute; reflexivity.
Qed.

Lemma speculative_decoding_exact_witness :
  exists d,
    speculative_decoding_with_same_model toy_policy 4 tt [O] 3 2 = Ok d /\
    forall i x,
      Pr d (fun r => emits i x (fst r)) ==
      Pr (base_decoding toy_policy tt [O] 3) (emits i x).
Proof.
  apply (speculative_decoding_exact toy_policy 4 tt toy_full toy_early
           toy_full_dist toy_early_dist [O] 3%nat 2%nat).
  lia.
Defined.

(* ===================================================================== *)
(** ** [decode_tokens] *)
(* ===================================================================== *)

Lemma decode_token_ok tok :
  (tok <= MAX_CODE_POINT)%Z -> decode_token tok = Ok (Z.max 32 tok).
Proof.
  intros H. unfold decode_token, chr.
  destruct (Z.ltb_spec (Z.max 32 tok) INT_MIN);
    [unfold INT_MIN in *; lia|].
  destruct (Z.ltb_spec INT_MAX (Z.max 32 tok));
    [unfold INT_MAX, MAX_CODE_POINT in *; lia|].
  destruct (Z.leb_spec 0 (Z.max 32 tok)); [|lia].
  destruct (Z.leb_spec (Z.max 32 tok) MAX_CODE_POINT); [reflexivity|].
  unfold MAX_CODE_POINT in *. lia.
Qed.

Lemma decode_tokens_ok tokens :
  Forall (fun tok => (tok <= MAX_CODE_POINT)%Z) tokens ->
  decode_tokens tokens = Ok (map (Z.max 32) tokens).
Proof.
  induction 1 as [|tok rest Htok _ IH]; simpl.
  - reflexivity.
  - now rewrite (decode_token_ok tok Htok), IH.
Qed.

Lemma is_token_code_point tok : is_token tok -> (tok <= MAX_CODE_POINT)%Z.
Proof. unfold is_token, MAX_CODE_POINT, NUM_TOKENS. lia. Qed.

(** C10. For every list of tokens of the vocabulary, [decode_tokens]
    returns a string with one character per token, every character has
    code point at least 32, and a token below 32 is rendered as the
    space character while any other token is rendered as itself. *)
Theorem decode_tokens_printable tokens :
  Forall is_token tokens ->
  exists s,
    decode_tokens tokens = Ok s /\
    length s = length tokens /\
    Forall (fun c => (32 <= c)%Z) s /\
    s = map (fun tok => if (tok <? 32)%Z then 32%Z else tok) tokens.
Proof.
  intros H. exists (map (Z.max 32) tokens). repeat split.
  - apply decode_tokens_ok. eapply Forall_impl; [|exact H].
    intros tok. apply is_token_code_point.
  - apply length_map.
  - apply Forall_forall. intros c Hc. apply in_map_iff in Hc.
    destruct Hc as [tok [<- _]]. lia.
  - apply map_ext. intros tok. destruct (Z.ltb_spec tok 32); lia.
Qed.

Lemma decode_tokens_printable_witness :
  exists s,
    decode_tokens [72; 10; 105; 0; 255]%Z = Ok s /\
    length s = 5%nat /\
    Forall (fun c => (32 <= c)%Z) s /\
    s = [72; 32; 105; 32; 255]%Z.
Proof.
  apply (decode_tokens_printable [72; 10; 105; 0; 255]%Z).
  repeat constructor; unfold is_token, NUM_TOKENS; simpl; lia.
Defined.

(* ===================================================================== *)
(** ** The dataset sampler *)
(* ===================================================================== *)

Section DatasetFacts.

Context {B : Backend}.

Lemma T_bind_ok {A C} (c : T A) (k : A -> T C) w a w' :
  c w = (Ok a, w') -> T_bind c k w = k a w'.
Proof. intros H. unfold T_bind. now rewrite H. Qed.

Lemma T_bind_err {A C} (c : T A) (k : A -> T C) w e w' :
  c w = (Err e, w') -> T_bind c k w = (Err e, w').
Proof. intros H. unfold T_bind. now rewrite H. Qed.

Lemma slice_length {A} (l : list A) start stop :
  (start <= stop)%nat -> (stop <= length l)%nat ->
  length (slice l start stop) = (stop - start)%nat.
Proof.
  intros H1 H2. unfold slice. rewrite length_firstn, length_skipn. lia.
Qed.

(** A non-empty range always yields a draw, inside the range; only the
    generator advances. *)
Lemma randint_ok low high w :
  (low < high)%Z ->
  exists r,
    randint low high w = (Ok r, set_rng_pos (S (rng_pos w)) w) /\
    (low <= r < high)%Z.
Proof.
  intros H. unfold randint. destruct (Z.ltb_spec low high); [|lia].
  eexists. split; [reflexivity|].
  pose proof (Z.mod_pos_bound (Z.of_N (entropy w (rng_pos w))) (high - low)).
  lia.
Qed.

Lemma randint_empty low high w :
  (high <= low)%Z -> randint low high w = (Err RuntimeError, w).
Proof.
  intros H. unfold randint. destruct (Z.ltb_spec low high); [lia|].
  reflexivity.
Qed.

Lemma getitem_ok ds index w :
  (ds_seq_len ds < length (ds_data ds))%nat ->
  exists s,
    getitem ds index w = (Ok s, set_rng_pos (S (rng_pos w)) w) /\
    length s = (ds_seq_len ds + 1)%nat.
Proof.
  intros H. unfold getitem.
  destruct (randint_ok 0 (Z.of_nat (length (ds_data ds))
                          - Z.of_nat (ds_seq_len ds)) w) as [r [Hr Hin]];
    [lia|].
  cbn [bind ret Monad_T]. rewrite (T_bind_ok _ _ _ _ _ Hr). unfold T_ret.
  eexists. split; [reflexivity|].
  rewrite slice_length; lia.
Qed.

Lemma getitems_ok ds : forall count pos w,
  (ds_seq_len ds < length (ds_data ds))%nat ->
  exists batch,
    getitems ds pos count w
    = (Ok batch, set_rng_pos (count + rng_pos w) w) /\
    length batch = count /\
    Forall (fun s => length s = (ds_seq_len ds + 1)%nat) batch.
Proof.
  induction count as [|count IH]; intros pos w H; cbn [getitems].
  - exists []. repeat split; [|constructor].
    cbn [ret Monad_T]. unfold T_ret. destruct w; reflexivity.
  - destruct (getitem_ok ds pos w H) as [s [Hs Hl]].
    destruct (IH (S pos) (set_rng_pos (S (rng_pos w)) w) H)
      as [rest [Hrest [Hn Hall]]].
    exists (s :: rest). cbn [bind ret Monad_T].
    rewrite (T_bind_ok _ _ _ _ _ Hs), (T_bind_ok _ _ _ _ _ Hrest).
    unfold T_ret.
    repeat split; [|simpl; lia|now constructor].
    f_equal. unfold set_rng_pos; cbn. f_equal. lia.
Qed.

(** The start of a pass costs one draw, the base seed. *)
Lemma start_of_pass ld w {A} (k : unit -> T A) :
  T_bind (if in_pass ld then T_ret tt else new_iterator) k w
  = k tt (if in_pass ld then w else set_rng_pos (S (rng_pos w)) w).
Proof. destruct (in_pass ld); reflexivity. Qed.

(** The batch a loader hands out, exactly. *)
Lemma next_batch_exact ld w :
  dataset_ok (ld_dataset ld) ->
  let n := (length (ds_data (ld_dataset ld))
            / ds_seq_len (ld_dataset ld))%nat in
  let pos := if (ld_pos ld <? n)%nat then ld_pos ld else O in
  exists batch,
    next_batch ld w
    = (Ok (batch, {| ld_dataset := ld_dataset ld;
                     ld_pos := (pos + length batch)%nat |}),
       set_rng_pos (length batch + (if in_pass ld then 0 else 1)
                    + rng_pos w) w) /\
    length batch = Nat.min BATCH_SIZE (n - pos) /\
    (pos < n)%nat /\
    Forall (fun s => length s = (ds_seq_len (ld_dataset ld) + 1)%nat) batch.
Proof.
  intros [H0 H] n pos. unfold next_batch.
  cbn [bind ret Monad_T]. rewrite start_of_pass. cbv beta.
  set (w0 := if in_pass ld then w else set_rng_pos (S (rng_pos w)) w).
  unfold dataset_len.
  destruct (Nat.eqb_spec (ds_seq_len (ld_dataset ld)) 0) as [E|_]; [lia|].
  cbn [ret Monad_T].
  rewrite (T_bind_ok _ _ w0 _ w0 (eq_refl : T_ret _ w0 = _)).
  fold n.
  assert (Hn : (0 < n)%nat) by (unfold n; apply Nat.div_str_pos; lia).
  destruct (Nat.eqb_spec n 0) as [E|_]; [lia|]. fold pos.
  assert (Hpos : (pos < n)%nat).
  { unfold pos. destruct (Nat.ltb_spec (ld_pos ld) n); lia. }
  destruct (getitems_ok (ld_dataset ld)
              (Nat.min BATCH_SIZE (n - pos)) pos w0 H)
    as [batch [Hb [Hlen Hall]]].
  exists batch. rewrite (T_bind_ok _ _ _ _ _ Hb). unfold T_ret.
  rewrite Hlen. split; [|repeat split; assumption].
  f_equal. unfold w0. destruct (in_pass ld); unfold set_rng_pos; cbn;
    f_equal; lia.
Qed.

(** [next(loader)] on a dataset that is longer than its window. *)
Lemma next_batch_ok ld w :
  (0 < ds_seq_len (ld_dataset ld) < length (ds_data (ld_dataset ld)))%nat ->
  exists batch pos k,
    next_batch ld w
    = (Ok (batch, {| ld_dataset := ld_dataset ld; ld_pos := pos |}),
       set_rng_pos k w) /\
    batch <> [] /\ (length batch <= BATCH_SIZE)%nat /\
    Forall (fun s => length s = (ds_seq_len (ld_dataset ld) + 1)%nat) batch.
Proof.
  intros H.
  destruct (next_batch_exact ld w H) as [batch [E [Hlen [Hpos Hall]]]].
  cbv zeta in E, Hlen, Hpos. do 3 eexists. split; [exact E|].
  split; [|split; [lia|exact Hall]].
  intros ->. cbn [length] in Hlen. unfold BATCH_SIZE in Hlen. lia.
Qed.

(** C7. Whenever the data is longer than the window, so that the range
    of the random start is not empty, [__getitem__] returns, for every
    index, a sequence of exactly [seq_len + 1] tokens (513 for
    [SEQ_LEN]); every batch a loader over such a dataset hands out is
    non-empty and made of such sequences. *)
Theorem getitem_length ds :
  (ds_seq_len ds < length (ds_data ds))%nat ->
  (forall index w, exists s w',
      getitem ds index w = (Ok s, w') /\
      length s = (ds_seq_len ds + 1)%nat /\
      (ds_seq_len ds = SEQ_LEN -> length s = 513%nat)) /\
  ((0 < ds_seq_len ds)%nat ->
   forall pos w, exists batch ld' w',
      next_batch {| ld_dataset := ds; ld_pos := pos |} w
      = (Ok (batch, ld'), w') /\
      batch <> [] /\
      Forall (fun s => length s = (ds_seq_len ds + 1)%nat) batch).
Proof.
  intros H. split.
  - intros index w. destruct (getitem_ok ds index w H) as [s [Hs Hl]].
    exists s. eexists. repeat split; [exact Hs|exact Hl|].
    intros E. rewrite Hl, E. reflexivity.
  - intros H0 pos w.
    destruct (next_batch_ok {| ld_dataset := ds; ld_pos := pos |} w)
      as [batch [pos' [k [Hb [Hne [_ Hall]]]]]]; [simpl; lia|].
    exists batch. do 2 eexists. repeat split; [exact Hb| |exact Hall].
    exact Hne.
Qed.

End DatasetFacts.

Lemma getitem_length_witness :
  (ds_seq_len toy_dataset < length (ds_data toy_dataset))%nat /\
  exists s w',
    getitem toy_dataset 0 (toy_world true) = (Ok s, w') /\
    length s = 513%nat.
Proof.
  assert (H : (ds_seq_len toy_dataset < length (ds_data toy_dataset))%nat)
    by (vm_compute; lia).
  split; [exact H|].
  destruct (proj1 (getitem_length toy_dataset H) O (toy_world true))
    as [s [w' [E [_ L]]]].
  exists s, w'. split; [exact E | apply L; reflexivity].
Defined.

(* ===================================================================== *)
(** ** The training step *)
(* ===================================================================== *)

Section TrainingFacts.

Context {B : Backend}.

(** Running a script command by hand. *)
Ltac T_run := cbn [bind ret Monad_T]; unfold T_bind, T_ret, modify, get_world.

(** The loader only draws random numbers and moves its own position. *)
Lemma next_train_loader_ok w :
  dataset_ok (ld_dataset (train_loader w)) ->
  exists data pos k,
    next_train_loader w
    = (Ok data,
       set_train_loader
         {| ld_dataset := ld_dataset (train_loader w); ld_pos := pos |}
         (set_rng_pos k w)) /\
    data <> [] /\
    Forall (fun s => length s
                     = (ds_seq_len (ld_dataset (train_loader w)) + 1)%nat)
           data.
Proof.
  intros H.
  destruct (next_batch_ok (train_loader w) w H)
    as [batch [pos [k [Hb [Hne [_ Hall]]]]]].
  exists batch, pos, k.
  unfold next_train_loader. cbn [bind ret Monad_T].
  rewrite (T_bind_ok get_world _ w w w eq_refl).
  rewrite (T_bind_ok _ _ _ _ _ Hb).
  repeat split; assumption.
Qed.

Lemma micro_batch_ok w :
  grad_enabled w = true ->
  dataset_ok (ld_dataset (train_loader w)) ->
  exists data l gl s gs w',
    decoder_loss (params w) data = ((l, gl), (s, gs)) /\
    micro_batch w
    = (Ok ({| value := l; grad_fn := Some gl |},
           {| value := s; grad_fn := Some gs |}), w') /\
    trace w' = trace w ++ micro_batch_events (params w) data /\
    grads w' = accumulate_grad (grads w) (micro_batch_grad (params w) data) /\
    params w' = params w /\ opt_state w' = opt_state w /\
    grad_enabled w' = true /\
    ld_dataset (train_loader w') = ld_dataset (train_loader w).
Proof.
  intros Hg Hds.
  destruct (next_train_loader_ok w Hds) as [data [pos [k [Hd _]]]].
  destruct (decoder_loss (params w) data) as [[l gl] [s gs]] eqn:E.
  exists data, l, gl, s, gs. eexists. split; [exact E|].
  unfold micro_batch_events, micro_batch_grad. rewrite E.
  split.
  - unfold micro_batch. cbn [bind ret Monad_T].
    rewrite (T_bind_ok _ _ _ _ _ Hd).
    unfold model_loss. T_run. cbn [params set_train_loader set_rng_pos].
    rewrite E. cbn [grad_enabled set_train_loader set_rng_pos log].
    rewrite Hg. cbn. reflexivity.
  - cbn. rewrite <- app_assoc. repeat split; try reflexivity. exact Hg.
Qed.

Lemma accumulate_ok count : forall last w,
  grad_enabled w = true ->
  dataset_ok (ld_dataset (train_loader w)) ->
  exists batches last' w',
    accumulate count last w = (Ok last', w') /\
    length batches = count /\
    trace w' = trace w ++ flat_map (micro_batch_events (params w)) batches /\
    grads w' = accumulated_grad (params w) batches (grads w) /\
    params w' = params w /\ opt_state w' = opt_state w /\
    (value (fst last'), value (snd last'))
    = last_losses (params w) batches (value (fst last), value (snd last)).
Proof.
  induction count as [|count IH]; intros last w Hg Hds; cbn [accumulate].
  - exists [], last, w. cbn [flat_map]. rewrite app_nil_r.
    repeat split; reflexivity.
  - destruct (micro_batch_ok w Hg Hds)
      as (data & l & gl & s & gs & w1
          & E & Hm & Ht & Hgr & Hp & Ho & Hg1 & Hd1).
    rewrite <- Hd1 in Hds.
    destruct (IH ({| value := l; grad_fn := Some gl |},
                  {| value := s; grad_fn := Some gs |}) w1 Hg1 Hds)
      as (batches & last' & w' & Ha & Hlen & Ht' & Hgr' & Hp' & Ho' & Hl').
    exists (data :: batches), last', w'.
    cbn [bind Monad_T]. rewrite (T_bind_ok _ _ _ _ _ Hm).
    rewrite Hp in *. unfold accumulated_grad, last_losses in *.
    cbn [flat_map fold_left length fst snd value] in *.
    rewrite E. rewrite Ht', Ht, Hgr', Hgr, Hp', Ho', Ho, Hl', <- app_assoc.
    repeat split; try reflexivity; try assumption. now f_equal.
Qed.

Lemma accumulated_grad_some p batches acc :
  batches <> [] -> exists G, accumulated_grad p batches acc = Some G.
Proof.
  unfold accumulated_grad.
  assert (H : forall bs g, exists G,
             fold_left
               (fun a data => accumulate_grad a (micro_batch_grad p data))
               bs (Some g) = Some G).
  { induction bs as [|b bs IH]; intros g; cbn [fold_left].
    - now exists g.
    - apply IH. }
  destruct batches as [|b bs]; [congruence|]. intros _.
  cbn [fold_left]. apply H.
Qed.

(** C4. In a training step started with gradients enabled on a usable
    training set, exactly [GRAD_ACCUM_EVERY = 4] micro-batch losses are
    back-propagated, each scaled by 1/4; the accumulated gradient is
    clipped once, to the ceiling 1/2, after the last micro-batch and
    before the single optimiser step; the gradients are zeroed last. *)
Theorem training_step_order w :
  grad_enabled w = true ->
  dataset_ok (ld_dataset (train_loader w)) ->
  exists batches G w',
    training_step w = (Ok tt, w') /\
    length batches = GRAD_ACCUM_EVERY /\ GRAD_ACCUM_EVERY = 4%nat /\
    MAX_GRAD_NORM == 1 # 2 /\
    trace w' = trace w ++ training_step_events (params w) batches /\
    accumulated_grad (params w) batches (grads w) = Some G /\
    (opt_state w', params w')
    = adam_step (opt_state w) (params w) (clip_grad_norm MAX_GRAD_NORM G) /\
    grads w' = None.
Proof.
  intros Hg Hds.
  destruct (accumulate_ok GRAD_ACCUM_EVERY
              ({| value := 0; grad_fn := None |},
               {| value := 0; grad_fn := None |})
              (set_training true w) Hg Hds)
    as (batches & last' & wa & Ha & Hlen & Ht & Hgr & Hp & Ho & Hl).
  cbn [params grads trace opt_state set_training fst snd value]
    in Ht, Hgr, Hp, Ho, Hl.
  destruct (accumulated_grad_some (params w) batches (grads w)) as [G HG].
  { intros ->. discriminate Hlen. }
  exists batches, G. eexists. split.
  - unfold training_step, model_train. cbn [bind ret Monad_T].
    unfold modify at 1.
    rewrite (T_bind_ok (fun w0 => (Ok tt, set_training true w0)) _ w tt
               (set_training true w) eq_refl).
    rewrite (T_bind_ok _ _ _ _ _ Ha).
    unfold print, clip_grad_norm_, optim_step, optim_zero_grad.
    T_run. reflexivity.
  - cbn [trace grads params opt_state log set_grads set_optimised].
    rewrite Hgr, HG. cbn [option_map].
    destruct (adam_step (opt_state wa) (params wa)
                (clip_grad_norm MAX_GRAD_NORM G)) as [o p] eqn:Ea.
    cbn [trace grads params opt_state log set_grads set_optimised].
    rewrite Hp, Ho in Ea. rewrite Ht.
    unfold training_step_events, printed_losses.
    rewrite <- Hl. cbn [fst snd].
    repeat rewrite <- app_assoc. cbn [app].
    repeat split; try reflexivity; try assumption. now symmetry.
Qed.

Lemma backpropagated_value loss small_loss :
  value (backpropagated loss small_loss)
  == combined_loss (value loss) (value small_loss) / 4.
Proof.
  unfold backpropagated, combined_loss, EARLY_EXIT_LOSS_WEIGHT,
    GRAD_ACCUM_EVERY. cbn [value scalar_div scalar_add scalar_mul].
  change (inject_Z (Z.of_nat 4)) with 4. field.
Qed.

(** Back-propagating each loss divided by the number of micro-batches
    accumulates their mean. *)
Lemma backpropagated_mean (losses : list (Scalar * Scalar)) :
  length losses = GRAD_ACCUM_EVERY ->
  Qsum (map (fun x => value (backpropagated (fst x) (snd x))) losses)
  == Qsum (map (fun x => combined_loss (value (fst x)) (value (snd x)))
             losses)
     / inject_Z (Z.of_nat (length losses)).
Proof.
  intros H. rewrite H. change (inject_Z (Z.of_nat GRAD_ACCUM_EVERY)) with 4.
  clear H. induction losses as [|x losses IH]; cbn [map Qsum fold_right].
  - field.
  - fold (Qsum (map (fun x => value (backpropagated (fst x) (snd x))) losses)).
    rewrite IH, backpropagated_value. unfold Qsum. field.
Qed.

(** C2. The scalar back-propagated for a micro-batch is the combined
    loss [full_loss + exit_weight * early_exit_loss] divided by the four
    accumulation micro-batches, with [exit_weight] equal to one; over
    the four micro-batches the back-propagated scalars add up to the
    mean of the combined losses. *)
Theorem backpropagated_scalar w :
  grad_enabled w = true ->
  dataset_ok (ld_dataset (train_loader w)) ->
  EARLY_EXIT_LOSS_WEIGHT == 1 /\
  inject_Z (Z.of_nat GRAD_ACCUM_EVERY) == 4 /\
  (exists data full_loss gl early_exit_loss gs w' v,
     decoder_loss (params w) data
     = ((full_loss, gl), (early_exit_loss, gs)) /\
     micro_batch w
     = (Ok ({| value := full_loss; grad_fn := Some gl |},
            {| value := early_exit_loss; grad_fn := Some gs |}), w') /\
     trace w' = trace w ++ [CallLoss true full_loss early_exit_loss;
                            CallBackward v] /\
     v == combined_loss full_loss early_exit_loss / 4 /\
     v == (full_loss + early_exit_loss) / 4) /\
  (forall losses : list (Scalar * Scalar),
     length losses = GRAD_ACCUM_EVERY ->
     Qsum (map (fun x => value (backpropagated (fst x) (snd x))) losses)
     == Qsum (map (fun x => combined_loss (value (fst x)) (value (snd x)))
                losses)
        / inject_Z (Z.of_nat (length losses))).
Proof.
  intros Hg Hds. split; [reflexivity|]. split; [reflexivity|].
  split; [|apply backpropagated_mean].
  destruct (micro_batch_ok w Hg Hds)
    as (data & l & gl & s & gs & w' & E & Hm & Ht & _).
  exists data, l, gl, s, gs, w'.
  unfold micro_batch_events in Ht. rewrite E in Ht.
  exists ((l + s * EARLY_EXIT_LOSS_WEIGHT)
          / inject_Z (Z.of_nat GRAD_ACCUM_EVERY)).
  split; [exact E|]. split; [exact Hm|]. split; [exact Ht|]. split.
  - unfold combined_loss, EARLY_EXIT_LOSS_WEIGHT, GRAD_ACCUM_EVERY.
    change (inject_Z (Z.of_nat 4)) with 4. field.
  - unfold EARLY_EXIT_LOSS_WEIGHT, GRAD_ACCUM_EVERY.
    change (inject_Z (Z.of_nat 4)) with 4. field.
Qed.

End TrainingFacts.

Lemma toy_world_trainable :
  grad_enabled (toy_world true) = true /\
  dataset_ok (ld_dataset (train_loader (toy_world true))).
Proof. split; [reflexivity|]. unfold dataset_ok. vm_compute. lia. Qed.

Lemma backpropagated_scalar_witness :
  grad_enabled (toy_world true) = true /\
  dataset_ok (ld_dataset (train_loader (toy_world true))) /\
  exists losses w',
    micro_batch (toy_world true) = (Ok losses, w') /\
    value (backpropagated (fst losses) (snd losses))
    == combined_loss (value (fst losses)) (value (snd losses)) / 4.
Proof.
  destruct toy_world_trainable as [Hg Hds].
  split; [exact Hg|]. split; [exact Hds|].
  destruct (backpropagated_scalar (toy_world true) Hg Hds)
    as (_ & _ & (data & l & gl & s & gs & w' & v & _ & Hm & _) & _).
  eexists. exists w'. split; [exact Hm|]. apply backpropagated_value.
Defined.

Lemma training_step_order_witness :
  grad_enabled (toy_world true) = true /\
  dataset_ok (ld_dataset (train_loader (toy_world true))) /\
  exists w',
    training_step (toy_world true) = (Ok tt, w') /\
    grads w' = None /\
    exists batches,
      length batches = 4%nat /\
      trace w' = training_step_events (params (toy_world true)) batches.
Proof.
  destruct toy_world_trainable as [Hg Hds].
  split; [exact Hg|]. split; [exact Hds|].
  destruct (training_step_order (toy_world true) Hg Hds)
    as (batches & G & w' & Hs & Hlen & _ & _ & Ht & _ & _ & Hz).
  exists w'. split; [exact Hs|]. split; [exact Hz|].
  exists batches. split; [exact Hlen|exact Ht].
Defined.

(* ===================================================================== *)
(** ** The benchmark wrapper *)
(* ===================================================================== *)

Section BenchmarkFacts.

Context {B : Backend}.
Context {Args A : Type}.
Variable fn : Args -> T A.

(** Without CUDA the first [record()] raises: [fn] is never called. *)
Lemma benchmark_no_cuda args w :
  cuda_is_available = false -> benchmark fn args w = (Err RuntimeError, w).
Proof.
  intros H. unfold benchmark, timer, event_record.
  cbn [bind ret Monad_T]. unfold T_bind, T_ret, get_world.
  rewrite H. reflexivity.
Qed.

(** An exception of [fn] passes through the wrapper. *)
Lemma benchmark_raises args w e w' :
  cuda_is_available = true ->
  fn args w = (Err e, w') -> benchmark fn args w = (Err e, w').
Proof.
  intros H Hfn. unfold benchmark, timer, event_record.
  cbn [bind ret Monad_T]. unfold T_bind, T_ret, get_world.
  rewrite H. cbn. now rewrite Hfn.
Qed.

(** With CUDA, the wrapper hands back what [fn] returned, with the time
    between the two recorded events. *)
Lemma benchmark_returns args w out w' :
  cuda_is_available = true ->
  fn args w = (Ok out, w') ->
  benchmark fn args w = (Ok (out, clock w' - clock w), w').
Proof.
  intros H Hfn. unfold benchmark, timer, event_record, cuda_synchronize,
    elapsed_time.
  cbn [bind ret Monad_T]. unfold T_bind, T_ret, get_world.
  rewrite H. cbn. rewrite Hfn. cbn. reflexivity.
Qed.

(** C5, amended. On a machine with CUDA, wrapping a function with
    [benchmark] does not change its result: when [fn] returns on its
    arguments, the wrapped function returns the pair of that same result
    and the time elapsed on the device between the two recorded events,
    and leaves the state exactly as [fn] left it; when [fn] raises, the
    wrapped function raises the same exception. *)
Theorem benchmark_result args w :
  cuda_is_available = true ->
  match fn args w with
  | (Ok out, w') =>
      benchmark fn args w = (Ok (out, clock w' - clock w), w')
  | (Err e, w') => benchmark fn args w = (Err e, w')
  end.
Proof.
  intros H. destruct (fn args w) as [[out|e] w'] eqn:Hfn.
  - now apply benchmark_returns.
  - now apply benchmark_raises.
Qed.

(** C9. On a machine without CUDA, [DEVICE_STR] is ["cpu"], and yet every
    benchmarked call, in particular each of the two decoding calls of
    the generation block, raises instead of returning a pair of a result
    and an elapsed time; the wrapped function is not even started. *)
Theorem benchmark_cuda_only :
  cuda_is_available = false ->
  DEVICE_STR_is_cuda = false /\
  (forall args w, benchmark fn args w = (Err RuntimeError, w)) /\
  (forall prompt w,
     benchmark call_base_decoding (prompt, GENERATE_LENGTH) w
     = (Err RuntimeError, w)) /\
  (forall prompt w,
     benchmark call_speculative_decoding (prompt, GENERATE_LENGTH, GAMMA) w
     = (Err RuntimeError, w)).
Proof.
  intros H. unfold DEVICE_STR_is_cuda. repeat split; try assumption;
    intros; unfold benchmark, timer, event_record;
    cbn [bind ret Monad_T]; unfold T_bind, T_ret, get_world;
    rewrite H; reflexivity.
Qed.

End BenchmarkFacts.

(** C5 as stated fails on a machine without CUDA: the wrapped function
    returns 2, the wrapper raises. *)
Lemma benchmark_result_needs_cuda :
  toy_fn 1%nat (toy_world false) = (Ok 2%nat, toy_world false) /\
  benchmark toy_fn 1%nat (toy_world false)
  = (Err RuntimeError, toy_world false).
Proof. split; reflexivity. Qed.

Lemma benchmark_result_witness :
  @cuda_is_available (toy_backend true) = true /\
  toy_fn 1%nat (toy_world true) = (Ok 2%nat, toy_world true) /\
  benchmark toy_fn 1%nat (toy_world true)
  = (Ok (2%nat, clock (toy_world true) - clock (toy_world true)),
     toy_world true).
Proof.
  split; [reflexivity|]. split; [reflexivity|].
  exact (benchmark_result toy_fn 1%nat (toy_world true) eq_refl).
Defined.

Lemma benchmark_cuda_only_witness :
  @cuda_is_available (toy_backend false) = false /\
  benchmark call_base_decoding ([1; 2; 3]%nat, GENERATE_LENGTH)
    (toy_world false)
  = (Err RuntimeError, toy_world false).
Proof.
  split; [reflexivity|].
  apply (proj1 (proj2 (benchmark_cuda_only (B := toy_backend false)
                         call_base_decoding eq_refl))).
Defined.

(* ===================================================================== *)
(** ** Generation reads the model and writes nothing *)
(* ===================================================================== *)

Section GenerationFacts.

Context {B : Backend}.

Lemma untouched_refl ok w : untouched ok w w.
Proof.
  repeat split. exists []. now rewrite app_nil_r.
Qed.

Lemma untouched_trans ok w1 w2 w3 :
  untouched ok w1 w2 -> untouched ok w2 w3 -> untouched ok w1 w3.
Proof.
  intros (Hp & Ho & Hg & He & Hl & Hv & n1 & Ht1 & Hn1)
         (Hp' & Ho' & Hg' & He' & Hl' & Hv' & n2 & Ht2 & Hn2).
  repeat split; try congruence.
  exists (n1 ++ n2). split.
  - now rewrite Ht2, Ht1, app_assoc.
  - apply Forall_app. now split.
Qed.

Lemma read_only_when_disabled_trans w1 w2 w3 :
  read_only_when_disabled w1 w2 -> read_only_when_disabled w2 w3 ->
  read_only_when_disabled w1 w3.
Proof.
  unfold read_only_when_disabled. intros H12 H23.
  apply (untouched_trans _ w1 w2 w3 H12).
  destruct H12 as (_ & _ & _ & He & _). unfold decoder_event in *.
  now rewrite <- He.
Qed.

Lemma untouched_set_rng_pos ok k w : untouched ok w (set_rng_pos k w).
Proof.
  repeat split. exists []. cbn. now rewrite app_nil_r.
Qed.

(** One draw changes the generator only. *)
Lemma uniform_run w :
  exists u, uniform w = (Ok u, set_rng_pos (S (rng_pos w)) w).
Proof. eexists. reflexivity. Qed.

Lemma run_head_run h w :
  run_head h w
  = (Ok (params w),
     log (CallForward h (grad_enabled w))
       (set_clock (Qred (clock w + forward_ms h)) w)).
Proof. reflexivity. Qed.

Lemma run_head_read_only h w :
  read_only_when_disabled w (snd (run_head h w)).
Proof.
  rewrite run_head_run. repeat split.
  exists [CallForward h (grad_enabled w)]. split; [reflexivity|].
  constructor; [|constructor]. exists h, (grad_enabled w). now split.
Qed.

(** The script's state monad, with "returns, having only read", obeys
    the rules of [DecodePost]. *)
#[global] Instance DecodePost_T : @DecodePost Logits T Monad_T DecodeEffects_T.
Proof.
  refine {| post := @T_post B |}; unfold T_post;
    cbn [ret bind Monad_T no_grad forward_full forward_early sample
         uniform_le DecodeEffects_T].
  - intros A a P HP w. exists a, w. split; [reflexivity|].
    split; [exact HP|]. apply untouched_refl.
  - intros A C c k P Q Hc Hk w.
    destruct (Hc w) as (a & w1 & E1 & Pa & R1).
    destruct (Hk a Pa w1) as (b & w2 & E2 & Qb & R2).
    exists b, w2. rewrite (T_bind_ok _ _ _ _ _ E1).
    split; [exact E2|]. split; [exact Qb|].
    apply (read_only_when_disabled_trans w w1 w2); assumption.
  - intros A c P Q Hc HPQ w.
    destruct (Hc w) as (a & w1 & E1 & Pa & R1).
    exists a, w1. split; [exact E1|]. split; [auto|exact R1].
  - intros A c P Hc w. unfold with_no_grad.
    destruct (Hc (set_grad_enabled false w))
      as (a & w1 & E1 & Pa & Hp & Ho & Hg & He & Hl & Hv & new & Ht & Hn).
    exists a, (set_grad_enabled (grad_enabled w) w1). rewrite E1.
    split; [reflexivity|]. split; [exact Pa|].
    repeat split; try assumption.
    exists new. split; [exact Ht|].
    eapply Forall_impl; [|exact Hn]. intros e (h & g & -> & Hg0).
    exists h, g. split; [reflexivity|]. intros _. now apply Hg0.
  - intros out drafts w. unfold T_bind, T_ret.
    rewrite run_head_run. eexists. eexists. split; [reflexivity|].
    split; [exact I|]. apply (run_head_read_only FullDepth w).
  - intros out w. unfold T_bind, T_ret.
    rewrite run_head_run. eexists. eexists. split; [reflexivity|].
    split; [exact I|]. apply (run_head_read_only EarlyExit w).
  - intros p w. unfold T_bind, T_ret. eexists. eexists.
    split; [reflexivity|]. split; [exact I|]. apply untouched_set_rng_pos.
  - intros a w. unfold T_bind, T_ret. eexists. eexists.
    split; [reflexivity|]. split; [exact I|]. apply untouched_set_rng_pos.
Defined.

(** Under [torch.no_grad()] code that only reads leaves no gradient
    state at all, whatever the mode was before. *)
Lemma with_no_grad_read_only {A} (c : T A) (P : A -> Prop) :
  T_post c P ->
  forall w, exists a w',
    with_no_grad c w = (Ok a, w') /\ P a /\ untouched generation_event w w'.
Proof.
  intros Hc w. unfold with_no_grad.
  destruct (Hc (set_grad_enabled false w))
    as (a & w1 & E1 & Pa & Hp & Ho & Hg & He & Hl & Hv & new & Ht & Hn).
  exists a, (set_grad_enabled (grad_enabled w) w1). rewrite E1.
  split; [reflexivity|]. split; [exact Pa|].
  repeat split; try assumption.
  exists new. split; [exact Ht|].
  eapply Forall_impl; [|exact Hn]. intros e (h & g & -> & Hg0).
  cbn. now apply Hg0.
Qed.

(** The call of line 151: it returns the prompt extended to the target
    length, and has only read. *)
Lemma call_base_decoding_ok prompt n w :
  exists out w',
    call_base_decoding (prompt, n) w = (Ok out, w') /\
    ((exists ext, out = prompt ++ ext) /\
     length out = Nat.max n (length prompt)) /\
    untouched generation_event w w'.
Proof.
  unfold call_base_decoding, base_decoding. cbn [fst snd].
  apply with_no_grad_read_only.
  eapply (post_conseq (DecodePost := DecodePost_T));
    [apply (base_loop_post (Pm := DecodePost_T))|].
  intros r [ext [-> Hn]]. split; [now exists ext|].
  rewrite length_app. lia.
Qed.

(** The call of lines 155-157: it returns a pair. *)
Lemma call_speculative_decoding_ok prompt n gamma w :
  (0 < gamma)%nat ->
  exists out avg w',
    call_speculative_decoding (prompt, n, gamma) w = (Ok (out, avg), w') /\
    ((exists ext, out = prompt ++ ext) /\
     length out = Nat.max n (length prompt) /\
     0 <= avg <= inject_Z (Z.of_nat gamma)) /\
    untouched generation_event w w'.
Proof.
  intros Hgamma. unfold call_speculative_decoding,
    speculative_decoding_with_same_model.
  destruct (Nat.eqb_spec gamma 0) as [->|_]; [lia|].
  cbn [lift bind ret Monad_T no_grad DecodeEffects_T].
  rewrite (T_bind_ok (T_ret _) _ w _ w eq_refl).
  destruct (with_no_grad_read_only
              (speculative_loop sampling_policy NUM_TOKENS default_sampling
                 gamma n (n - length prompt) prompt 0 0)
              (fun r => (exists ext, fst r = prompt ++ ext) /\
                        length (fst r) = Nat.max n (length prompt) /\
                        0 <= snd r <= inject_Z (Z.of_nat gamma))) with (w := w)
    as ([out avg] & w' & E & HP & HR).
  - eapply (post_conseq (DecodePost := DecodePost_T));
      [apply (speculative_loop_post (Pm := DecodePost_T)); lia|].
    intros r (ext & total & blks & E & Hlen & Havg & Hb & Ht).
    split; [now exists ext|]. split; [exact Hlen|].
    rewrite Havg. apply average_accepted_bounds. lia.
  - exists out, avg, w'. split; [exact E|]. split; [exact HP|exact HR].
Qed.

(** *** Everything the generation block runs only reads *)

Lemma preserves_bind {A C} ok (c : T A) (k : A -> T C) :
  preserves (untouched ok) c ->
  (forall a, preserves (untouched ok) (k a)) ->
  preserves (untouched ok) (T_bind c k).
Proof.
  intros Hc Hk w. unfold T_bind. specialize (Hc w).
  destruct (c w) as [[a|e] w1]; cbn [snd] in *.
  - eapply untouched_trans; [exact Hc|apply Hk].
  - exact Hc.
Qed.

Lemma preserves_ret {A} ok (a : A) : preserves (untouched ok) (T_ret a).
Proof. intros w. apply untouched_refl. Qed.

Lemma preserves_raise {A} ok e : preserves (untouched ok) (@raise _ A e).
Proof. intros w. apply untouched_refl. Qed.

Lemma preserves_lift {A} ok (r : result A) : preserves (untouched ok) (lift r).
Proof. destruct r; intros w; apply untouched_refl. Qed.

Lemma preserves_get_world ok : preserves (untouched ok) get_world.
Proof. intros w. apply untouched_refl. Qed.

Lemma preserves_next_word ok : preserves (untouched ok) next_word.
Proof. intros w. apply untouched_set_rng_pos. Qed.

Lemma preserves_model_eval ok : preserves (untouched ok) model_eval.
Proof.
  intros w. repeat split. exists []. cbn. now rewrite app_nil_r.
Qed.

Lemma preserves_print (ok : event -> Prop) line :
  ok (Printed line) -> preserves (untouched ok) (print line).
Proof.
  intros H w. repeat split. exists [Printed line]. split; [reflexivity|].
  now repeat constructor.
Qed.

Lemma preserves_event_record ok ev : preserves (untouched ok) (event_record ev).
Proof.
  intros w. unfold event_record. cbn [bind ret Monad_T].
  unfold T_bind, get_world, T_ret, raise.
  destruct cuda_is_available; apply untouched_refl.
Qed.

Lemma preserves_cuda_synchronize ok : preserves (untouched ok) cuda_synchronize.
Proof.
  intros w. unfold cuda_synchronize. cbn [ret Monad_T]. unfold T_ret, raise.
  destruct cuda_is_available; apply untouched_refl.
Qed.

Lemma preserves_elapsed_time ok e1 e2 :
  preserves (untouched ok) (elapsed_time e1 e2).
Proof.
  intros w. unfold elapsed_time. cbn [ret Monad_T]. unfold T_ret, raise.
  destruct e1, e2; apply untouched_refl.
Qed.

Lemma preserves_randint ok low high :
  preserves (untouched ok) (randint low high).
Proof.
  unfold randint. destruct (low <? high)%Z; [|apply preserves_raise].
  cbn [bind ret Monad_T]. apply preserves_bind;
    [apply preserves_next_word|intros; apply preserves_ret].
Qed.

Lemma preserves_getitem ok ds index :
  preserves (untouched ok) (getitem ds index).
Proof.
  unfold getitem. cbn [bind ret Monad_T]. apply preserves_bind;
    [apply preserves_randint|intros; apply preserves_ret].
Qed.

Lemma preserves_dataset_len ok ds : preserves (untouched ok) (dataset_len ds).
Proof.
  unfold dataset_len. destruct (ds_seq_len ds =? 0)%nat;
    [apply preserves_raise|apply preserves_ret].
Qed.

Lemma preserves_random_choice ok ds :
  preserves (untouched ok) (random_choice ds).
Proof.
  unfold random_choice. cbn [bind ret Monad_T]. apply preserves_bind;
    [apply preserves_dataset_len|intros n].
  destruct (n =? 0)%nat; [apply preserves_raise|].
  apply preserves_bind; [apply preserves_next_word|intros].
  apply preserves_getitem.
Qed.

(** The wrapper adds no effect of its own to those of [fn]. *)
Lemma preserves_benchmark {Args A} ok (fn : Args -> T A) args :
  preserves (untouched ok) (fn args) ->
  preserves (untouched ok) (benchmark fn args).
Proof.
  intros Hfn. unfold benchmark, timer. cbn [bind ret Monad_T].
  apply preserves_bind; [apply preserves_ret|intros start0].
  apply preserves_bind; [apply preserves_ret|intros end0].
  apply preserves_bind; [apply preserves_event_record|intros start_event].
  apply preserves_bind; [exact Hfn|intros out].
  apply preserves_bind; [apply preserves_event_record|intros end_event].
  apply preserves_bind; [apply preserves_cuda_synchronize|intros _].
  apply preserves_bind; [apply preserves_elapsed_time|intros ms].
  apply preserves_ret.
Qed.

Lemma preserves_call_base_decoding args :
  preserves (untouched generation_event) (call_base_decoding args).
Proof.
  intros w. destruct args as [prompt n].
  destruct (call_base_decoding_ok prompt n w) as (out & w' & E & _ & HR).
  rewrite E. exact HR.
Qed.

Lemma preserves_call_speculative_decoding prompt n gamma :
  (0 < gamma)%nat ->
  preserves (untouched generation_event)
    (call_speculative_decoding (prompt, n, gamma)).
Proof.
  intros Hgamma w.
  destruct (call_speculative_decoding_ok prompt n gamma w Hgamma)
    as (out & avg & w' & E & _ & HR).
  rewrite E. exact HR.
Qed.

Lemma preserves_generation_block :
  preserves (untouched generation_event) generation_block.
Proof.
  unfold generation_block. cbn [bind ret Monad_T].
  apply preserves_bind; [apply preserves_model_eval|intros _].
  apply preserves_bind; [apply preserves_get_world|intros w0].
  apply preserves_bind; [apply preserves_random_choice|intros item].
  apply preserves_bind; [apply preserves_lift|intros prime].
  apply preserves_bind; [now apply preserves_print|intros _].
  apply preserves_bind;
    [apply preserves_benchmark, preserves_call_base_decoding|].
  intros [sampled base_decode_elapsed].
  apply preserves_bind;
    [apply preserves_benchmark, preserves_call_speculative_decoding;
     unfold GAMMA; lia|].
  intros [[spec_decode_sampled num_accepted] spec_decode_elapsed].
  apply preserves_bind; [apply preserves_lift|intros base_decode_output].
  apply preserves_bind; [apply preserves_lift|intros spec_decode_output].
  repeat (apply preserves_bind; [now apply preserves_print|intros _]).
  now apply preserves_print.
Qed.

Lemma generation_event_no_grad e : generation_event e -> no_grad_event e.
Proof. destruct e as [h g| | | | | |[]]; cbn; tauto. Qed.

Lemma untouched_weaken (ok ok' : event -> Prop) w w' :
  (forall e, ok e -> ok' e) -> untouched ok w w' -> untouched ok' w w'.
Proof.
  intros H (Hp & Ho & Hg & He & Hl & Hv & new & Ht & Hn).
  repeat split; try assumption. exists new. split; [exact Ht|].
  eapply Forall_impl; [|exact Hn]. exact H.
Qed.

Lemma generation_event_read_only w w' :
  untouched generation_event w w' -> read_only w w'.
Proof. apply untouched_weaken, generation_event_no_grad. Qed.

(** C3. Each of the two decoding calls of a generation trigger returns
    with the parameters, the optimiser state and the accumulated
    gradients exactly as they were, with the gradient mode restored, and
    every forward pass it made ran with gradients disabled; the same
    holds of the benchmarked calls and of the whole generation block,
    on every machine and however the block ends. *)
Theorem generation_read_only prompt w :
  (exists out w',
     call_base_decoding (prompt, GENERATE_LENGTH) w = (Ok out, w') /\
     read_only w w') /\
  (exists r w',
     call_speculative_decoding (prompt, GENERATE_LENGTH, GAMMA) w
     = (Ok r, w') /\
     read_only w w') /\
  read_only w
    (snd (benchmark call_base_decoding (prompt, GENERATE_LENGTH) w)) /\
  read_only w
    (snd (benchmark call_speculative_decoding
            (prompt, GENERATE_LENGTH, GAMMA) w)) /\
  read_only w (snd (generation_block w)).
Proof.
  split; [|split; [|split; [|split]]].
  - destruct (call_base_decoding_ok prompt GENERATE_LENGTH w)
      as (out & w' & E & _ & HR).
    exists out, w'. split; [exact E|now apply generation_event_read_only].
  - destruct (call_speculative_decoding_ok prompt GENERATE_LENGTH GAMMA w)
      as (out & avg & w' & E & _ & HR); [unfold GAMMA; lia|].
    exists (out, avg), w'.
    split; [exact E|now apply generation_event_read_only].
  - apply generation_event_read_only.
    apply (preserves_benchmark generation_event).
    apply preserves_call_base_decoding.
  - apply generation_event_read_only.
    apply (preserves_benchmark generation_event).
    apply preserves_call_speculative_decoding. unfold GAMMA. lia.
  - apply generation_event_read_only, preserves_generation_block.
Qed.

(** *** The two decoders, run step by step *)

Lemma forward_full_run out drafts w :
  (forward_full out drafts : T _) w
  = (Ok (fun k => decoder_logits (params w) FullDepth
                    (out ++ firstn k drafts)),
     log (CallForward FullDepth (grad_enabled w))
       (set_clock (Qred (clock w + forward_ms FullDepth)) w)).
Proof. reflexivity. Qed.

Lemma forward_early_run out w :
  (forward_early out : T _) w
  = (Ok (decoder_logits (params w) EarlyExit out),
     log (CallForward EarlyExit (grad_enabled w))
       (set_clock (Qred (clock w + forward_ms EarlyExit)) w)).
Proof. reflexivity. Qed.

Lemma sample_run p w :
  (sample p : T _) w
  = (Ok (sample_at p (uniform_at (entropy w) (rng_pos w))),
     set_rng_pos (S (rng_pos w)) w).
Proof. reflexivity. Qed.

Lemma uniform_le_run a w :
  (uniform_le a : T _) w
  = (Ok (Qle_bool (uniform_at (entropy w) (rng_pos w)) a),
     set_rng_pos (S (rng_pos w)) w).
Proof. reflexivity. Qed.

Lemma decoder_steps_refl w : decoder_steps w w [].
Proof. unfold decoder_steps. now rewrite app_nil_r. Qed.

Lemma decoder_steps_trans w1 w2 w3 n1 n2 :
  decoder_steps w1 w2 n1 -> decoder_steps w2 w3 n2 ->
  decoder_steps w1 w3 (n1 ++ n2).
Proof.
  intros (Ht1 & Hp1 & Hg1 & He1) (Ht2 & Hp2 & Hg2 & He2).
  unfold decoder_steps. rewrite Ht2, Ht1, app_assoc.
  repeat split; congruence.
Qed.

Lemma forward_calls_app h a b :
  forward_calls h (a ++ b) = (forward_calls h a + forward_calls h b)%nat.
Proof. unfold forward_calls. now rewrite filter_app, length_app. Qed.

Lemma forward_calls_repeat h h' g n :
  forward_calls h (repeat (CallForward h' g) n)
  = if is_forward h (CallForward h' g) then n else O.
Proof.
  induction n as [|n IH]; cbn [repeat].
  - now destruct (is_forward h (CallForward h' g)).
  - change (CallForward h' g :: repeat (CallForward h' g) n)
      with ([CallForward h' g] ++ repeat (CallForward h' g) n).
    rewrite forward_calls_app, IH. unfold forward_calls. cbn [filter].
    destruct (is_forward h (CallForward h' g)); reflexivity.
Qed.

(** The base loop: one full-depth pass and one draw per token, each
    token being what [sample] yields on that draw for the full-depth
    distribution after all the tokens before it. *)
Lemma base_loop_run n : forall out w,
  exists ext w',
    base_loop sampling_policy default_sampling n out w
    = (Ok (out ++ ext), w') /\
    length ext = n /\
    decoder_steps w w' (repeat (CallForward FullDepth (grad_enabled w)) n) /\
    rng_pos w' = (n + rng_pos w)%nat /\
    forall k t, nth_error ext k = Some t ->
      t = sample_at (full_probs (params w) (out ++ firstn k ext))
            (uniform_at (entropy w) (rng_pos w + k)).
Proof.
  induction n as [|n IH]; intros out w.
  - exists [], w. rewrite app_nil_r. split; [reflexivity|].
    split; [reflexivity|]. split; [apply decoder_steps_refl|].
    split; [reflexivity|]. intros [|k] t H; discriminate.
  - cbn [base_loop bind ret Monad_T].
    rewrite (T_bind_ok _ _ _ _ _ (forward_full_run out [] w)).
    cbv beta. cbn [firstn].
    match goal with
    | |- context [T_bind (sample ?p) _ ?w1] =>
        rewrite (T_bind_ok _ _ _ _ _ (sample_run p w1));
        set (t0 := sample_at p (uniform_at (entropy w1) (rng_pos w1)))
    end.
    match goal with
    | |- context [base_loop _ _ n _ ?w2] =>
        destruct (IH (out ++ [t0]) w2)
          as (ext & w' & E & Hlen & (Ht & Hp & Hg & He) & Hr & Htok)
    end.
    cbn [trace params grad_enabled entropy rng_pos log set_clock
         set_rng_pos] in Ht, Hp, Hg, He, Hr, Htok.
    exists (t0 :: ext), w'. split.
    { rewrite E. now rewrite <- app_assoc. }
    split; [cbn [length]; now f_equal|]. split.
    { unfold decoder_steps. rewrite Ht, <- app_assoc. cbn [repeat app].
      repeat split; assumption. }
    split; [lia|].
    intros [|k] t H; cbn [nth_error firstn] in *.
    + inversion H; subst t. unfold t0, full_probs.
      cbn [entropy rng_pos log set_clock]. now rewrite Nat.add_0_r.
    + rewrite (Htok k t H), <- app_assoc. cbn [app].
      now replace (S (rng_pos w) + k)%nat with (rng_pos w + S k)%nat by lia.
Qed.

(** The draft phase: one early-exit pass per draft. *)
Lemma draft_loop_run g : forall out w,
  exists drafts w',
    draft_loop sampling_policy default_sampling g out w = (Ok drafts, w') /\
    length drafts = g /\
    decoder_steps w w' (repeat (CallForward EarlyExit (grad_enabled w)) g).
Proof.
  induction g as [|g IH]; intros out w.
  - exists [], w. split; [reflexivity|]. split; [reflexivity|].
    apply decoder_steps_refl.
  - cbn [draft_loop bind ret Monad_T].
    rewrite (T_bind_ok _ _ _ _ _ (forward_early_run out w)).
    match goal with
    | |- context [T_bind (sample ?p) _ ?w1] =>
        rewrite (T_bind_ok _ _ _ _ _ (sample_run p w1));
        set (t0 := sample_at p (uniform_at (entropy w1) (rng_pos w1)))
    end.
    match goal with
    | |- context [T_bind (draft_loop _ _ g _) _ ?w2] =>
        destruct (IH (out ++ [t0]) w2)
          as (rest & w' & E & Hlen & (Ht & Hp & Hg & He))
    end.
    cbn [trace params grad_enabled entropy rng_pos log set_clock
         set_rng_pos] in Ht, Hp, Hg, He.
    rewrite (T_bind_ok _ _ _ _ _ E). eexists. exists w'.
    split; [reflexivity|]. split; [cbn [length]; now f_equal|].
    unfold decoder_steps. rewrite Ht, <- app_assoc. cbn [repeat app].
    repeat split; assumption.
Qed.

(** The verification phase makes no pass of its own: it accepts some of
    the drafts, in order, and emits one more token. *)
Lemma accept_loop_run drafts : forall p w,
  exists r w',
    (accept_loop NUM_TOKENS p drafts : T _) w = (Ok r, w') /\
    length (fst r) = S (snd r) /\ (snd r <= length drafts)%nat /\
    firstn (snd r) (fst r) = firstn (snd r) (map fst drafts) /\
    decoder_steps w w' [].
Proof.
  induction drafts as [|[t q] rest IH]; intros p w; cbn [accept_loop].
  - cbn [bind ret Monad_T].
    rewrite (T_bind_ok _ _ _ _ _ (sample_run (p O) w)).
    do 2 eexists. split; [reflexivity|]. cbn [fst snd length firstn].
    repeat split; try lia. unfold decoder_steps. cbn.
    now rewrite app_nil_r.
  - cbn [bind ret Monad_T].
    rewrite (T_bind_ok _ _ _ _ _ (uniform_le_run _ w)).
    destruct (Qle_bool (uniform_at (entropy w) (rng_pos w))
                (accept_ratio (p O t) (q t))).
    + destruct (IH (fun k => p (S k)) (set_rng_pos (S (rng_pos w)) w))
        as (r & w' & E & H1 & H2 & H3 & (Ht & Hp & Hg & He)).
      cbn [trace params grad_enabled entropy set_rng_pos] in Ht, Hp, Hg, He.
      rewrite (T_bind_ok _ _ _ _ _ E). do 2 eexists.
      split; [reflexivity|]. cbn [fst snd length map firstn].
      split; [lia|]. split; [lia|]. split; [now f_equal|].
      repeat split; assumption.
    + rewrite (T_bind_ok _ _ _ _ _ (sample_run _ _)).
      do 2 eexists. split; [reflexivity|]. cbn [fst snd length firstn].
      repeat split; try lia. unfold decoder_steps. cbn.
      now rewrite app_nil_r.
Qed.

(** One block: [g] early-exit passes, then one full-depth pass. *)
Lemma speculative_block_run g out w :
  exists r w',
    speculative_block sampling_policy NUM_TOKENS default_sampling g out w
    = (Ok r, w') /\
    length (fst r) = S (snd r) /\ (snd r <= g)%nat /\
    decoder_steps w w'
      (repeat (CallForward EarlyExit (grad_enabled w)) g
       ++ [CallForward FullDepth (grad_enabled w)]).
Proof.
  unfold speculative_block. cbn [bind ret Monad_T].
  destruct (draft_loop_run g out w) as (drafts & w1 & E1 & Hlen & Hs1).
  rewrite (T_bind_ok _ _ _ _ _ E1).
  rewrite (T_bind_ok _ _ _ _ _ (forward_full_run out (map fst drafts) w1)).
  match goal with
  | |- context [accept_loop _ ?p _ ?w2] =>
      destruct (accept_loop_run drafts p w2)
        as (r & w' & E & H1 & H2 & _ & Hs3)
  end.
  exists r, w'. split; [exact E|]. split; [exact H1|]. split; [lia|].
  rewrite <- (app_nil_r [CallForward FullDepth (grad_enabled w)]).
  eapply decoder_steps_trans; [exact Hs1|].
  eapply decoder_steps_trans; [|exact Hs3].
  destruct Hs1 as (_ & _ & Hg1 & _). rewrite <- Hg1.
  unfold decoder_steps. cbn. repeat split; reflexivity.
Qed.

(** The speculative loop: over [K] blocks, each with one full-depth
    pass, it accepts [A] of the [D] drafts it made, one early-exit pass
    each, emits [A + K] tokens, and returns the average [A / K]. *)
Lemma speculative_loop_run gamma N : forall fuel out acc blocks w,
  (N - length out <= fuel)%nat ->
  exists ext A K D new w',
    speculative_loop sampling_policy NUM_TOKENS default_sampling gamma N
      fuel out acc blocks w
    = (Ok (out ++ ext, average_accepted (acc + A) (blocks + K)), w') /\
    length ext = (A + K)%nat /\
    length (out ++ ext) = Nat.max N (length out) /\
    decoder_steps w w' new /\
    Forall (fun e => exists h, e = CallForward h (grad_enabled w)) new /\
    forward_calls FullDepth new = K /\
    forward_calls EarlyExit new = D /\
    length new = (K + D)%nat /\
    (A <= D <= gamma * K)%nat.
Proof.
  induction fuel as [|fuel IH]; intros out acc blocks w Hfuel;
    cbn [speculative_loop].
  - exists [], O, O, O, [], w. rewrite app_nil_r, !Nat.add_0_r.
    split; [reflexivity|]. cbn [length].
    repeat split; try lia; try constructor; apply decoder_steps_refl.
  - destruct (Nat.leb_spec N (length out)) as [Hle|Hlt].
    + exists [], O, O, O, [], w. rewrite app_nil_r, !Nat.add_0_r.
      split; [reflexivity|]. cbn [length].
      repeat split; try lia; try constructor; apply decoder_steps_refl.
    + cbn [bind ret Monad_T].
      set (g := Nat.min gamma (N - length out - 1)).
      destruct (speculative_block_run g out w)
        as (r & w1 & E1 & H1 & H2 & Hs1).
      rewrite (T_bind_ok _ _ _ _ _ E1).
      destruct (IH (out ++ fst r) (acc + snd r)%nat (S blocks) w1)
        as (ext & A & K & D & new & w' & E & Hlen & Hmax & Hs & Hall
            & HK & HD & Hnew & HA).
      { rewrite length_app. lia. }
      pose proof Hs1 as (_ & _ & Hg1 & _).
      exists (fst r ++ ext), (snd r + A)%nat, (S K), (g + D)%nat,
        ((repeat (CallForward EarlyExit (grad_enabled w)) g
          ++ [CallForward FullDepth (grad_enabled w)]) ++ new), w'.
      split.
      { rewrite E, app_assoc.
        replace (acc + snd r + A)%nat with (acc + (snd r + A))%nat by lia.
        replace (S blocks + K)%nat with (blocks + S K)%nat by lia.
        reflexivity. }
      rewrite app_assoc. rewrite !length_app in *.
      split; [lia|]. split; [lia|].
      split; [eapply decoder_steps_trans; eassumption|].
      split.
      { apply Forall_app. split.
        - apply Forall_app. split.
          + apply Forall_forall. intros e He.
            apply repeat_spec in He. subst e. now exists EarlyExit.
          + constructor; [now exists FullDepth|constructor].
        - rewrite <- Hg1. exact Hall. }
      rewrite !forward_calls_app, !forward_calls_repeat, HK, HD.
      rewrite repeat_length.
      unfold forward_calls. cbn [filter is_forward length].
      repeat split; try lia; try nia.
Qed.

(** The call of line 151, step by step. *)
Lemma call_base_decoding_run prompt n w :
  exists ext w',
    call_base_decoding (prompt, n) w = (Ok (prompt ++ ext), w') /\
    length ext = (n - length prompt)%nat /\
    trace w' = trace w ++ repeat (CallForward FullDepth false) (length ext) /\
    rng_pos w' = (length ext + rng_pos w)%nat /\
    forall k t, nth_error ext k = Some t ->
      t = sample_at (full_probs (params w) (prompt ++ firstn k ext))
            (uniform_at (entropy w) (rng_pos w + k)).
Proof.
  unfold call_base_decoding, base_decoding. cbn [fst snd no_grad
                                                 DecodeEffects_T].
  unfold with_no_grad.
  destruct (base_loop_run (n - length prompt) prompt
              (set_grad_enabled false w))
    as (ext & w' & E & Hlen & (Ht & _) & Hr & Htok).
  cbn [trace params grad_enabled entropy rng_pos set_grad_enabled]
    in Ht, Hr, Htok.
  rewrite E. exists ext. eexists. split; [reflexivity|].
  cbn [trace rng_pos set_grad_enabled]. rewrite Hlen.
  repeat split; assumption.
Qed.

(** The call of lines 155-157, step by step. *)
Lemma call_speculative_decoding_run prompt n gamma w :
  (0 < gamma)%nat ->
  exists ext A K D new w',
    call_speculative_decoding (prompt, n, gamma) w
    = (Ok (prompt ++ ext, average_accepted A K), w') /\
    length ext = (A + K)%nat /\
    length (prompt ++ ext) = Nat.max n (length prompt) /\
    trace w' = trace w ++ new /\
    Forall (fun e => exists h, e = CallForward h false) new /\
    forward_calls FullDepth new = K /\
    forward_calls EarlyExit new = D /\
    length new = (K + D)%nat /\
    (A <= D <= gamma * K)%nat.
Proof.
  intros Hgamma. unfold call_speculative_decoding,
    speculative_decoding_with_same_model.
  destruct (Nat.eqb_spec gamma 0) as [->|_]; [lia|].
  cbn [lift bind ret Monad_T no_grad DecodeEffects_T].
  rewrite (T_bind_ok (T_ret _) _ w _ w eq_refl).
  unfold with_no_grad.
  destruct (speculative_loop_run gamma n (n - length prompt) prompt O O
              (set_grad_enabled false w) (Nat.le_refl _))
    as (ext & A & K & D & new & w' & E & Hlen & Hmax & (Ht & _) & Hall
        & HK & HD & Hnew & HA).
  cbn [trace grad_enabled set_grad_enabled Nat.add] in E, Ht, Hall.
  rewrite E. exists ext, A, K, D, new. eexists. split; [reflexivity|].
  cbn [trace set_grad_enabled]. repeat split; try assumption; lia.
Qed.


(** A non-positive [gamma] is refused at call time. *)
Lemma speculative_decoding_zero_gamma prompt length w :
  call_speculative_decoding (prompt, length, O) w = (Err ConfigError, w).
Proof. reflexivity. Qed.

End GenerationFacts.


(* ===================================================================== *)
(** ** The cadence of validation and generation *)
(* ===================================================================== *)

Section CadenceFacts.

Context {B : Backend}.

Lemma runs_refl ok w : runs ok w w.
Proof. repeat split. exists []. now rewrite app_nil_r. Qed.

Lemma runs_trans ok w1 w2 w3 : runs ok w1 w2 -> runs ok w2 w3 -> runs ok w1 w3.
Proof.
  intros (Hl & Hv & n1 & Ht1 & Hn1) (Hl' & Hv' & n2 & Ht2 & Hn2).
  repeat split; try congruence.
  exists (n1 ++ n2). split.
  - now rewrite Ht2, Ht1, app_assoc.
  - apply Forall_app. now split.
Qed.

Lemma untouched_runs ok w w' : untouched ok w w' -> runs ok w w'.
Proof.
  intros (_ & _ & _ & _ & Hl & Hv & Hnew).
  split; [congruence|]. split; [congruence|exact Hnew].
Qed.

Lemma runs_weaken (ok ok' : event -> Prop) w w' :
  (forall e, ok e -> ok' e) -> runs ok w w' -> runs ok' w w'.
Proof.
  intros H (Hl & Hv & new & Ht & Hn). repeat split; try assumption.
  exists new. split; [exact Ht|]. eapply Forall_impl; [|exact Hn]. exact H.
Qed.

Lemma runs_bind {A C} ok (c : T A) (k : A -> T C) :
  preserves (runs ok) c -> (forall a, preserves (runs ok) (k a)) ->
  preserves (runs ok) (T_bind c k).
Proof.
  intros Hc Hk w. unfold T_bind. specialize (Hc w).
  destruct (c w) as [[a|e] w1]; cbn [snd] in *.
  - eapply runs_trans; [exact Hc|apply Hk].
  - exact Hc.
Qed.


Lemma runs_log ok e w : ok e -> runs ok w (log e w).
Proof.
  intros H. repeat split. exists [e]. split; [reflexivity|].
  now repeat constructor.
Qed.

Lemma preserves_getitems ok ds count : forall pos,
  preserves (untouched ok) (getitems ds pos count).
Proof.
  induction count as [|count IH]; intros pos; cbn [getitems bind ret Monad_T].
  - apply preserves_ret.
  - apply preserves_bind; [apply preserves_getitem|intros item].
    apply preserves_bind; [apply IH|intros rest]. apply preserves_ret.
Qed.

Lemma preserves_next_batch ok ld : preserves (untouched ok) (next_batch ld).
Proof.
  unfold next_batch. cbn [bind ret Monad_T].
  apply preserves_bind; [|intros _].
  { destruct (in_pass ld); [apply preserves_ret|].
    unfold new_iterator. cbn [bind ret Monad_T].
    apply preserves_bind; [apply preserves_next_word|intros _].
    apply preserves_ret. }
  apply preserves_bind; [apply preserves_dataset_len|intros n].
  destruct (n =? 0)%nat; [apply preserves_raise|].
  apply preserves_bind; [apply preserves_getitems|intros batch].
  apply preserves_ret.
Qed.

Lemma T_bind_inv {A C} (c : T A) (k : A -> T C) w b w' :
  T_bind c k w = (Ok b, w') ->
  exists a w1, c w = (Ok a, w1) /\ k a w1 = (Ok b, w').
Proof.
  unfold T_bind. destruct (c w) as [[a|e] w1]; intros H.
  - now exists a, w1.
  - discriminate.
Qed.

(** The loader handed back by [next_batch] is over the same dataset. *)
Lemma next_batch_dataset ld w r w' :
  next_batch ld w = (Ok r, w') -> ld_dataset (snd r) = ld_dataset ld.
Proof.
  unfold next_batch. cbn [bind ret Monad_T]. intros H.
  apply T_bind_inv in H. destruct H as ([] & w0 & _ & H).
  apply T_bind_inv in H. destruct H as (n & w1 & _ & H).
  destruct (n =? 0)%nat; [discriminate|].
  apply T_bind_inv in H. destruct H as (batch & w2 & _ & H).
  unfold T_ret in H. inversion H. reflexivity.
Qed.

Lemma runs_next_train_loader ok : preserves (runs ok) next_train_loader.
Proof.
  intros w. unfold next_train_loader. cbn [bind ret Monad_T].
  rewrite (T_bind_ok get_world _ w w w eq_refl).
  pose proof (preserves_next_batch ok (train_loader w) w) as Hu.
  pose proof (next_batch_dataset (train_loader w) w) as Hd.
  unfold T_bind. destruct (next_batch (train_loader w) w) as [[r|e] w1].
  - cbn [snd] in Hu. apply untouched_runs in Hu.
    destruct Hu as (Hl & Hv & Hnew). specialize (Hd r w1 eq_refl).
    cbn [snd T_ret modify]. unfold runs. cbn.
    split; [congruence|]. split; [congruence|exact Hnew].
  - apply untouched_runs, Hu.
Qed.


Lemma runs_model_loss (ok : event -> Prop) data :
  (forall g l s, ok (CallLoss g l s)) -> preserves (runs ok) (model_loss data).
Proof.
  intros H w. unfold model_loss. cbn [bind ret Monad_T].
  unfold T_bind, get_world, modify, T_ret.
  destruct (decoder_loss (params w) data) as [[l gl] [s gs]].
  cbn [snd]. apply runs_log, H.
Qed.

Lemma runs_backward (ok : event -> Prop) t :
  (forall v, ok (CallBackward v)) -> preserves (runs ok) (backward t).
Proof.
  intros H w. unfold backward. destruct (grad_fn t); [|apply runs_refl].
  unfold modify. cbn [snd]. repeat split.
  exists [CallBackward (value t)]. split; [reflexivity|].
  now repeat constructor.
Qed.

Lemma runs_print (ok : event -> Prop) line :
  ok (Printed line) -> preserves (runs ok) (print line).
Proof. intros H w. apply runs_log, H. Qed.


(** A training step neither validates nor generates. *)
Lemma runs_training_step (ok : event -> Prop) :
  (forall e, ~ validation_output e -> ~ generation_output e -> ok e) ->
  preserves (runs ok) training_step.
Proof.
  intros Hq.
  assert (Hacc : forall count last,
             preserves (runs ok) (accumulate count last)).
  { induction count as [|count IH]; intros last;
      cbn [accumulate bind ret Monad_T].
    - intros w. apply runs_refl.
    - apply runs_bind; [|intros losses; apply IH].
      unfold micro_batch. cbn [bind ret Monad_T].
      apply runs_bind; [apply runs_next_train_loader|intros data].
      apply runs_bind;
        [apply runs_model_loss; intros; apply Hq; cbn; tauto|intros losses].
      apply runs_bind;
        [apply runs_backward; intros; apply Hq; cbn; tauto|intros _].
      intros w. apply runs_refl. }
  unfold training_step. cbn [bind ret Monad_T].
  apply runs_bind; [intros w; repeat split; exists []; cbn;
                    now rewrite app_nil_r|intros _].
  apply runs_bind; [apply Hacc|intros losses].
  apply runs_bind; [apply runs_print, Hq; cbn; tauto|intros _].
  apply runs_bind; [apply runs_print, Hq; cbn; tauto|intros _].
  apply runs_bind.
  { intros w. unfold runs. cbn. do 2 (split; [reflexivity|]).
    exists [CallClipGradNorm MAX_GRAD_NORM]. split; [reflexivity|].
    repeat constructor. apply Hq; cbn; tauto. }
  intros _. apply runs_bind.
  - intros w. unfold optim_step, modify. cbn [snd].
    destruct (grads w) as [g|]; [|apply runs_log, Hq; cbn; tauto].
    destruct (adam_step (opt_state w) (params w) g) as [o p].
    unfold runs. cbn. do 2 (split; [reflexivity|]).
    exists [CallOptimStep]. split; [reflexivity|].
    repeat constructor. apply Hq; cbn; tauto.
  - intros _ w. unfold runs. cbn. do 2 (split; [reflexivity|]).
    exists [CallZeroGrad]. split; [reflexivity|].
    repeat constructor. apply Hq; cbn; tauto.
Qed.



(** *** What a completed block has printed *)












End CadenceFacts.



(* ===================================================================== *)
(** ** More on [decode_tokens] *)
(* ===================================================================== *)

Lemma Forall_firstn_skipn {A} (P : A -> Prop) n (l : list A) :
  Forall P l -> Forall P (firstn n l) /\ Forall P (skipn n l).
Proof.
  intros H. rewrite <- (firstn_skipn n l) in H. now apply Forall_app in H.
Qed.

Lemma decode_token_raises tok :
  (MAX_CODE_POINT < tok)%Z -> decode_token tok = Err (chr_error tok).
Proof.
  intros H. unfold decode_token, chr, chr_error.
  replace (Z.max 32 tok) with tok by (unfold MAX_CODE_POINT in H; lia).
  destruct (Z.ltb_spec tok INT_MIN) as [Hmin|_];
    [unfold INT_MIN, MAX_CODE_POINT in *; lia|].
  destruct (Z.ltb_spec INT_MAX tok) as [Hmax|Hmax];
    destruct (Z.leb_spec tok INT_MAX) as [Hle|Hle]; try lia;
    cbn [orb]; [reflexivity|].
  destruct (Z.leb_spec tok MAX_CODE_POINT) as [Hc|_]; [lia|].
  now rewrite andb_false_r.
Qed.

(** [decode_tokens] stops at the first token above the last code point,
    with the exception [chr] raises for it. *)
Lemma decode_tokens_first_error pre tok post :
  Forall (fun t => (t <= MAX_CODE_POINT)%Z) pre ->
  (MAX_CODE_POINT < tok)%Z ->
  decode_tokens (pre ++ tok :: post) = Err (chr_error tok).
Proof.
  intros Hpre Htok. induction Hpre as [|t rest Ht _ IH];
    cbn [app decode_tokens].
  - now rewrite (decode_token_raises tok Htok).
  - now rewrite (decode_token_ok t Ht), IH.
Qed.

(** A list either has all its tokens within the code points or a first
    token above them. *)
Lemma first_bad_token tokens :
  Forall (fun t => (t <= MAX_CODE_POINT)%Z) tokens \/
  exists pre tok post,
    tokens = pre ++ tok :: post /\
    Forall (fun t => (t <= MAX_CODE_POINT)%Z) pre /\
    (MAX_CODE_POINT < tok)%Z.
Proof.
  induction tokens as [|t rest IH].
  - left. constructor.
  - destruct (Z.le_gt_cases t MAX_CODE_POINT) as [Hle|Hgt].
    + destruct IH as [IH|(pre & tok & post & -> & Hpre & Htok)].
      * left. now constructor.
      * right. exists (t :: pre), tok, post.
        split; [reflexivity|]. split; [now constructor|exact Htok].
    + right. exists [], t, rest.
      split; [reflexivity|]. split; [constructor|lia].
Qed.

Lemma decode_tokens_outcome tokens s :
  decode_tokens tokens = Ok s ->
  Forall (fun tok => (tok <= MAX_CODE_POINT)%Z) tokens.
Proof.
  intros H. destruct (first_bad_token tokens)
    as [F|(pre & tok & post & -> & Hpre & Htok)]; [exact F|].
  rewrite (decode_tokens_first_error pre tok post Hpre Htok) in H.
  discriminate.
Qed.

(** X1. [decode_tokens] returns exactly when no token exceeds the last
    code point 0x10FFFF, and then each token below 32, negative ones
    included, has become a space and every other token is kept.
    Otherwise it raises at the first token above 0x10FFFF, whatever
    follows it: [ValueError] when that token fits a C [int],
    [OverflowError] from [2**31] on.  It raises nothing else. *)
Theorem decode_tokens_raises_iff tokens :
  (Forall (fun tok => (tok <= MAX_CODE_POINT)%Z) tokens <->
   decode_tokens tokens = Ok (map (Z.max 32) tokens)) /\
  (forall s, decode_tokens tokens = Ok s -> s = map (Z.max 32) tokens) /\
  (forall e,
     decode_tokens tokens = Err e <->
     exists pre tok post,
       tokens = pre ++ tok :: post /\
       Forall (fun t => (t <= MAX_CODE_POINT)%Z) pre /\
       (MAX_CODE_POINT < tok)%Z /\
       e = if (tok <=? INT_MAX)%Z then ValueError else OverflowError) /\
  (forall e, decode_tokens tokens = Err e ->
             e = ValueError \/ e = OverflowError).
Proof.
  assert (Herr : forall e,
             decode_tokens tokens = Err e <->
             exists pre tok post,
               tokens = pre ++ tok :: post /\
               Forall (fun t => (t <= MAX_CODE_POINT)%Z) pre /\
               (MAX_CODE_POINT < tok)%Z /\ e = chr_error tok).
  { intros e. split.
    - intros H. destruct (first_bad_token tokens)
        as [F|(pre & tok & post & E & Hpre & Htok)].
      + rewrite (decode_tokens_ok tokens F) in H. discriminate.
      + exists pre, tok, post. split; [exact E|]. split; [exact Hpre|].
        split; [exact Htok|]. subst tokens.
        rewrite (decode_tokens_first_error pre tok post Hpre Htok) in H.
        now inversion H.
    - intros (pre & tok & post & -> & Hpre & Htok & ->).
      now apply decode_tokens_first_error. }
  split; [|split; [|split]].
  - split; [apply decode_tokens_ok|]. apply decode_tokens_outcome.
  - intros s H. pose proof (decode_tokens_outcome tokens s H) as F.
    rewrite (decode_tokens_ok tokens F) in H. now inversion H.
  - unfold chr_error in Herr. exact Herr.
  - intros e H. apply Herr in H.
    destruct H as (pre & tok & post & _ & _ & _ & ->).
    unfold chr_error. destruct (tok <=? INT_MAX)%Z; auto.
Qed.

(** X2. Decoding goes through concatenation and through slicing: the text of
    [a ++ b] is the text of [a] followed by the text of [b], and the
    text of the first [n] tokens is the first [n] characters. *)
Theorem decode_tokens_app a b sa sb :
  decode_tokens a = Ok sa ->
  decode_tokens b = Ok sb ->
  decode_tokens (a ++ b) = Ok (sa ++ sb) /\
  forall n, decode_tokens (firstn n a) = Ok (firstn n sa).
Proof.
  intros Ha Hb.
  assert (Fa : Forall (fun tok => (tok <= MAX_CODE_POINT)%Z) a)
    by (apply (decode_tokens_outcome a sa); exact Ha).
  assert (Fb : Forall (fun tok => (tok <= MAX_CODE_POINT)%Z) b)
    by (apply (decode_tokens_outcome b sb); exact Hb).
  rewrite (decode_tokens_ok a Fa) in Ha.
  rewrite (decode_tokens_ok b Fb) in Hb.
  inversion Ha; inversion Hb; subst. split.
  - rewrite decode_tokens_ok by (apply Forall_app; now split).
    now rewrite map_app.
  - intros n. rewrite decode_tokens_ok by now apply Forall_firstn_skipn.
    now rewrite firstn_map.
Qed.

Lemma decode_tokens_app_witness :
  decode_tokens [72; 105]%Z = Ok [72; 105]%Z /\
  decode_tokens [10; 33]%Z = Ok [32; 33]%Z /\
  decode_tokens ([72; 105] ++ [10; 33])%Z = Ok ([72; 105] ++ [32; 33])%Z.
Proof.
  split; [reflexivity|]. split; [reflexivity|].
  exact (proj1 (decode_tokens_app [72; 105]%Z [10; 33]%Z
                  [72; 105]%Z [32; 33]%Z eq_refl eq_refl)).
Defined.

(** X3. Decoded text is a fixed point: its code points decode to themselves,
    so decoding twice is decoding once. *)
Theorem decode_tokens_idempotent tokens s :
  decode_tokens tokens = Ok s -> decode_tokens s = Ok s.
Proof.
  intros H.
  assert (F : Forall (fun tok => (tok <= MAX_CODE_POINT)%Z) tokens)
    by (apply (decode_tokens_outcome tokens s); exact H).
  rewrite (decode_tokens_ok tokens F) in H. inversion H; subst. clear H.
  rewrite decode_tokens_ok.
  - f_equal. rewrite map_map. apply map_ext. intros tok. lia.
  - apply Forall_forall. intros c Hc. apply in_map_iff in Hc.
    destruct Hc as [tok [<- Hin]].
    rewrite Forall_forall in F. specialize (F tok Hin).
    unfold MAX_CODE_POINT in *. lia.
Qed.

Lemma decode_tokens_idempotent_witness :
  decode_tokens [7; 200; -3]%Z = Ok [32; 200; 32]%Z /\
  decode_tokens [32; 200; 32]%Z = Ok [32; 200; 32]%Z.
Proof.
  split; [reflexivity|].
  exact (decode_tokens_idempotent [7; 200; -3]%Z [32; 200; 32]%Z eq_refl).
Defined.

(* ===================================================================== *)
(** ** More on the dataset sampler and the loaders *)
(* ===================================================================== *)

Section SamplerFacts.

Context {B : Backend}.

Lemma getitem_run ds index w :
  (ds_seq_len ds < length (ds_data ds))%nat ->
  exists start,
    (start + ds_seq_len ds + 1 <= length (ds_data ds))%nat /\
    getitem ds index w
    = (Ok (firstn (ds_seq_len ds + 1) (skipn start (ds_data ds))),
       set_rng_pos (S (rng_pos w)) w).
Proof.
  intros H. unfold getitem.
  destruct (randint_ok 0 (Z.of_nat (length (ds_data ds))
                          - Z.of_nat (ds_seq_len ds)) w) as [r [Hr Hin]];
    [lia|].
  cbn [bind ret Monad_T]. rewrite (T_bind_ok _ _ _ _ _ Hr). unfold T_ret.
  exists (Z.to_nat r). split; [lia|]. unfold slice.
  replace (Z.to_nat r + ds_seq_len ds + 1 - Z.to_nat r)%nat
    with (ds_seq_len ds + 1)%nat by lia.
  reflexivity.
Qed.

(** X4. Whenever the data is longer than the window, [__getitem__] returns a
    contiguous window of the data, [seq_len + 1] tokens starting at some
    position that leaves the window inside the data: every token it
    returns is a token of the data, in the data's order.  It draws
    exactly one random number. *)
Theorem getitem_window ds index w :
  (ds_seq_len ds < length (ds_data ds))%nat ->
  exists start item w',
    getitem ds index w = (Ok item, w') /\
    (start + ds_seq_len ds + 1 <= length (ds_data ds))%nat /\
    item = firstn (ds_seq_len ds + 1) (skipn start (ds_data ds)) /\
    (forall k, (k <= ds_seq_len ds)%nat ->
               nth_error item k = nth_error (ds_data ds) (start + k)) /\
    rng_pos w' = S (rng_pos w).
Proof.
  intros H. destruct (getitem_run ds index w H) as [start [Hb E]].
  exists start. do 2 eexists. split; [exact E|]. split; [exact Hb|].
  split; [reflexivity|]. split; [|reflexivity].
  intros k Hk. rewrite nth_error_firstn.
  destruct (Nat.ltb_spec k (ds_seq_len ds + 1)); [|lia].
  apply nth_error_skipn.
Qed.

Lemma getitem_empty_range ds index w :
  (length (ds_data ds) <= ds_seq_len ds)%nat ->
  getitem ds index w = (Err RuntimeError, w).
Proof.
  intros H. unfold getitem. cbn [bind ret Monad_T].
  apply T_bind_err. apply randint_empty. lia.
Qed.

(** X5. [__getitem__] returns an item exactly when the data is longer than
    the window, whatever the index.  Otherwise the range of the random
    start is empty and it raises before any random number is drawn, so
    the state is as it was. *)
Theorem getitem_returns_iff ds index w :
  ((exists item w', getitem ds index w = (Ok item, w'))
   <-> (ds_seq_len ds < length (ds_data ds))%nat) /\
  (getitem ds index w = (Err RuntimeError, w)
   <-> (length (ds_data ds) <= ds_seq_len ds)%nat).
Proof.
  destruct (Nat.ltb_spec (ds_seq_len ds) (length (ds_data ds))) as [H|H].
  - destruct (getitem_run ds index w H) as [start [_ E]].
    split; split; intros H'; try lia.
    + eauto.
    + rewrite E in H'. discriminate.
  - pose proof (getitem_empty_range ds index w H) as E.
    split; split; intros H'; try lia; try exact E.
    destruct H' as (item & w' & H'). rewrite E in H'. discriminate.
Qed.

Lemma dataset_len_run ds w :
  (0 < ds_seq_len ds)%nat ->
  dataset_len ds w = (Ok (length (ds_data ds) / ds_seq_len ds)%nat, w).
Proof.
  intros H. unfold dataset_len.
  destruct (Nat.eqb_spec (ds_seq_len ds) 0); [lia|]. reflexivity.
Qed.

(** X6. [random.choice(dataset)] at the edges.  A window of zero divides by
    zero in [__len__]; data shorter than the window make the dataset
    empty, and the choice raises [IndexError]; data exactly as long as
    the window make a dataset of length one whose only item cannot be
    produced, so the choice raises [RuntimeError] after drawing the
    index; longer data always yield a window. *)
Theorem random_choice_cases ds w :
  (ds_seq_len ds = 0%nat ->
   random_choice ds w = (Err ZeroDivisionError, w)) /\
  ((0 < ds_seq_len ds)%nat ->
   (length (ds_data ds) < ds_seq_len ds)%nat ->
   random_choice ds w = (Err IndexError, w)) /\
  ((0 < ds_seq_len ds)%nat ->
   length (ds_data ds) = ds_seq_len ds ->
   random_choice ds w
   = (Err RuntimeError, set_rng_pos (S (rng_pos w)) w)) /\
  ((0 < ds_seq_len ds)%nat ->
   (ds_seq_len ds < length (ds_data ds))%nat ->
   exists start,
     (start + ds_seq_len ds + 1 <= length (ds_data ds))%nat /\
     random_choice ds w
     = (Ok (firstn (ds_seq_len ds + 1) (skipn start (ds_data ds))),
        set_rng_pos (S (S (rng_pos w))) w)).
Proof.
  split; [|split; [|split]].
  - intros H. unfold random_choice, dataset_len. rewrite H. reflexivity.
  - intros H0 H. unfold random_choice. cbn [bind ret Monad_T].
    rewrite (T_bind_ok _ _ _ _ _ (dataset_len_run ds w H0)).
    rewrite Nat.div_small by exact H. reflexivity.
  - intros H0 H. unfold random_choice. cbn [bind ret Monad_T].
    rewrite (T_bind_ok _ _ _ _ _ (dataset_len_run ds w H0)).
    rewrite H, Nat.div_same by lia. cbn [Nat.eqb].
    rewrite (T_bind_ok next_word _ w _ _ eq_refl).
    apply getitem_empty_range. cbn. lia.
  - intros H0 H. unfold random_choice. cbn [bind ret Monad_T].
    rewrite (T_bind_ok _ _ _ _ _ (dataset_len_run ds w H0)).
    destruct (Nat.eqb_spec (length (ds_data ds) / ds_seq_len ds) 0)
      as [E|_].
    { apply Nat.div_small_iff in E; lia. }
    rewrite (T_bind_ok next_word _ w _ _ eq_refl).
    destruct (getitem_run ds
                (N.to_nat (entropy w (rng_pos w))
                 mod (length (ds_data ds) / ds_seq_len ds))
                (set_rng_pos (S (rng_pos w)) w) H) as [start [Hb E]].
    exists start. split; [exact Hb|]. rewrite E. reflexivity.
Qed.

Lemma in_pass_spec ld :
  in_pass ld = true <->
  (0 < ld_pos ld
   < length (ds_data (ld_dataset ld)) / ds_seq_len (ld_dataset ld))%nat.
Proof.
  unfold in_pass. rewrite andb_true_iff, !Nat.ltb_lt. tauto.
Qed.

Lemma in_pass_false ld :
  (length (ds_data (ld_dataset ld)) / ds_seq_len (ld_dataset ld) <= 1)%nat ->
  in_pass ld = false.
Proof.
  intros H. destruct (in_pass ld) eqn:E; [|reflexivity].
  apply in_pass_spec in E. lia.
Qed.

(** X7. Over a usable dataset of [n] items, [next(loader)] hands out
    [min(BATCH_SIZE, n - pos)] sequences: at least one, at most four,
    fewer than four only at the end of a pass.  It moves the loader past
    the batch; a loader that has reached the end starts the next pass at
    the first item.  It draws one random number per sequence, and one
    more, the base seed of the new iterator, when the batch is the
    first of a pass. *)
Theorem next_batch_size ld w :
  dataset_ok (ld_dataset ld) ->
  exists batch ld' w',
    next_batch ld w = (Ok (batch, ld'), w') /\
    (1 <= length batch <= BATCH_SIZE)%nat /\
    ld_dataset ld' = ld_dataset ld /\
    let n := (length (ds_data (ld_dataset ld))
              / ds_seq_len (ld_dataset ld))%nat in
    ((ld_pos ld < n)%nat ->
     length batch = Nat.min BATCH_SIZE (n - ld_pos ld) /\
     ld_pos ld' = (ld_pos ld + length batch)%nat /\
     (ld_pos ld' <= n)%nat) /\
    ((n <= ld_pos ld)%nat ->
     length batch = Nat.min BATCH_SIZE n /\ ld_pos ld' = length batch) /\
    ((0 < ld_pos ld < n)%nat ->
     rng_pos w' = (length batch + rng_pos w)%nat) /\
    ((ld_pos ld = 0 \/ n <= ld_pos ld)%nat ->
     rng_pos w' = (length batch + 1 + rng_pos w)%nat).
Proof.
  intros H. destruct (next_batch_exact ld w H) as [batch [E [Hlen [Hpos _]]]].
  cbv zeta in *. pose proof (in_pass_spec ld) as Hin.
  set (n := (length (ds_data (ld_dataset ld))
             / ds_seq_len (ld_dataset ld))%nat) in *.
  do 3 eexists. split; [exact E|]. cbn [ld_dataset ld_pos rng_pos set_rng_pos].
  split; [unfold BATCH_SIZE in *; lia|]. split; [reflexivity|].
  split; [|split; [|split]].
  - destruct (Nat.ltb_spec (ld_pos ld) n); intros Hc; lia.
  - destruct (Nat.ltb_spec (ld_pos ld) n); intros Hc; lia.
  - intros Hc. apply Hin in Hc. rewrite Hc. lia.
  - intros Hc. destruct (in_pass ld); [|lia].
    assert (0 < ld_pos ld < n)%nat by now apply Hin. lia.
Qed.

Lemma next_batch_hangs ld w :
  (0 < ds_seq_len (ld_dataset ld))%nat ->
  (length (ds_data (ld_dataset ld)) < ds_seq_len (ld_dataset ld))%nat ->
  next_batch ld w = (Err Hang, set_rng_pos (S (rng_pos w)) w).
Proof.
  intros H0 H. unfold next_batch. cbn [bind ret Monad_T].
  rewrite start_of_pass, in_pass_false by (rewrite Nat.div_small; lia).
  cbv beta.
  rewrite (T_bind_ok _ _ _ _ _ (dataset_len_run (ld_dataset ld) _ H0)).
  rewrite Nat.div_small by exact H. reflexivity.
Qed.

Lemma next_batch_raises ld w :
  (0 < ds_seq_len (ld_dataset ld))%nat ->
  length (ds_data (ld_dataset ld)) = ds_seq_len (ld_dataset ld) ->
  next_batch ld w = (Err RuntimeError, set_rng_pos (S (rng_pos w)) w).
Proof.
  intros H0 H. unfold next_batch. cbn [bind ret Monad_T].
  rewrite start_of_pass, in_pass_false
    by (rewrite H, Nat.div_same; lia).
  cbv beta.
  rewrite (T_bind_ok _ _ _ _ _ (dataset_len_run (ld_dataset ld) _ H0)).
  rewrite H, Nat.div_same by lia. cbn [Nat.eqb].
  replace (Nat.min BATCH_SIZE (1 - (if (ld_pos ld <? 1)%nat
                                    then ld_pos ld else 0%nat)))
    with 1%nat
    by (unfold BATCH_SIZE; destruct (Nat.ltb_spec (ld_pos ld) 1); lia).
  cbn [getitems bind ret Monad_T].
  apply T_bind_err, T_bind_err. apply getitem_empty_range. lia.
Qed.

(** X8. [next(loader)] at the edges (lines 39-42 and 95-107).  A window of
    zero divides by zero in [__len__]; data shorter than the window make
    a loader that yields nothing, over which [cycle] spins without ever
    yielding; data exactly as long as the window make one item that
    cannot be produced, and the first batch raises; longer data always
    yield a batch, which is never empty.  In each of the three failing
    cases the new iterator has drawn its base seed before. *)
Theorem next_batch_cases ld w :
  let ds := ld_dataset ld in
  (ds_seq_len ds = 0%nat ->
   next_batch ld w
   = (Err ZeroDivisionError, set_rng_pos (S (rng_pos w)) w)) /\
  ((0 < ds_seq_len ds)%nat -> (length (ds_data ds) < ds_seq_len ds)%nat ->
   next_batch ld w = (Err Hang, set_rng_pos (S (rng_pos w)) w)) /\
  ((0 < ds_seq_len ds)%nat -> length (ds_data ds) = ds_seq_len ds ->
   next_batch ld w = (Err RuntimeError, set_rng_pos (S (rng_pos w)) w)) /\
  ((0 < ds_seq_len ds)%nat -> (ds_seq_len ds < length (ds_data ds))%nat ->
   exists batch ld' w',
     next_batch ld w = (Ok (batch, ld'), w') /\ batch <> []).
Proof.
  cbv zeta. split; [|split; [|split]].
  - intros H. unfold next_batch. cbn [bind ret Monad_T].
    rewrite start_of_pass, in_pass_false by (rewrite H; cbn; lia).
    cbv beta. unfold dataset_len. rewrite H. reflexivity.
  - apply next_batch_hangs.
  - apply next_batch_raises.
  - intros H0 H.
    destruct (next_batch_exact ld w (conj H0 H))
      as [batch [E [Hlen [Hpos _]]]].
    cbv zeta in *. do 3 eexists. split; [exact E|].
    intros ->. cbn [length] in Hlen. unfold BATCH_SIZE in Hlen. lia.
Qed.

End SamplerFacts.

Lemma getitem_window_witness :
  (ds_seq_len toy_dataset < length (ds_data toy_dataset))%nat /\
  exists start item w',
    getitem toy_dataset 3 (toy_world true) = (Ok item, w') /\
    nth_error item 0 = nth_error (ds_data toy_dataset) start.
Proof.
  assert (H : (ds_seq_len toy_dataset < length (ds_data toy_dataset))%nat)
    by (vm_compute; lia).
  split; [exact H|].
  destruct (getitem_window toy_dataset 3 (toy_world true) H)
    as (start & item & w' & E & _ & _ & Hnth & _).
  exists start, item, w'. split; [exact E|].
  rewrite (Hnth O) by lia. now rewrite Nat.add_0_r.
Defined.

Lemma toy_dataset_ok : dataset_ok toy_dataset.
Proof. unfold dataset_ok. vm_compute. lia. Qed.

Lemma next_batch_size_witness :
  dataset_ok toy_dataset /\
  exists batch ld' w',
    next_batch {| ld_dataset := toy_dataset; ld_pos := 0 |} (toy_world true)
    = (Ok (batch, ld'), w') /\
    (1 <= length batch <= BATCH_SIZE)%nat.
Proof.
  split; [exact toy_dataset_ok|].
  destruct (next_batch_size {| ld_dataset := toy_dataset; ld_pos := 0 |}
              (toy_world true) toy_dataset_ok)
    as (batch & ld' & w' & E & Hlen & _).
  exists batch, ld', w'. split; [exact E|exact Hlen].
Defined.

Section LoaderPass.

Context {B : Backend}.

Lemma next_batches_from ds (Hds : dataset_ok ds) :
  let n := (length (ds_data ds) / ds_seq_len ds)%nat in
  forall r pos w,
    (pos + r = n)%nat ->
    exists k batches w',
      next_batches k {| ld_dataset := ds; ld_pos := pos |} w
      = (Ok (batches, {| ld_dataset := ds; ld_pos := n |}), w') /\
      length (concat batches) = r /\
      Forall (fun b => (1 <= length b <= BATCH_SIZE)%nat) batches /\
      (r <= BATCH_SIZE * k < r + BATCH_SIZE)%nat /\
      rng_pos w'
      = (r + (if ((pos =? 0) && (0 <? r))%nat then 1 else 0)
         + rng_pos w)%nat.
Proof.
  intros n r. induction r as [r IH] using (well_founded_induction lt_wf).
  intros pos w Hr. destruct r as [|r].
  - exists O, [], w. replace pos with n by lia.
    rewrite andb_false_r.
    repeat split; try constructor; unfold BATCH_SIZE; lia.
  - destruct (next_batch_exact {| ld_dataset := ds; ld_pos := pos |} w Hds)
      as [batch [E [Hlen [Hpos _]]]].
    pose proof (in_pass_spec {| ld_dataset := ds; ld_pos := pos |}) as Hin.
    cbn [ld_dataset ld_pos] in E, Hlen, Hpos, Hin.
    fold n in E, Hlen, Hpos, Hin.
    destruct (Nat.ltb_spec pos n) as [_|Hge]; [|lia].
    assert (Hb : (1 <= length batch <= BATCH_SIZE)%nat)
      by (unfold BATCH_SIZE in *; lia).
    assert (Hle : (length batch <= S r)%nat) by lia.
    match type of E with
    | _ = (_, ?w1) =>
        destruct (IH (S r - length batch)%nat ltac:(lia)
                    (pos + length batch)%nat w1 ltac:(lia))
          as (k & batches & w' & Ek & Hcat & Hall & Hk & Hrng)
    end.
    exists (S k), (batch :: batches), w'.
    split; [|split; [|split; [|split]]].
    + cbn [next_batches bind ret Monad_T].
      rewrite (T_bind_ok _ _ _ _ _ E). cbn [snd fst].
      rewrite (T_bind_ok _ _ _ _ _ Ek). reflexivity.
    + cbn [concat]. rewrite length_app, Hcat. lia.
    + constructor; assumption.
    + unfold BATCH_SIZE in *. lia.
    + rewrite Hrng. cbn [rng_pos set_rng_pos].
      destruct (Nat.eqb_spec (pos + length batch) 0) as [E0|_]; [lia|].
      cbn [andb].
      destruct (Nat.eqb_spec pos 0) as [E0|E0];
        destruct (in_pass {| ld_dataset := ds; ld_pos := pos |}) eqn:Ep;
        cbn [andb Nat.ltb Nat.leb]; lia.
Qed.

(** X9. One pass over a loader.  Starting at the first item of a usable
    dataset of [n] items, some number [k] of successive batches brings
    the loader to the end of the dataset, and then: the batches hold
    exactly [n] sequences together, each batch between one and four,
    [k] is [n / 4] rounded up, [n + 1] random numbers were drawn, one
    per sequence and the base seed of the pass, and the following call
    starts the next pass exactly as a fresh loader would. *)
Theorem loader_pass ds w :
  dataset_ok ds ->
  let n := (length (ds_data ds) / ds_seq_len ds)%nat in
  exists k batches w',
    next_batches k {| ld_dataset := ds; ld_pos := 0 |} w
    = (Ok (batches, {| ld_dataset := ds; ld_pos := n |}), w') /\
    length (concat batches) = n /\
    Forall (fun b => (1 <= length b <= BATCH_SIZE)%nat) batches /\
    length batches = k /\
    (n <= BATCH_SIZE * k < n + BATCH_SIZE)%nat /\
    rng_pos w' = (n + 1 + rng_pos w)%nat /\
    next_batch {| ld_dataset := ds; ld_pos := n |} w'
    = next_batch {| ld_dataset := ds; ld_pos := 0 |} w'.
Proof.
  intros Hds n.
  destruct (next_batches_from ds Hds n O w eq_refl)
    as (k & batches & w' & Ek & Hcat & Hall & Hk & Hrng).
  assert (Hn : (0 < n)%nat).
  { unfold n. apply Nat.div_str_pos. destruct Hds. lia. }
  exists k, batches, w'.
  split; [exact Ek|]. split; [exact Hcat|]. split; [exact Hall|].
  split; [|split; [exact Hk|split]].
  - clear - Ek. revert w batches Ek.
    generalize ({| ld_dataset := ds; ld_pos := 0 |}).
    induction k as [|k IH]; intros ld w batches Ek.
    + cbn in Ek. now inversion Ek.
    + cbn [next_batches bind ret Monad_T] in Ek.
      destruct (T_bind_inv _ _ _ _ _ Ek) as (r & w1 & E1 & Ek1).
      destruct (T_bind_inv _ _ _ _ _ Ek1) as (rs & w2 & E2 & Ek2).
      inversion Ek2; subst. cbn [length]. f_equal.
      apply (IH (snd r) w1). rewrite E2, <- H1. now destruct rs.
  - rewrite Hrng. cbn [Nat.eqb andb].
    destruct (Nat.ltb_spec 0 n); lia.
  - unfold next_batch. cbn [bind ret Monad_T]. rewrite !start_of_pass.
    unfold in_pass. cbn [ld_dataset ld_pos]. fold n.
    rewrite Nat.ltb_irrefl, andb_false_r.
    change (0 <? 0)%nat with false. cbn [andb]. cbv beta.
    rewrite !(T_bind_ok _ _ _ _ _ (dataset_len_run ds _ (proj1 Hds))).
    fold n. rewrite Nat.ltb_irrefl.
    destruct (Nat.ltb_spec 0 n); reflexivity.
Qed.

End LoaderPass.

Lemma loader_pass_witness :
  dataset_ok toy_dataset /\
  exists k batches w',
    next_batches k {| ld_dataset := toy_dataset; ld_pos := 0 |}
                 (toy_world true)
    = (Ok (batches,
           {| ld_dataset := toy_dataset;
              ld_pos := (length (ds_data toy_dataset)
                         / ds_seq_len toy_dataset)%nat |}), w') /\
    length (concat batches)
    = (length (ds_data toy_dataset) / ds_seq_len toy_dataset)%nat.
Proof.
  split; [exact toy_dataset_ok|].
  destruct (loader_pass toy_dataset (toy_world true) toy_dataset_ok)
    as (k & batches & w' & E & Hcat & _).
  exists k, batches, w'. split; [exact E|exact Hcat].
Defined.

(* ===================================================================== *)
(** ** The data split (lines 83-86, 104-105) *)
(* ===================================================================== *)

Lemma READ_BYTES_Z : Z.of_nat READ_BYTES = 95000000%Z.
Proof. unfold READ_BYTES. apply Z2Nat.id. lia. Qed.

Lemma TRAIN_BYTES_Z : Z.of_nat TRAIN_BYTES = 90000000%Z.
Proof. unfold TRAIN_BYTES. apply Z2Nat.id. lia. Qed.

Lemma read_data_length file :
  Z.of_nat (length (read_data file))
  = Z.min 95000000 (Z.of_nat (length file)).
Proof.
  unfold read_data. rewrite length_map, length_firstn.
  pose proof READ_BYTES_Z. lia.
Qed.

Lemma data_train_length file :
  Z.of_nat (length (data_train file))
  = Z.min 90000000 (Z.of_nat (length file)).
Proof.
  unfold data_train, np_split. cbn [fst]. rewrite length_firstn.
  pose proof (read_data_length file). pose proof TRAIN_BYTES_Z. lia.
Qed.

Lemma data_val_length file :
  Z.of_nat (length (data_val file))
  = Z.max 0 (Z.min 95000000 (Z.of_nat (length file)) - 90000000).
Proof.
  unfold data_val, np_split. cbn [snd]. rewrite length_skipn.
  pose proof (read_data_length file). pose proof TRAIN_BYTES_Z. lia.
Qed.

(** X10. The split loses nothing and invents nothing: training data followed
    by validation data is the prefix of the file that was read, the
    training part holds the first 90e6 bytes (all of a shorter file),
    the validation part what remains of the first 95e6, and every token
    of either part is below the model's vocabulary size of 256. *)
Theorem data_split file :
  data_train file ++ data_val file = read_data file /\
  Z.of_nat (length (data_train file))
  = Z.min 90000000 (Z.of_nat (length file)) /\
  Z.of_nat (length (data_val file))
  = Z.max 0 (Z.min 95000000 (Z.of_nat (length file)) - 90000000) /\
  Forall (fun t => (t < NUM_TOKENS)%nat) (data_train file) /\
  Forall (fun t => (t < NUM_TOKENS)%nat) (data_val file).
Proof.
  split; [apply firstn_skipn|].
  split; [apply data_train_length|].
  split; [apply data_val_length|].
  assert (H : Forall (fun t => (t < NUM_TOKENS)%nat) (read_data file)).
  { unfold read_data. apply Forall_forall. intros t Ht.
    apply in_map_iff in Ht. destruct Ht as [b [<- _]].
    pose proof (Byte.to_nat_bounded b). unfold NUM_TOKENS. lia. }
  apply Forall_firstn_skipn. exact H.
Qed.

(** X11. With at least 95e6 bytes in the file (enwik8 has 1e8) the two
    datasets are the ones the script is written for: 90e6 and 5e6
    tokens, both longer than the window, 175781 and 9765 items. *)
Theorem full_file_datasets file :
  (95000000 <= Z.of_nat (length file))%Z ->
  Z.of_nat (length (data_train file)) = 90000000%Z /\
  Z.of_nat (length (data_val file)) = 5000000%Z /\
  dataset_ok (train_dataset file) /\
  dataset_ok (val_dataset file) /\
  Z.of_nat (length (ds_data (train_dataset file))
            / ds_seq_len (train_dataset file)) = 175781%Z /\
  Z.of_nat (length (ds_data (val_dataset file))
            / ds_seq_len (val_dataset file)) = 9765%Z.
Proof.
  intros H.
  pose proof (data_train_length file) as Ht.
  pose proof (data_val_length file) as Hv.
  unfold dataset_ok, train_dataset, val_dataset, SEQ_LEN.
  cbn [ds_data ds_seq_len].
  repeat split; try lia.
  - rewrite Nat2Z.inj_div, Ht, Z.min_l by lia. reflexivity.
  - rewrite Nat2Z.inj_div, Hv.
    replace (Z.min 95000000 (Z.of_nat (length file))) with 95000000%Z by lia.
    reflexivity.
Qed.

Lemma full_file_datasets_witness :
  (95000000 <= Z.of_nat (length (repeat Byte.x41 READ_BYTES)))%Z /\
  dataset_ok (train_dataset (repeat Byte.x41 READ_BYTES)) /\
  dataset_ok (val_dataset (repeat Byte.x41 READ_BYTES)).
Proof.
  assert (H : (95000000
               <= Z.of_nat (length (repeat Byte.x41 READ_BYTES)))%Z).
  { rewrite repeat_length, READ_BYTES_Z. lia. }
  split; [exact H|].
  destruct (full_file_datasets (repeat Byte.x41 READ_BYTES) H)
    as (_ & _ & Ht & Hv & _).
  split; [exact Ht|exact Hv].
Defined.

(** X12. A file of at most 90e6 + 512 bytes leaves the validation data no
    longer than one window.  The validation dataset then produces no
    item at all, [__getitem__] raises for every index; with fewer bytes
    than that the validation loader yields nothing and [next] on it
    never returns, with exactly that many its first batch raises; in
    both cases after the new iterator has drawn its base seed. *)
Theorem short_file_no_validation {B : Backend} file index pos (w : World) :
  (Z.of_nat (length file) <= 90000512)%Z ->
  getitem (val_dataset file) index w = (Err RuntimeError, w) /\
  ((Z.of_nat (length file) < 90000512)%Z ->
   next_batch {| ld_dataset := val_dataset file; ld_pos := pos |} w
   = (Err Hang, set_rng_pos (S (rng_pos w)) w)) /\
  (Z.of_nat (length file) = 90000512%Z ->
   next_batch {| ld_dataset := val_dataset file; ld_pos := pos |} w
   = (Err RuntimeError, set_rng_pos (S (rng_pos w)) w)).
Proof.
  intros H. pose proof (data_val_length file) as Hv.
  split; [|split].
  - apply getitem_empty_range.
    unfold val_dataset, SEQ_LEN. cbn [ds_data ds_seq_len]. lia.
  - intros Hlt. apply next_batch_hangs;
      unfold val_dataset, SEQ_LEN; cbn [ld_dataset ds_data ds_seq_len]; lia.
  - intros Heq. apply next_batch_raises;
      unfold val_dataset, SEQ_LEN; cbn [ld_dataset ds_data ds_seq_len]; lia.
Qed.

Lemma short_file_no_validation_witness :
  (Z.of_nat (length (@nil Byte.byte)) <= 90000512)%Z /\
  getitem (val_dataset []) 0 (toy_world true)
  = (Err RuntimeError, toy_world true) /\
  next_batch {| ld_dataset := val_dataset []; ld_pos := 0 |} (toy_world true)
  = (Err Hang, set_rng_pos 1 (toy_world true)).
Proof.
  assert (H : (Z.of_nat (length (@nil Byte.byte)) <= 90000512)%Z)
    by (cbn; lia).
  split; [exact H|].
  destruct (short_file_no_validation (B := toy_backend true) [] 0%nat 0%nat
              (toy_world true) H) as (Hg & Hh & _).
  split; [exact Hg|]. apply Hh. cbn. lia.
Defined.

(* ===================================================================== *)
(** ** The validation block (lines 133-140) *)
(* ===================================================================== *)

Section ValidationFacts.

Context {B : Backend}.

(** The state a validation leaves, written out. *)
Lemma validation_block_run w :
  dataset_ok (ld_dataset (val_loader w)) ->
  exists batch pos l gl s gs,
    (1 <= length batch <= BATCH_SIZE)%nat /\
    decoder_loss (params w) batch = ((l, gl), (s, gs)) /\
    validation_block w
    = (Ok tt,
       set_grad_enabled (grad_enabled w)
         (log (Printed (ValidationSmallLoss s))
            (log (Printed (ValidationLoss l))
               (log (CallLoss false l s)
                  (set_val_loader
                     {| ld_dataset := ld_dataset (val_loader w);
                        ld_pos := pos |}
                     (set_rng_pos
                        (length batch
                         + (if in_pass (val_loader w) then 0 else 1)
                         + rng_pos w)
                        (set_grad_enabled false
                           (set_training false w)))))))).
Proof.
  intros Hds.
  destruct (next_batch_exact (val_loader w)
              (set_grad_enabled false (set_training false w)) Hds)
    as [batch [E [Hlen [Hpos _]]]].
  cbv zeta in E, Hlen, Hpos.
  destruct (decoder_loss (params w) batch) as [[l gl] [s gs]] eqn:El.
  exists batch. eexists. exists l, gl, s, gs.
  split; [unfold BATCH_SIZE in *; lia|]. split; [exact El|].
  unfold validation_block, model_eval, with_no_grad, next_val_loader,
    model_loss, print.
  cbn [bind ret Monad_T]. unfold T_bind, T_ret, modify, get_world.
  cbn [val_loader set_grad_enabled set_training]. rewrite E.
  cbn [fst snd params set_val_loader set_rng_pos set_grad_enabled
       set_training].
  rewrite El. cbn [grad_enabled set_val_loader set_rng_pos set_grad_enabled
                   set_training log fst snd value].
  reflexivity.
Qed.

(** X13. A validation over a usable validation set always completes, and it
    only reads the model: it evaluates the two losses once, with
    gradients disabled, on the next batch of one to four validation
    sequences, at the current parameters, and prints them; parameters,
    optimiser state, accumulated gradients and the training loader are
    as before, the gradient mode is restored, the model is left in
    evaluation mode, and the validation loader, over the same dataset,
    has drawn one random number per sequence, and one more, the base
    seed of its new iterator, when the batch is the first of a pass
    over the validation set. *)
Theorem validation_block_completes w :
  dataset_ok (ld_dataset (val_loader w)) ->
  exists batch l gl s gs w',
    validation_block w = (Ok tt, w') /\
    (1 <= length batch <= BATCH_SIZE)%nat /\
    decoder_loss (params w) batch = ((l, gl), (s, gs)) /\
    trace w' = trace w ++ [CallLoss false l s;
                           Printed (ValidationLoss l);
                           Printed (ValidationSmallLoss s)] /\
    params w' = params w /\ opt_state w' = opt_state w /\
    grads w' = grads w /\ grad_enabled w' = grad_enabled w /\
    train_loader w' = train_loader w /\
    ld_dataset (val_loader w') = ld_dataset (val_loader w) /\
    training w' = false /\
    let n := (length (ds_data (ld_dataset (val_loader w)))
              / ds_seq_len (ld_dataset (val_loader w)))%nat in
    ((0 < ld_pos (val_loader w) < n)%nat ->
     rng_pos w' = (length batch + rng_pos w)%nat) /\
    ((ld_pos (val_loader w) = 0 \/ n <= ld_pos (val_loader w))%nat ->
     rng_pos w' = (length batch + 1 + rng_pos w)%nat).
Proof.
  intros Hds.
  destruct (validation_block_run w Hds)
    as (batch & pos & l & gl & s & gs & Hlen & El & E).
  pose proof (in_pass_spec (val_loader w)) as Hin.
  exists batch, l, gl, s, gs. eexists. split; [exact E|].
  split; [exact Hlen|]. split; [exact El|].
  cbn [trace params opt_state grads grad_enabled train_loader val_loader
       training rng_pos ld_dataset log set_grad_enabled set_val_loader
       set_rng_pos set_training].
  rewrite <- !app_assoc. cbn [app].
  do 8 (split; [reflexivity|]). cbv zeta. split.
  - intros Hc. apply Hin in Hc. rewrite Hc. lia.
  - intros Hc. destruct (in_pass (val_loader w)); [|lia].
    assert (0 < ld_pos (val_loader w)
            < length (ds_data (ld_dataset (val_loader w)))
              / ds_seq_len (ld_dataset (val_loader w)))%nat
      by now apply Hin.
    lia.
Qed.

End ValidationFacts.

Lemma validation_block_completes_witness :
  dataset_ok (ld_dataset (val_loader (toy_world false))) /\
  exists w',
    validation_block (toy_world false) = (Ok tt, w') /\
    params w' = params (toy_world false) /\
    grads w' = grads (toy_world false).
Proof.
  split; [exact toy_dataset_ok|].
  destruct (validation_block_completes (toy_world false) toy_dataset_ok)
    as (batch & l & gl & s & gs & w' & E & _ & _ & _ & Hp & _ & Hg & _).
  exists w'. split; [exact E|]. split; [exact Hp|exact Hg].
Defined.

(* ===================================================================== *)
(** ** The loop as a whole (lines 115-167) *)
(* ===================================================================== *)

(** *** The decoders emit what [sample] yields *)

Section DecoderTokens.

Context {m : Type -> Type} {Mm : Monad m} {L C : Type}.
Context {Em : DecodeEffects L m} {Pm : DecodePost L m}.
Variable policy : C -> L -> probs.
Variable V : nat.
Variable cfg : C.
Variable P : token -> Prop.
Hypothesis sample_in : forall p, post (sample p) P.

Lemma base_loop_tokens n : forall out,
  Forall P out -> post (base_loop policy cfg n out) (Forall P).
Proof.
  induction n as [|n IH]; intros out Hout; cbn [base_loop].
  - now apply post_ret.
  - eapply post_bind; [apply post_forward_full|]. intros lg _.
    eapply post_bind; [apply sample_in|]. intros t Ht.
    apply IH. apply Forall_app. split; [exact Hout|]. now constructor.
Qed.

Lemma draft_loop_tokens g : forall out,
  post (draft_loop policy cfg g out)
    (fun drafts => Forall P (map fst drafts)).
Proof.
  induction g as [|g IH]; intros out; cbn [draft_loop].
  - apply post_ret. constructor.
  - eapply post_bind; [apply post_forward_early|]. intros lg _.
    eapply post_bind; [apply sample_in|]. intros t Ht.
    eapply post_bind; [apply IH|]. intros rest Hr.
    apply post_ret. cbn [map fst]. now constructor.
Qed.

Lemma accept_loop_tokens drafts : forall p,
  Forall P (map fst drafts) ->
  post (accept_loop V p drafts) (fun r => Forall P (fst r)).
Proof.
  induction drafts as [|[t q] rest IH]; intros p Hd; cbn [accept_loop].
  - eapply post_bind; [apply sample_in|]. intros bonus Hb.
    apply post_ret. cbn [fst]. now repeat constructor.
  - cbn [map fst] in Hd. inversion Hd as [|? ? Ht Hrest]; subst.
    eapply post_bind; [apply post_uniform_le|]. intros [|] _.
    + eapply post_bind; [apply IH; exact Hrest|]. intros r Hr.
      apply post_ret. cbn [fst]. now constructor.
    + eapply post_bind; [apply sample_in|]. intros x Hx.
      apply post_ret. cbn [fst]. now repeat constructor.
Qed.

Lemma speculative_block_tokens g out :
  post (speculative_block policy V cfg g out) (fun r => Forall P (fst r)).
Proof.
  unfold speculative_block.
  eapply post_bind; [apply draft_loop_tokens|]. intros drafts Hd.
  eapply post_bind; [apply post_forward_full|]. intros lg _.
  now apply accept_loop_tokens.
Qed.

Lemma speculative_loop_tokens gamma N : forall fuel out acc blocks,
  Forall P out ->
  post (speculative_loop policy V cfg gamma N fuel out acc blocks)
    (fun r => Forall P (fst r)).
Proof.
  induction fuel as [|fuel IH]; intros out acc blocks Hout;
    cbn [speculative_loop].
  - now apply post_ret.
  - destruct (N <=? length out)%nat; [now apply post_ret|].
    eapply post_bind; [apply speculative_block_tokens|]. intros r Hr.
    apply IH. apply Forall_app. now split.
Qed.

End DecoderTokens.

Section LoopFacts.

Context {B : Backend}.

Lemma inverse_cdf_in p ts : forall u last,
  In (inverse_cdf p u ts last) (last :: ts).
Proof.
  induction ts as [|t rest IH]; intros u last; cbn [inverse_cdf].
  - now left.
  - destruct (Qle_bool (p t) u).
    + right. apply IH.
    + right. now left.
Qed.

Lemma sample_vocabulary p :
  T_post (sample p) (fun t => (t < NUM_TOKENS)%nat).
Proof.
  intros w. cbn [sample DecodeEffects_T bind ret Monad_T].
  unfold uniform. cbn [bind ret Monad_T]. unfold T_bind, T_ret, next_word.
  eexists. eexists. split; [reflexivity|]. split.
  - match goal with |- (inverse_cdf ?p ?u ?ts ?l < _)%nat =>
      destruct (inverse_cdf_in p ts u l) as [<-|Hin]
    end.
    + unfold NUM_TOKENS. lia.
    + apply in_seq in Hin. lia.
  - apply untouched_set_rng_pos.
Qed.

Lemma call_base_decoding_tokens prompt n w :
  Forall (fun t => (t < NUM_TOKENS)%nat) prompt ->
  exists out w',
    call_base_decoding (prompt, n) w = (Ok out, w') /\
    Forall (fun t => (t < NUM_TOKENS)%nat) out.
Proof.
  intros Hp. unfold call_base_decoding, base_decoding. cbn [fst snd].
  destruct (post_no_grad (DecodePost := DecodePost_T) _ _ _
              (base_loop_tokens (Pm := DecodePost_T) sampling_policy
                 default_sampling _ sample_vocabulary
                 (n - length prompt) prompt Hp) w)
    as (out & w' & E & Hout & _).
  now exists out, w'.
Qed.

Lemma call_speculative_decoding_tokens prompt n gamma w :
  (0 < gamma)%nat ->
  Forall (fun t => (t < NUM_TOKENS)%nat) prompt ->
  exists out avg w',
    call_speculative_decoding (prompt, n, gamma) w = (Ok (out, avg), w') /\
    Forall (fun t => (t < NUM_TOKENS)%nat) out.
Proof.
  intros Hgamma Hp. unfold call_speculative_decoding,
    speculative_decoding_with_same_model.
  destruct (Nat.eqb_spec gamma 0) as [->|_]; [lia|].
  cbn [lift bind ret Monad_T].
  rewrite (T_bind_ok (T_ret _) _ w _ w eq_refl).
  destruct (post_no_grad (DecodePost := DecodePost_T) _ _ _
              (speculative_loop_tokens (Pm := DecodePost_T) sampling_policy
                 NUM_TOKENS default_sampling _ sample_vocabulary
                 gamma n (n - length prompt) prompt 0%nat 0%nat Hp) w)
    as ([out avg] & w' & E & Hout & _).
  now exists out, avg, w'.
Qed.

(** *** The generation block, up to the first timed call *)

Lemma random_choice_run ds w :
  dataset_ok ds ->
  exists start,
    (start + ds_seq_len ds + 1 <= length (ds_data ds))%nat /\
    random_choice ds w
    = (Ok (firstn (ds_seq_len ds + 1) (skipn start (ds_data ds))),
       set_rng_pos (S (S (rng_pos w))) w).
Proof.
  intros [H0 H]. unfold random_choice. cbn [bind ret Monad_T].
  rewrite (T_bind_ok _ _ _ _ _ (dataset_len_run ds w H0)).
  destruct (Nat.eqb_spec (length (ds_data ds) / ds_seq_len ds) 0) as [E|_].
  { apply Nat.div_small_iff in E; lia. }
  rewrite (T_bind_ok next_word _ w _ _ eq_refl).
  destruct (getitem_run ds
              (N.to_nat (entropy w (rng_pos w))
               mod (length (ds_data ds) / ds_seq_len ds))
              (set_rng_pos (S (rng_pos w)) w) H) as [start [Hb E]].
  exists start. split; [exact Hb|]. rewrite E. reflexivity.
Qed.

Lemma vocabulary_decodes tokens :
  Forall (fun t => (t < NUM_TOKENS)%nat) tokens ->
  decode_tokens (map Z.of_nat tokens)
  = Ok (map (Z.max 32) (map Z.of_nat tokens)).
Proof.
  intros H. apply decode_tokens_ok. apply Forall_map.
  eapply Forall_impl; [|exact H]. cbv beta. intros t Ht.
  unfold MAX_CODE_POINT, NUM_TOKENS in *. lia.
Qed.

(** Running the block up to the first timed call: the prompt is drawn
    from the validation data, decoded and printed. *)
Ltac generation_prefix w Hds Hv prime :=
  let start := fresh "start" in
  let Hb := fresh "Hb" in
  let Ec := fresh "Ec" in
  let Hitem := fresh "Hitem" in
  destruct (random_choice_run (ld_dataset (val_loader w))
              (set_training false w) Hds) as [start [Hb Ec]];
  assert (Hitem : Forall (fun t => (t < NUM_TOKENS)%nat)
                    (firstn PRIME_LENGTH
                       (firstn (ds_seq_len (ld_dataset (val_loader w)) + 1)
                          (skipn start
                             (ds_data (ld_dataset (val_loader w)))))))
    by (apply Forall_firstn_skipn, Forall_firstn_skipn,
          Forall_firstn_skipn; exact Hv);
  unfold generation_block, model_eval; cbn [bind ret Monad_T];
  unfold modify at 1;
  rewrite (T_bind_ok (fun w0 => (Ok tt, set_training false w0)) _ w tt
             (set_training false w) eq_refl);
  rewrite (T_bind_ok get_world _ (set_training false w)
             (set_training false w) (set_training false w) eq_refl);
  cbn [val_loader set_training];
  rewrite (T_bind_ok _ _ _ _ _ Ec);
  rewrite (vocabulary_decodes _ Hitem);
  cbn [lift ret Monad_T];
  match goal with
  | |- context [T_ret ?x] =>
      set (prime := x);
      rewrite (T_bind_ok (T_ret prime) _ _ prime _ eq_refl)
  end;
  rewrite (T_bind_ok (print (Prime prime)) _ _ tt _ eq_refl).

(** Without CUDA the block stops at the first timed call: the prompt
    has been printed, no decoder was started. *)
Lemma generation_block_no_cuda w :
  cuda_is_available = false ->
  dataset_ok (ld_dataset (val_loader w)) ->
  Forall (fun t => (t < NUM_TOKENS)%nat)
         (ds_data (ld_dataset (val_loader w))) ->
  exists prime,
    generation_block w
    = (Err RuntimeError,
       log (Printed (Prime prime))
         (set_rng_pos (S (S (rng_pos w))) (set_training false w))).
Proof.
  intros Hc Hds Hv.
  generation_prefix w Hds Hv prime.
  exists prime.
  rewrite (T_bind_err _ _ _ _ _
             (benchmark_no_cuda call_base_decoding _ _ Hc)).
  reflexivity.
Qed.

(** With CUDA the block runs to its last print. *)
Lemma generation_block_run w :
  cuda_is_available = true ->
  dataset_ok (ld_dataset (val_loader w)) ->
  Forall (fun t => (t < NUM_TOKENS)%nat)
         (ds_data (ld_dataset (val_loader w))) ->
  exists w', generation_block w = (Ok tt, w').
Proof.
  intros Hc Hds Hv.
  generation_prefix w Hds Hv prime.
  match goal with
  | |- context [T_bind (benchmark call_base_decoding (?prompt, _)) _ ?w1] =>
      destruct (call_base_decoding_tokens prompt GENERATE_LENGTH w1 Hitem)
        as (out1 & w2 & E1 & Hout1);
      rewrite (T_bind_ok _ _ _ _ _
                 (benchmark_returns call_base_decoding _ _ _ _ Hc E1));
      destruct (call_speculative_decoding_tokens prompt GENERATE_LENGTH
                  GAMMA w2 ltac:(unfold GAMMA; lia) Hitem)
        as (out2 & avg & w3 & E2 & Hout2);
      cbv beta iota;
      rewrite (T_bind_ok _ _ _ _ _
                 (benchmark_returns call_speculative_decoding _ _ _ _
                    Hc E2));
      cbv beta iota
  end.
  rewrite (vocabulary_decodes _ Hout1), (vocabulary_decodes _ Hout2).
  cbn [lift ret Monad_T]. unfold print, modify, T_bind, T_ret.
  eexists. reflexivity.
Qed.

(** X18. Lines 145-167 on a machine with CUDA, over validation data
    longer than its window and within the vocabulary.  The block
    completes.  The prompt is the first [PRIME_LENGTH] tokens of a
    window of the validation data, and the prime printed first is its
    decoding.  The base decoder is then called on the prompt with the
    target [GENERATE_LENGTH], and the speculative decoder on the same
    prompt and target with [GAMMA], from the state the base call left;
    what is printed next, in this order, is the decoding of what the
    base call returned, the decoding of what the speculative call
    returned, the time elapsed over each call, and the average the
    speculative call returned.  With the decoders of the package as
    modelled, the base call makes one full-depth pass per token it adds,
    each sampled from the full-depth distribution after the tokens
    before it, and the speculative call returns [A / K] for [K] blocks,
    one full-depth pass each, and [A] accepted drafts among those it
    made, adding [A + K] tokens; every pass runs without gradients. *)
Theorem generation_block_report w :
  cuda_is_available = true ->
  dataset_ok (ld_dataset (val_loader w)) ->
  Forall (fun t => (t < NUM_TOKENS)%nat)
         (ds_data (ld_dataset (val_loader w))) ->
  exists start ext1 ext2 A K new w2 w3 w',
    let ds := ld_dataset (val_loader w) in
    let prompt :=
      firstn PRIME_LENGTH
        (firstn (ds_seq_len ds + 1) (skipn start (ds_data ds))) in
    let prime := map (Z.max 32) (map Z.of_nat prompt) in
    let w1 := log (Printed (Prime prime))
                (set_rng_pos (S (S (rng_pos w))) (set_training false w)) in
    (start + ds_seq_len ds + 1 <= length (ds_data ds))%nat /\
    call_base_decoding (prompt, GENERATE_LENGTH) w1
    = (Ok (prompt ++ ext1), w2) /\
    call_speculative_decoding (prompt, GENERATE_LENGTH, GAMMA) w2
    = (Ok (prompt ++ ext2, average_accepted A K), w3) /\
    generation_block w = (Ok tt, w') /\
    trace w'
    = trace w ++ [Printed (Prime prime)]
      ++ repeat (CallForward FullDepth false) (length ext1) ++ new
      ++ [Printed (BaseDecodingOutput
                     (map (Z.max 32) (map Z.of_nat (prompt ++ ext1))));
          Printed (SpecDecodingOutput
                     (map (Z.max 32) (map Z.of_nat (prompt ++ ext2))));
          Printed (BaseDecodingElapsed (clock w2 - clock w1));
          Printed (SpecDecodingElapsed (clock w3 - clock w2));
          Printed (AverageNumAccepted (average_accepted A K) GAMMA)] /\
    length (prompt ++ ext1) = Nat.max GENERATE_LENGTH (length prompt) /\
    length (prompt ++ ext2) = Nat.max GENERATE_LENGTH (length prompt) /\
    length ext2 = (A + K)%nat /\
    Forall (fun e => exists h, e = CallForward h false) new /\
    forward_calls FullDepth new = K /\
    (A <= forward_calls EarlyExit new <= GAMMA * K)%nat /\
    forall k t, nth_error ext1 k = Some t ->
      t = sample_at (full_probs (params w) (prompt ++ firstn k ext1))
            (uniform_at (entropy w) (S (S (rng_pos w)) + k)).
Proof.
  intros Hc Hds Hv.
  generation_prefix w Hds Hv prime.
  match goal with
  | |- context [T_bind (benchmark call_base_decoding (?prompt, _)) _ ?w1] =>
      set (inp := prompt) in *;
      destruct (call_base_decoding_run inp GENERATE_LENGTH w1)
        as (ext1 & w2 & E1 & Hlen1 & Ht1 & _ & Htok1);
      destruct (call_base_decoding_tokens inp GENERATE_LENGTH w1 Hitem)
        as (out1' & w2' & E1' & Hout1);
      pose proof (eq_trans (eq_sym E1) E1') as Heq1;
      inversion Heq1; subst out1' w2'; clear E1' Heq1;
      rewrite (T_bind_ok _ _ _ _ _
                 (benchmark_returns call_base_decoding _ _ _ _ Hc E1));
      cbv beta iota;
      destruct (call_speculative_decoding_run inp GENERATE_LENGTH GAMMA w2
                  ltac:(unfold GAMMA; lia))
        as (ext2 & A & K & D & new & w3 & E2 & Hlen2 & Hmax2 & Ht2 & Hall2
            & HK & HD & _ & HA);
      destruct (call_speculative_decoding_tokens inp GENERATE_LENGTH
                  GAMMA w2 ltac:(unfold GAMMA; lia) Hitem)
        as (out2' & avg' & w3' & E2' & Hout2);
      pose proof (eq_trans (eq_sym E2) E2') as Heq2;
      inversion Heq2; subst out2' avg' w3'; clear E2' Heq2;
      rewrite (T_bind_ok _ _ _ _ _
                 (benchmark_returns call_speculative_decoding _ _ _ _
                    Hc E2));
      cbv beta iota
  end.
  rewrite (vocabulary_decodes _ Hout1), (vocabulary_decodes _ Hout2).
  cbn [lift ret Monad_T]. unfold print, modify, T_bind, T_ret.
  exists start, ext1, ext2, A, K, new, w2, w3. eexists. cbv zeta.
  split; [exact Hb|]. split; [exact E1|]. split; [exact E2|].
  split; [reflexivity|]. split.
  { cbn [trace log]. rewrite Ht2, Ht1.
    cbn [trace log set_rng_pos set_training].
    rewrite <- !app_assoc. reflexivity. }
  split.
  { change (length (inp ++ ext1) = Nat.max GENERATE_LENGTH (length inp)).
    rewrite length_app, Hlen1. lia. }
  split; [exact Hmax2|].
  split; [exact Hlen2|]. split; [exact Hall2|]. split; [exact HK|].
  split; [rewrite HD; exact HA|]. exact Htok1.
Qed.

(** *** What a training step leaves alone *)

Lemma frame_refl w : training_frame w w.
Proof. now split. Qed.

Lemma frame_bind {A C} (c : T A) (k : A -> T C) :
  preserves training_frame c ->
  (forall a, preserves training_frame (k a)) ->
  preserves training_frame (T_bind c k).
Proof.
  intros Hc Hk w. unfold T_bind. specialize (Hc w).
  destruct (c w) as [[a|e] w1]; cbn [snd] in *; [|exact Hc].
  destruct Hc as [H1 H2]. destruct (Hk a w1) as [H3 H4].
  split; congruence.
Qed.

Lemma frame_of_untouched {A} ok (c : T A) :
  preserves (untouched ok) c -> preserves training_frame c.
Proof.
  intros H w. destruct (H w) as (_ & _ & _ & Hg & _ & Hv & _). now split.
Qed.

Lemma frame_modify (f : World -> World) :
  (forall w, training_frame w (f w)) -> preserves training_frame (modify f).
Proof. intros H w. apply H. Qed.

Lemma frame_ret {A} (a : A) : preserves training_frame (T_ret a).
Proof. intros w. apply frame_refl. Qed.

Lemma frame_micro_batch : preserves training_frame micro_batch.
Proof.
  unfold micro_batch, next_train_loader, model_loss. cbn [bind ret Monad_T].
  apply frame_bind.
  { apply frame_bind;
      [apply (frame_of_untouched (fun _ => True)), preserves_get_world|].
    intros w0. apply frame_bind;
      [apply (frame_of_untouched (fun _ => True)), preserves_next_batch|].
    intros r. apply frame_bind; [|intros _; apply frame_ret].
    apply frame_modify. intros w. now split. }
  intros data. apply frame_bind.
  { apply frame_bind;
      [apply (frame_of_untouched (fun _ => True)), preserves_get_world|].
    intros w0. destruct (decoder_loss (params w0) data) as [[l gl] [s gs]].
    apply frame_bind; [|intros _; apply frame_ret].
    apply frame_modify. intros w. now split. }
  intros losses. apply frame_bind; [|intros _; apply frame_ret].
  unfold backward.
  destruct (grad_fn (backpropagated (fst losses) (snd losses)));
    [|intros w; apply frame_refl].
  apply frame_modify. intros w. now split.
Qed.

Lemma frame_training_step : preserves training_frame training_step.
Proof.
  assert (Hacc : forall count last,
             preserves training_frame (accumulate count last)).
  { induction count as [|count IH]; intros last;
      cbn [accumulate bind ret Monad_T].
    - apply frame_ret.
    - apply frame_bind; [apply frame_micro_batch|intros losses; apply IH]. }
  unfold training_step, model_train, print, clip_grad_norm_, optim_step,
    optim_zero_grad.
  cbn [bind ret Monad_T].
  apply frame_bind; [apply frame_modify; intros w; now split|intros _].
  apply frame_bind; [apply Hacc|intros losses].
  apply frame_bind; [apply frame_modify; intros w; now split|intros _].
  apply frame_bind; [apply frame_modify; intros w; now split|intros _].
  apply frame_bind; [apply frame_modify; intros w; now split|intros _].
  apply frame_bind; [|intros _; apply frame_modify; intros w; now split].
  apply frame_modify. intros w. destruct (grads w) as [g|]; [|now split].
  destruct (adam_step (opt_state w) (params w) g) as [o p]. now split.
Qed.

(** A training step run from a state with gradients enabled. *)
Lemma training_step_run w :
  grad_enabled w = true ->
  dataset_ok (ld_dataset (train_loader w)) ->
  exists batches w',
    training_step w = (Ok tt, w') /\
    length batches = GRAD_ACCUM_EVERY /\
    trace w' = trace w ++ training_step_events (params w) batches /\
    grads w' = None.
Proof.
  intros Hg Hds.
  destruct (accumulate_ok GRAD_ACCUM_EVERY
              ({| value := 0; grad_fn := None |},
               {| value := 0; grad_fn := None |})
              (set_training true w) Hg Hds)
    as (batches & last' & wa & Ha & Hlen & Ht & Hgr & Hp & Ho & Hl).
  cbn [params grads trace opt_state set_training fst snd value]
    in Ht, Hgr, Hp, Ho, Hl.
  exists batches. eexists. split.
  - unfold training_step, model_train. cbn [bind ret Monad_T].
    unfold modify at 1.
    rewrite (T_bind_ok (fun w0 => (Ok tt, set_training true w0)) _ w tt
               (set_training true w) eq_refl).
    rewrite (T_bind_ok _ _ _ _ _ Ha).
    unfold print, clip_grad_norm_, optim_step, optim_zero_grad.
    cbn [bind ret Monad_T]. unfold T_bind, T_ret, modify, get_world.
    reflexivity.
  - split; [exact Hlen|].
    cbn [trace grads params opt_state log set_grads set_optimised].
    destruct (option_map (clip_grad_norm MAX_GRAD_NORM) (grads wa)) as [g|].
    + destruct (adam_step (opt_state wa) (params wa) g) as [o p].
      cbn [trace grads params opt_state log set_grads set_optimised].
      rewrite Ht. unfold training_step_events, printed_losses.
      rewrite <- Hl. cbn [fst snd].
      repeat rewrite <- app_assoc. cbn [app]. split; reflexivity.
    + cbn [trace grads params opt_state log set_grads set_optimised].
      rewrite Ht. unfold training_step_events, printed_losses.
      rewrite <- Hl. cbn [fst snd].
      repeat rewrite <- app_assoc. cbn [app]. split; reflexivity.
Qed.

(** *** Counting calls in a trace *)

Lemma optimiser_steps_app a b :
  optimiser_steps (a ++ b) = (optimiser_steps a + optimiser_steps b)%nat.
Proof. unfold optimiser_steps. now rewrite filter_app, length_app. Qed.

Lemma backward_calls_app a b :
  backward_calls (a ++ b) = (backward_calls a + backward_calls b)%nat.
Proof. unfold backward_calls. now rewrite filter_app, length_app. Qed.

Lemma training_step_events_counts p batches :
  optimiser_steps (training_step_events p batches) = 1%nat /\
  backward_calls (training_step_events p batches) = length batches.
Proof.
  assert (H : optimiser_steps (flat_map (micro_batch_events p) batches)
              = 0%nat /\
              backward_calls (flat_map (micro_batch_events p) batches)
              = length batches).
  { induction batches as [|data rest [IH1 IH2]]; cbn [flat_map length].
    - now split.
    - rewrite optimiser_steps_app, backward_calls_app, IH1, IH2.
      unfold micro_batch_events.
      destruct (decoder_loss p data) as [[l gl] [s gs]]. now split. }
  destruct H as [H1 H2]. unfold training_step_events.
  rewrite !optimiser_steps_app, !backward_calls_app, H1, H2.
  cbn. split; lia.
Qed.

Lemma generation_events_counts new :
  Forall generation_event new ->
  optimiser_steps new = 0%nat /\ backward_calls new = 0%nat.
Proof.
  induction 1 as [|e rest He _ [IH1 IH2]]; [now split|].
  change (e :: rest) with ([e] ++ rest).
  rewrite optimiser_steps_app, backward_calls_app, IH1, IH2.
  destruct e as [h g| | | | | |[]]; cbn in He; try contradiction;
    now split.
Qed.

(** *** One iteration, and the loop *)

(** A validation, when it is due, changes nothing the loop relies on. *)
Lemma when_validation_run (b : bool) w :
  dataset_ok (ld_dataset (val_loader w)) ->
  exists w',
    when b validation_block w = (Ok tt, w') /\
    grad_enabled w' = grad_enabled w /\
    ld_dataset (train_loader w') = ld_dataset (train_loader w) /\
    ld_dataset (val_loader w') = ld_dataset (val_loader w) /\
    grads w' = grads w /\
    optimiser_steps (trace w') = optimiser_steps (trace w) /\
    backward_calls (trace w') = backward_calls (trace w).
Proof.
  intros Hds. destruct b; cbn [when ret Monad_T].
  - destruct (validation_block_run w Hds)
      as (batch & pos & l & gl & s & gs & _ & _ & E).
    eexists. split; [exact E|].
    cbn [grad_enabled train_loader val_loader grads trace ld_dataset log
         set_grad_enabled set_val_loader set_rng_pos set_training].
    rewrite !optimiser_steps_app, !backward_calls_app. cbn.
    repeat split; lia.
  - exists w. repeat split; reflexivity.
Qed.

(** So does a generation, when it is due and CUDA is there. *)
Lemma when_generation_run (b : bool) w :
  (cuda_is_available = true \/ b = false) ->
  dataset_ok (ld_dataset (val_loader w)) ->
  Forall (fun t => (t < NUM_TOKENS)%nat)
         (ds_data (ld_dataset (val_loader w))) ->
  exists w',
    when b generation_block w = (Ok tt, w') /\
    grad_enabled w' = grad_enabled w /\
    ld_dataset (train_loader w') = ld_dataset (train_loader w) /\
    ld_dataset (val_loader w') = ld_dataset (val_loader w) /\
    grads w' = grads w /\
    optimiser_steps (trace w') = optimiser_steps (trace w) /\
    backward_calls (trace w') = backward_calls (trace w).
Proof.
  intros Hc Hds Hv. destruct b; cbn [when ret Monad_T].
  - destruct Hc as [Hc|Hc]; [|discriminate].
    destruct (generation_block_run w Hc Hds Hv) as [w' E].
    pose proof (preserves_generation_block w) as Hu. rewrite E in Hu.
    destruct Hu as (_ & _ & Hgr & Hg & Hl & Hvl & new & Ht & Hn).
    cbn [snd] in *.
    destruct (generation_events_counts new Hn) as [H1 H2].
    exists w'. split; [exact E|].
    rewrite Ht, optimiser_steps_app, backward_calls_app, H1, H2, Hl, Hvl.
    repeat split; try assumption; lia.
  - exists w. repeat split; reflexivity.
Qed.

Lemma iteration_run i w :
  (cuda_is_available = true \/ (i mod GENERATE_EVERY)%nat <> 0%nat) ->
  script_ready w ->
  exists w',
    iteration i w = (Ok tt, w') /\
    script_ready w' /\
    grads w' = None /\
    optimiser_steps (trace w') = S (optimiser_steps (trace w)) /\
    backward_calls (trace w')
    = (GRAD_ACCUM_EVERY + backward_calls (trace w))%nat.
Proof.
  intros Hc (Hg & Htr & Hval & Hvoc).
  destruct (training_step_run w Hg Htr)
    as (batches & w1 & E1 & Hlen & Ht1 & Hz1).
  pose proof (frame_training_step w) as Hf. rewrite E1 in Hf.
  destruct Hf as [Hg1 Hv1]. cbn [snd] in Hg1, Hv1.
  pose proof (runs_training_step (fun _ => True) (fun _ _ _ => I) w)
    as (Hd1 & _ & _).
  rewrite E1 in Hd1. cbn [snd] in Hd1.
  destruct (training_step_events_counts (params w) batches) as [Hc1 Hc2].
  rewrite <- Hv1 in Hval, Hvoc.
  destruct (when_validation_run (i mod VALIDATE_EVERY =? 0)%nat w1 Hval)
    as (w2 & E2 & Hg2 & Hd2 & Hvd2 & Hz2 & Ho2 & Hb2).
  rewrite <- Hvd2 in Hval, Hvoc.
  destruct (when_generation_run (i mod GENERATE_EVERY =? 0)%nat w2)
    as (w3 & E3 & Hg3 & Hd3 & Hvd3 & Hz3 & Ho3 & Hb3);
    [|exact Hval|exact Hvoc|].
  { destruct Hc as [Hc|Hc]; [now left|right].
    now apply Nat.eqb_neq. }
  exists w3. split.
  - unfold iteration. cbn [bind ret Monad_T].
    rewrite (T_bind_ok _ _ _ _ _ E1), (T_bind_ok _ _ _ _ _ E2). exact E3.
  - split.
    + unfold script_ready. rewrite Hg3, Hg2, Hg1, Hd3, Hd2, Hd1, Hvd3.
      split; [exact Hg|]. split; [exact Htr|]. split; [exact Hval|exact Hvoc].
    + rewrite Hz3, Hz2, Hz1, Ho3, Ho2, Hb3, Hb2, Ht1.
      rewrite optimiser_steps_app, backward_calls_app, Hc1, Hc2, Hlen.
      repeat split; lia.
Qed.

(** The rule of the [for] loop: an invariant indexed by the step. *)
Lemma loop_from_rule (I : nat -> World -> Prop) n : forall i w,
  (forall j w0, (i <= j < i + n)%nat -> I j w0 ->
     exists w1, iteration j w0 = (Ok tt, w1) /\ I (S j) w1) ->
  I i w ->
  exists w', loop_from i n w = (Ok tt, w') /\ I (i + n)%nat w'.
Proof.
  induction n as [|n IH]; intros i w Hstep Hi; cbn [loop_from].
  - exists w. rewrite Nat.add_0_r. split; [reflexivity|exact Hi].
  - destruct (Hstep i w ltac:(lia) Hi) as (w1 & E1 & H1).
    destruct (IH (S i) w1) as (w2 & E2 & H2);
      [intros j w0 Hj; apply Hstep; lia|exact H1|].
    exists w2. cbn [bind ret Monad_T]. rewrite (T_bind_ok _ _ _ _ _ E1).
    split; [exact E2|].
    replace (i + S n)%nat with (S i + n)%nat by lia. exact H2.
Qed.

Lemma initial_world_ready file random p0 o0 :
  (95000000 <= Z.of_nat (length file))%Z ->
  script_ready (initial_world file random p0 o0).
Proof.
  intros H. unfold script_ready, initial_world, dataset_ok, train_dataset,
    val_dataset, SEQ_LEN.
  cbn [grad_enabled train_loader val_loader ld_dataset ds_data ds_seq_len].
  pose proof (data_train_length file). pose proof (data_val_length file).
  split; [reflexivity|]. split; [lia|]. split; [lia|].
  unfold data_val, np_split, read_data. cbn [snd].
  apply Forall_firstn_skipn. apply Forall_forall. intros t Ht.
  apply in_map_iff in Ht. destruct Ht as [b [<- _]].
  pose proof (Byte.to_nat_bounded b). unfold NUM_TOKENS. lia.
Qed.

(** X14. Any stretch of the loop.  From a state with gradients enabled, both
    datasets longer than their window and validation data within the
    vocabulary, [n] iterations starting at step [i] complete, on a
    machine with CUDA, and on any machine when no step of the stretch is
    a multiple of [GENERATE_EVERY]; the decoders of the generation steps
    being those of the package as modelled.  The stretch takes exactly
    [n] optimiser steps and [4 * n] backward passes, ends with zeroed
    gradients, and leaves a state from which the loop can go on. *)
Theorem loop_from_completes n i w :
  (cuda_is_available = true \/
   forall j, (i <= j < i + n)%nat -> (j mod GENERATE_EVERY)%nat <> 0%nat) ->
  script_ready w ->
  exists w',
    loop_from i n w = (Ok tt, w') /\
    script_ready w' /\
    ((0 < n)%nat -> grads w' = None) /\
    optimiser_steps (trace w') = (n + optimiser_steps (trace w))%nat /\
    backward_calls (trace w') = (4 * n + backward_calls (trace w))%nat.
Proof.
  intros Hc Hw.
  destruct (loop_from_rule
              (fun j w' =>
                 script_ready w' /\
                 ((i < j)%nat -> grads w' = None) /\
                 optimiser_steps (trace w')
                 = (j - i + optimiser_steps (trace w))%nat /\
                 backward_calls (trace w')
                 = (4 * (j - i) + backward_calls (trace w))%nat) n i w)
    as (w' & E & Hr & Hz & Ho & Hb).
  - intros j w0 Hj (Hr0 & _ & Ho0 & Hb0).
    destruct (iteration_run j w0) as (w1 & E1 & Hr1 & Hz1 & Ho1 & Hb1);
      [destruct Hc as [Hc|Hc]; [now left|right; now apply Hc]|exact Hr0|].
    exists w1. split; [exact E1|]. split; [exact Hr1|].
    split; [intros _; exact Hz1|].
    rewrite Ho1, Hb1, Ho0, Hb0. unfold GRAD_ACCUM_EVERY. split; lia.
  - split; [exact Hw|]. split; [lia|]. rewrite Nat.sub_diag. split; lia.
  - exists w'. split; [exact E|]. split; [exact Hr|].
    split; [intros Hn; apply Hz; lia|].
    replace (i + n - i)%nat with n in Ho, Hb by lia. split; assumption.
Qed.

(** X15. The whole script on a machine with CUDA.  Started on a file of at
    least 95e6 bytes, with any random source, initial parameters and
    optimiser state, the loop runs its 100000 iterations to the end
    (the decoders being those of the package as modelled): 100000
    optimiser steps, 400000 backward passes, gradients zeroed and the
    gradient mode enabled at the end. *)
Theorem training_loop_completes file random p0 o0 :
  cuda_is_available = true ->
  (95000000 <= Z.of_nat (length file))%Z ->
  exists w',
    training_loop (initial_world file random p0 o0) = (Ok tt, w') /\
    Z.of_nat (optimiser_steps (trace w')) = 100000%Z /\
    Z.of_nat (backward_calls (trace w')) = 400000%Z /\
    grads w' = None /\ grad_enabled w' = true.
Proof.
  intros Hc Hfile.
  destruct (loop_from_rule
              (fun j w' =>
                 script_ready w' /\
                 ((0 < j)%nat -> grads w' = None) /\
                 optimiser_steps (trace w') = j /\
                 backward_calls (trace w') = (4 * j)%nat)
              (N.to_nat NUM_BATCHES) 0%nat
              (initial_world file random p0 o0))
    as (w' & E & Hr & Hz & Ho & Hb).
  - intros j w0 Hj (Hr0 & _ & Ho0 & Hb0).
    destruct (iteration_run j w0 (or_introl Hc) Hr0)
      as (w1 & E1 & Hr1 & Hz1 & Ho1 & Hb1).
    exists w1. split; [exact E1|]. split; [exact Hr1|].
    split; [intros _; exact Hz1|].
    rewrite Ho1, Hb1, Ho0, Hb0. unfold GRAD_ACCUM_EVERY. split; lia.
  - split; [exact (initial_world_ready file random p0 o0 Hfile)|].
    split; [lia|]. split; reflexivity.
  - exists w'. split; [exact E|].
    unfold NUM_BATCHES in *.
    split; [lia|]. split; [lia|]. split; [apply Hz; lia|apply Hr].
Qed.

(** X16. The whole script on a machine without CUDA.  From the same kind of
    state the loop does not get past step 0: the training step and the
    validation complete, one optimiser step and four backward passes
    are taken, the prompt is drawn and printed, and the first timed
    call raises; the last thing recorded is the printed prompt. *)
Theorem training_loop_without_cuda w :
  cuda_is_available = false ->
  script_ready w ->
  exists prime w',
    training_loop w = (Err RuntimeError, w') /\
    optimiser_steps (trace w') = S (optimiser_steps (trace w)) /\
    backward_calls (trace w') = (4 + backward_calls (trace w))%nat /\
    (exists tr, trace w' = tr ++ [Printed (Prime prime)]) /\
    grads w' = None.
Proof.
  intros Hc (Hg & Htr & Hval & Hvoc).
  assert (Hk : exists k, N.to_nat NUM_BATCHES = S k).
  { exists (N.to_nat NUM_BATCHES - 1)%nat. unfold NUM_BATCHES. lia. }
  destruct Hk as [k Hk].
  destruct (training_step_run w Hg Htr)
    as (batches & w1 & E1 & Hlen & Ht1 & Hz1).
  pose proof (frame_training_step w) as Hf. rewrite E1 in Hf.
  destruct Hf as [Hg1 Hv1]. cbn [snd] in Hg1, Hv1.
  destruct (training_step_events_counts (params w) batches) as [Hc1 Hc2].
  rewrite <- Hv1 in Hval, Hvoc.
  destruct (when_validation_run (0 mod VALIDATE_EVERY =? 0)%nat w1 Hval)
    as (w2 & E2 & Hg2 & Hd2 & Hvd2 & Hz2 & Ho2 & Hb2).
  rewrite <- Hvd2 in Hval, Hvoc.
  destruct (generation_block_no_cuda w2 Hc Hval Hvoc) as [prime E3].
  exists prime. eexists. split.
  - unfold training_loop. rewrite Hk. cbn [loop_from bind ret Monad_T].
    apply T_bind_err. unfold iteration. cbn [bind ret Monad_T].
    rewrite (T_bind_ok _ _ _ _ _ E1), (T_bind_ok _ _ _ _ _ E2).
    change (0 mod GENERATE_EVERY =? 0)%nat with true. cbn [when].
    exact E3.
  - cbn [trace grads log set_rng_pos set_training].
    rewrite optimiser_steps_app, backward_calls_app, Ho2, Hb2, Ht1.
    rewrite optimiser_steps_app, backward_calls_app, Hc1, Hc2, Hlen, Hz2.
    unfold GRAD_ACCUM_EVERY. cbn.
    split; [lia|]. split; [lia|]. split; [|exact Hz1].
    eexists. reflexivity.
Qed.

End LoopFacts.

Lemma toy_world_ready cuda : script_ready (toy_world cuda).
Proof.
  split; [reflexivity|]. split; [exact toy_dataset_ok|].
  split; [exact toy_dataset_ok|].
  cbn [val_loader toy_world ld_dataset toy_dataset ds_data].
  unfold toy_data. apply Forall_forall. intros t Ht.
  apply in_map_iff in Ht. destruct Ht as [i [<- _]].
  unfold NUM_TOKENS. apply Nat.mod_upper_bound. lia.
Qed.

Lemma loop_from_completes_witness :
  (@cuda_is_available (toy_backend false) = true \/
   forall j, (1 <= j < 1 + 3)%nat -> (j mod GENERATE_EVERY)%nat <> 0%nat) /\
  script_ready (toy_world false) /\
  exists w',
    loop_from 1 3 (toy_world false) = (Ok tt, w') /\
    optimiser_steps (trace w') = 3%nat.
Proof.
  assert (H : forall j, (1 <= j < 1 + 3)%nat ->
                        (j mod GENERATE_EVERY)%nat <> 0%nat).
  { intros j Hj. unfold GENERATE_EVERY. rewrite Nat.mod_small; lia. }
  split; [right; exact H|]. split; [apply toy_world_ready|].
  destruct (loop_from_completes 3 1 (toy_world false) (or_intror H)
              (toy_world_ready false))
    as (w' & E & _ & _ & Ho & _).
  exists w'. split; [exact E|exact Ho].
Defined.

Lemma training_loop_completes_witness :
  @cuda_is_available (toy_backend true) = true /\
  (95000000 <= Z.of_nat (length (repeat Byte.x41 READ_BYTES)))%Z /\
  exists w',
    training_loop
      (initial_world (B := toy_backend true) (repeat Byte.x41 READ_BYTES)
         (fun _ => 0%N) (1 : @Params (toy_backend true))
         (tt : @OptState (toy_backend true)))
    = (Ok tt, w') /\
    Z.of_nat (optimiser_steps (trace w')) = 100000%Z.
Proof.
  assert (H : (95000000
               <= Z.of_nat (length (repeat Byte.x41 READ_BYTES)))%Z).
  { rewrite repeat_length, READ_BYTES_Z. lia. }
  split; [reflexivity|]. split; [exact H|].
  destruct (training_loop_completes (B := toy_backend true)
              (repeat Byte.x41 READ_BYTES) (fun _ => 0%N)
              (1 : @Params (toy_backend true))
              (tt : @OptState (toy_backend true)) eq_refl H)
    as (w' & E & Ho & _).
  exists w'. split; [exact E|exact Ho].
Defined.

Lemma training_loop_without_cuda_witness :
  @cuda_is_available (toy_backend false) = false /\
  script_ready (toy_world false) /\
  exists w',
    training_loop (toy_world false) = (Err RuntimeError, w') /\
    optimiser_steps (trace w') = 1%nat.
Proof.
  split; [reflexivity|]. split; [apply toy_world_ready|].
  destruct (training_loop_without_cuda (toy_world false) eq_refl
              (toy_world_ready false))
    as (prime & w' & E & Ho & _).
  exists w'. split; [exact E|exact Ho].
Defined.

(* ===================================================================== *)
(** ** What the loop reports (lines 125-126 and 145-167) *)
(* ===================================================================== *)

Section ReportFacts.

Context {B : Backend}.

(** X17. The training losses printed after the accumulation loop are those of
    the last of the four micro-batches only, not a mean over the four:
    [loss] and [small_loss] are the loop's variables, left at their last
    values.  They are the losses at the parameters before the update,
    and they are printed after the four backward passes and before the
    clipping, the optimiser step and the zeroing. *)
Theorem training_loss_printed w :
  grad_enabled w = true ->
  dataset_ok (ld_dataset (train_loader w)) ->
  exists b1 b2 b3 b4 l gl s gs w',
    training_step w = (Ok tt, w') /\
    decoder_loss (params w) b4 = ((l, gl), (s, gs)) /\
    trace w'
    = trace w
      ++ flat_map (micro_batch_events (params w)) [b1; b2; b3; b4]
      ++ [Printed (TrainingLoss l); Printed (TrainingSmallLoss s);
          CallClipGradNorm MAX_GRAD_NORM; CallOptimStep; CallZeroGrad].
Proof.
  intros Hg Hds.
  destruct (training_step_run w Hg Hds) as (batches & w' & E & Hlen & Ht & _).
  destruct batches as [|b1 [|b2 [|b3 [|b4 [|b5 rest]]]]];
    try discriminate Hlen.
  unfold training_step_events, printed_losses, last_losses in Ht.
  cbn [fold_left] in Ht.
  destruct (decoder_loss (params w) b4) as [[l gl] [s gs]] eqn:E4.
  cbn [fst snd] in Ht.
  exists b1, b2, b3, b4, l, gl, s, gs, w'.
  split; [exact E|]. split; [exact E4|]. exact Ht.
Qed.

End ReportFacts.

Lemma training_loss_printed_witness :
  grad_enabled (toy_world false) = true /\
  dataset_ok (ld_dataset (train_loader (toy_world false))) /\
  exists l s w' tr,
    training_step (toy_world false) = (Ok tt, w') /\
    trace w'
    = tr ++ [Printed (TrainingLoss l); Printed (TrainingSmallLoss s);
             CallClipGradNorm MAX_GRAD_NORM; CallOptimStep; CallZeroGrad].
Proof.
  split; [reflexivity|]. split; [exact toy_dataset_ok|].
  destruct (training_loss_printed (toy_world false) eq_refl toy_dataset_ok)
    as (b1 & b2 & b3 & b4 & l & gl & s & gs & w' & E & _ & Ht).
  exists l, s, w'. eexists. split; [exact E|].
  rewrite Ht. rewrite app_assoc. reflexivity.
Defined.

Lemma generation_block_report_witness :
  @cuda_is_available (toy_backend true) = true /\
  dataset_ok (ld_dataset (val_loader (toy_world true))) /\
  Forall (fun t => (t < NUM_TOKENS)%nat)
         (ds_data (ld_dataset (val_loader (toy_world true)))) /\
  exists (ext2 : list token) A K w',
    generation_block (toy_world true) = (Ok tt, w') /\
    In (Printed (AverageNumAccepted (average_accepted A K) GAMMA))
       (trace w') /\
    length ext2 = (A + K)%nat.
Proof.
  destruct (toy_world_ready true) as (_ & _ & Hds & Hv).
  split; [reflexivity|]. split; [exact Hds|]. split; [exact Hv|].
  destruct (generation_block_report (toy_world true) eq_refl Hds Hv)
    as (start & ext1 & ext2 & A & K & new & w2 & w3 & w'
        & _ & _ & _ & E & Ht & _ & _ & Hlen & _).
  exists ext2, A, K, w'. split; [exact E|]. split; [|exact Hlen].
  rewrite Ht.
  apply in_or_app; right; apply in_or_app; right;
    apply in_or_app; right; apply in_or_app; right.
  right. right. right. right. now left.
Defined.
